(** * Remote routing core of the record directory: hybrid label discovery

    Shallow embedding of
      - server/routing/pubsub/messages.go   (wire format of label announcements)
      - server/routing/pubsub/manager.go    (GossipSub manager)
      - server/routing/routing_remote.go    (remote routing: publish, search,
                                             provider notifications, gossip callback)
    followed by the properties of the routing specification that concern them.

    Conventions of the embedding.
      - Go strings are [string]; [[]byte] is [list byte]; Go [int] and [uint32]
        values are [Z].
      - A [time.Time] is the instant it denotes, counted in nanoseconds from the
        zero time (January 1, year 1, 00:00:00 UTC); location and monotonic
        clock reading are not part of the model.
      - A Go function returning [(T, error)] returns [result T]; one returning
        only [error] returns [option error], [None] being [nil].
      - Code that talks to the datastore, the clock, the DHT, the gossip topic or
        the store API is a state transformer on a [World]; what these
        collaborators answer is read from an [Oracle], indexed by the number of
        interactions made so far, so that every error branch of the source can
        be taken.
      - Goroutines run to completion where they are started; a channel is the
        list of the values sent on it before it is closed. *)

From Stdlib Require Import ZArith Lia Ascii DecimalString.
From stdpp Require Import base gmap strings list.


Open Scope Z_scope.

Abbreviation bytes := (list Byte.byte).
Abbreviation Time := Z.
Abbreviation Label := string.
Abbreviation peer_ID := string.

(** [t.IsZero()] *)
Definition Time_IsZero (t : Time) : bool := t =? 0.

(** Go error values, as far as the code builds and inspects them. *)
Inductive error : Type :=
| errors_New (msg : string)
| fmt_Errorf (msg : string) (cause : error)
| status_Errorf (code : string) (cause : error).

Inductive result (A : Type) : Type :=
| Ok (a : A)
| Err (e : error).
Arguments Ok {A} a.
Arguments Err {A} e.

Definition is_Ok {A} (r : result A) : bool :=
  match r with Ok _ => true | Err _ => false end.

(** [len(s) == 0] for a string: the empty string and only it. *)
Definition string_is_empty (s : string) : bool :=
  match s with EmptyString => true | String _ _ => false end.

(** ** Data of the wire and storage formats *)

(** pubsub.LabelAnnouncement *)
Record LabelAnnouncement := mkLabelAnnouncement {
  ann_CID : string;
  ann_PeerID : string;
  ann_Labels : list string;
  ann_Timestamp : Time
}.

(** labels.LabelMetadata, the value stored under an enhanced key. *)
Record LabelMetadata := mkLabelMetadata {
  md_Timestamp : Time;
  md_LastSeen : Time
}.

(** corev1.RecordRef *)
Record RecordRef := mkRecordRef { ref_Cid : string }.

(** routingv1.RecordQuery: the query type (a protobuf enum) and its value. *)
Record RecordQuery := mkRecordQuery {
  rq_Type : Z;
  rq_Value : string
}.

(** routingv1.Peer *)
Record Peer := mkPeer {
  peer_Id : string;
  peer_Addrs : list string
}.

(** routingv1.SearchRequest *)
Record SearchRequest := mkSearchRequest {
  req_Queries : list RecordQuery;
  req_Limit : Z;
  req_MinMatchScore : Z
}.

(** routingv1.SearchResponse *)
Record SearchResponse := mkSearchResponse {
  resp_RecordRef : RecordRef;
  resp_Peer : Peer;
  resp_MatchQueries : list RecordQuery;
  resp_MatchScore : Z
}.

(** routing.NamespaceEntry *)
Record NamespaceEntry := mkNamespaceEntry {
  ne_Namespace : string;
  ne_Key : string;
  ne_Value : bytes
}.

(** A message delivered by the gossip subscription ([pubsub.Message]): the peer
    it was received from and its payload. *)
Record Message := mkMessage {
  msg_ReceivedFrom : peer_ID;
  msg_Data : bytes
}.

(** [p.String()] of a [peer.ID]; a peer identity is modelled by its string
    form, which determines it. *)
Definition ID_String (p : peer_ID) : string := p.

(** ** What the source files use and do not define

    Types, constants and functions that the three source files refer to and
    that are declared in other files of the repository or in libraries
    (encoding/json, go-datastore, go-cid, go-multiaddr). They are taken as
    parameters of the development. *)
Class Externals := {
  (* types *)
  corev1_Record : Type;
  cid_Cid : Type;
  ma_Multiaddr : Type;
  (* pubsub/constants.go *)
  MaxMessageSize : Z;
  MaxLabelsPerAnnouncement : Z;
  (* encoding/json at the three types the code encodes *)
  json_Marshal_ann : LabelAnnouncement -> result bytes;
  json_Unmarshal_ann : bytes -> result LabelAnnouncement;
  json_Marshal_meta : LabelMetadata -> result bytes;
  json_Unmarshal_meta : bytes -> result LabelMetadata;
  json_Marshal_addrs : list ma_Multiaddr -> result bytes;
  json_Unmarshal_addrs : bytes -> result (list ma_Multiaddr);
  (* go-cid, go-datastore, go-multiaddr *)
  cid_Decode : string -> result cid_Cid;
  datastore_NewKey : string -> string;
  ma_Protocols : ma_Multiaddr -> list Z;
  ma_ValueForProtocol : ma_Multiaddr -> Z -> result string;
  ma_String : ma_Multiaddr -> string;
  p2p_DirProtocolCode : Z;
  (* helpers of package routing declared in other files *)
  BuildEnhancedLabelKey : Label -> string -> string -> string;
  ParseEnhancedLabelKey : string -> result (Label * string * string);
  GetLabelsFromRecord : corev1_Record -> list Label;
  QueryMatchesLabels : RecordQuery -> list Label -> bool;
  deduplicateQueries : list RecordQuery -> list RecordQuery
}.

(** Modelled from the spec: the constant [DefaultMinMatchScore] of package
    routing is declared outside the source files; the specification fixes it
    ("DefaultMinMatchScore = 1"). *)
Definition DefaultMinMatchScore : Z := 1.

Definition MaxUint32 : Z := 4294967295.

(** Modelled from the spec: the helper [safeIntToUint32] of package routing is
    declared outside the source files; the specification says the match score
    is the number of matching queries "saturating into the unsigned 32-bit
    range". *)
Definition safeIntToUint32 (val : Z) : Z :=
  if val <? 0 then 0
  else if MaxUint32 <? val then MaxUint32
  else val.

(** Modelled from the spec: the prefixes [labels.LabelTypeSkill.Prefix()],
    [...Domain...], [...Module...], [...Locator...] are declared outside the
    source files; the specification gives the enhanced key grammar
    [/{ns}/...] with [ns] one of skills, domains, modules, locators. *)
Definition LabelTypeSkill_Prefix : string := "/skills/".
Definition LabelTypeDomain_Prefix : string := "/domains/".
Definition LabelTypeModule_Prefix : string := "/modules/".
Definition LabelTypeLocator_Prefix : string := "/locators/".

(** ** The world the code runs in *)

Inductive Level := LvlDebug | LvlInfo | LvlWarn | LvlError.

Section World.
Context `{ext : Externals}.

(** What the code does to its collaborators, in order. Reads of the datastore
    and of the clock leave no event. *)
Inductive Event : Type :=
| EvLog (logger : string) (lvl : Level) (msg : string)
| EvPut (key : string) (value : bytes)
| EvPull (p : peer_ID) (ref : RecordRef)
| EvProvide (c : cid_Cid)
| EvTopicPublish (data : bytes).

Record World := mkWorld {
  w_store : gmap string bytes;
  w_trace : list Event;
  w_tick : nat
}.

(** Answers of the collaborators. The first argument is the number of
    interactions made before the call. *)
Record Oracle := mkOracle {
  o_ctx_err : nat -> option error;
  o_now : nat -> Time;
  o_get_err : nat -> string -> option error;
  o_put_err : nat -> string -> option error;
  o_query_err : nat -> string -> option error;
  o_result_err : nat -> string -> option error;
  o_pull : nat -> peer_ID -> RecordRef -> result corev1_Record;
  o_provide : nat -> cid_Cid -> option error;
  o_topic_publish : nat -> bytes -> option error
}.

Definition M (A : Type) : Type := World -> A * World.

Definition ret {A} (a : A) : M A := fun w => (a, w).

Definition bind {A B} (m : M A) (k : A -> M B) : M B :=
  fun w => let (a, w') := m w in k a w'.

End World.

Declare Scope go_scope.
Delimit Scope go_scope with go.
Notation "x <- c1 ;; c2" := (bind c1 (fun x => c2))
  (at level 100, c1 at next level, right associativity) : go_scope.
Notation "c1 ;; c2" := (bind c1 (fun _ => c2))
  (at level 100, right associativity) : go_scope.
Open Scope go_scope.

Section Primitives.
Context `{ext : Externals}.
Variable O : Oracle.

(** One interaction with the outside: its index, and the count moves on. *)
Definition tick : M nat :=
  fun w => (w_tick w, mkWorld (w_store w) (w_trace w) (S (w_tick w))).

Definition emit (e : Event) : M unit :=
  fun w => (tt, mkWorld (w_store w) (w_trace w ++ [e]) (w_tick w)).

Definition log (logger : string) (lvl : Level) (msg : string) : M unit :=
  emit (EvLog logger lvl msg).

(** [ctx.Err()], also what [<-ctx.Done()] observes. *)
Definition ctx_Err : M (option error) :=
  n <- tick ;; ret (o_ctx_err O n).

(** [time.Now()] *)
Definition time_Now : M Time :=
  n <- tick ;; ret (o_now O n).

Definition ErrNotFound : error := errors_New "datastore: key not found".

(** [dstore.Get(ctx, key)] *)
Definition dstore_Get (key : string) : M (result bytes) :=
  n <- tick ;;
  fun w =>
    match o_get_err O n key with
    | Some e => (Err e, w)
    | None =>
        match w_store w !! key with
        | Some v => (Ok v, w)
        | None => (Err ErrNotFound, w)
        end
    end.

(** [dstore.Put(ctx, key, value)]: an unconditional upsert; a put that reports
    an error leaves the store as it was. *)
Definition dstore_Put (key : string) (value : bytes) : M (option error) :=
  n <- tick ;;
  emit (EvPut key value) ;;
  fun w =>
    match o_put_err O n key with
    | Some e => (Some e, w)
    | None => (None, mkWorld (<[key := value]> (w_store w)) (w_trace w) (w_tick w))
    end.

(** [dstore.Query(ctx, query.Query{Prefix: prefix})] drained through
    [results.Next()]: the entries under the prefix, each one possibly replaced
    by an error result. *)
Definition dstore_Query (prefix : string) : M (result (list (result (string * bytes)))) :=
  n <- tick ;;
  fun w =>
    match o_query_err O n prefix with
    | Some e => (Err e, w)
    | None =>
        (Ok (map (fun kv : string * bytes =>
                    match o_result_err O n (fst kv) with
                    | Some e => Err e
                    | None => Ok kv
                    end)
                 (filter (fun kv : string * bytes => String.prefix prefix (fst kv) = true)
                         (map_to_list (w_store w)))), w)
    end.

(** [r.service.Pull(ctx, peer, ref)] *)
Definition service_Pull (p : peer_ID) (ref : RecordRef) : M (result corev1_Record) :=
  n <- tick ;;
  emit (EvPull p ref) ;;
  ret (o_pull O n p ref).

(** [r.server.DHT().Provide(ctx, cid, true)] *)
Definition DHT_Provide (c : cid_Cid) : M (option error) :=
  n <- tick ;;
  emit (EvProvide c) ;;
  ret (o_provide O n c).

(** [m.topic.Publish(ctx, data)] *)
Definition topic_Publish (data : bytes) : M (option error) :=
  n <- tick ;;
  emit (EvTopicPublish data) ;;
  ret (o_topic_publish O n data).

End Primitives.

(** ** Package pubsub: messages.go and manager.go *)

Module pubsub.
Section Pubsub.
Context `{ext : Externals}.
Variable O : Oracle.

Definition logger : string := "routing/pubsub".

(** [func (a *LabelAnnouncement) Validate() error] *)
Definition Validate (a : LabelAnnouncement) : option error :=
  if string_is_empty (ann_CID a) then Some (errors_New "missing CID")
  else if string_is_empty (ann_PeerID a) then Some (errors_New "missing PeerID")
  else if Z.of_nat (length (ann_Labels a)) =? 0 then Some (errors_New "no labels provided")
  else if Z.of_nat (length (ann_Labels a)) >? MaxLabelsPerAnnouncement
       then Some (errors_New "too many labels")
  else if Time_IsZero (ann_Timestamp a) then Some (errors_New "missing timestamp")
  else None.

(** [func (a *LabelAnnouncement) Marshal() ([]byte, error)] *)
Definition Marshal (a : LabelAnnouncement) : result bytes :=
  match json_Marshal_ann a with
  | Err err => Err (fmt_Errorf "failed to marshal label announcement" err)
  | Ok data =>
      if Z.of_nat (length data) >? MaxMessageSize
      then Err (errors_New "announcement exceeds maximum size")
      else Ok data
  end.

(** [func UnmarshalLabelAnnouncement(data []byte)], returning the announcement or an error *)
Definition UnmarshalLabelAnnouncement (data : bytes) : result LabelAnnouncement :=
  if Z.of_nat (length data) >? MaxMessageSize
  then Err (errors_New "announcement exceeds maximum size")
  else
    match json_Unmarshal_ann data with
    | Err err => Err (fmt_Errorf "failed to unmarshal label announcement" err)
    | Ok ann =>
        match Validate ann with
        | Some err => Err err
        | None => Ok ann
        end
    end.

(** The fields of [Manager] the modelled methods read: the host identity, its
    string form fixed by [New], and the installed callback. *)
Record Manager := mkManager {
  m_host_ID : peer_ID;
  m_localPeerID : string;
  m_onLabelAnnouncement : option (LabelAnnouncement -> M unit)
}.

(** [func New(ctx, h host.Host)], as far as the fields above go: the manager
    of host [h], no callback installed yet. Failures of the GossipSub set-up
    are not modelled. *)
Definition New (h : peer_ID) : Manager :=
  mkManager h (ID_String h) None.

(** [func (m *Manager) PublishLabels(ctx, cid string, labelList []labels.Label) error] *)
Definition PublishLabels (m : Manager) (cid : string) (labelList : list Label)
  : M (option error) :=
  let labelStrings := map (fun label : Label => label) labelList in
  now <- time_Now O ;;
  let announcement := mkLabelAnnouncement cid (m_localPeerID m) labelStrings now in
  match Validate announcement with
  | Some err => ret (Some (fmt_Errorf "invalid announcement" err))
  | None =>
      match Marshal announcement with
      | Err err => ret (Some (fmt_Errorf "failed to marshal announcement" err))
      | Ok data =>
          r <- topic_Publish O data ;;
          match r with
          | Some err => ret (Some (fmt_Errorf "failed to publish announcement" err))
          | None =>
              log logger LvlInfo "Published label announcement" ;;
              ret None
          end
      end
  end.

(** [func (m *Manager) SetOnLabelAnnouncement(fn ...)] *)
Definition SetOnLabelAnnouncement (m : Manager) (fn : LabelAnnouncement -> M unit)
  : Manager :=
  mkManager (m_host_ID m) (m_localPeerID m) (Some fn).

(** The body of the loop of [handleMessages] once [m.sub.Next] has returned a
    message: self filter, decoding, callback. *)
Definition handleMessage (m : Manager) (msg : Message) : M unit :=
  if bool_decide (msg_ReceivedFrom msg = m_host_ID m) then ret tt
  else
    match UnmarshalLabelAnnouncement (msg_Data msg) with
    | Err err =>
        log logger LvlWarn "Received invalid label announcement"
    | Ok announcement =>
        log logger LvlDebug "Received label announcement" ;;
        match m_onLabelAnnouncement m with
        | Some fn => fn announcement
        | None => ret tt
        end
    end.

(** [func (m *Manager) handleMessages()], driven by the successive outcomes of
    [m.sub.Next(m.ctx)]; the loop of the source never ends by itself, the model
    stops when the context is cancelled or the outcomes are used up. *)
Fixpoint handleMessages (m : Manager) (deliveries : list (result Message)) : M unit :=
  match deliveries with
  | [] => ret tt
  | Err err :: rest =>
      cerr <- ctx_Err O ;;
      match cerr with
      | Some _ =>
          log logger LvlDebug "Message handler stopping"
      | None =>
          log logger LvlError "Error reading from labels topic" ;;
          handleMessages m rest
      end
  | Ok msg :: rest =>
      handleMessage m msg ;;
      handleMessages m rest
  end.

End Pubsub.
End pubsub.

(** ** Package routing: routing_remote.go *)

Module routing.
Section Routing.
Context `{ext : Externals}.
Variable O : Oracle.

Definition remoteLogger : string := "routing/remote".

(** The namespaces walked by [QueryAllNamespaces], in the order of the source. *)
Definition namespaces : list string :=
  [LabelTypeSkill_Prefix; LabelTypeDomain_Prefix; LabelTypeModule_Prefix;
   LabelTypeLocator_Prefix].

(** The closure that drains [results.Next()]: results carrying an error are
    skipped, the others are appended as entries of the namespace. *)
Definition drain (namespace : string) (results : list (result (string * bytes)))
  : list NamespaceEntry :=
  omap (fun r : result (string * bytes) =>
          match r with
          | Ok kv => Some (mkNamespaceEntry namespace (fst kv) (snd kv))
          | Err _ => None
          end) results.

Fixpoint QueryAllNamespaces_loop (nss : list string) (entries : list NamespaceEntry)
  : M (result (list NamespaceEntry)) :=
  match nss with
  | [] => ret (Ok entries)
  | namespace :: rest =>
      cerr <- ctx_Err O ;;
      match cerr with
      | Some e => ret (Err (fmt_Errorf "namespace query canceled" e))
      | None =>
          q <- dstore_Query O namespace ;;
          match q with
          | Err err =>
              log remoteLogger LvlWarn "Failed to query namespace" ;;
              QueryAllNamespaces_loop rest entries
          | Ok results =>
              QueryAllNamespaces_loop rest (entries ++ drain namespace results)
          end
      end
  end.

(** [func QueryAllNamespaces(ctx, dstore) ([]NamespaceEntry, error)] *)
Definition QueryAllNamespaces : M (result (list NamespaceEntry)) :=
  QueryAllNamespaces_loop namespaces [].

(** The fields of [routeRemote] the modelled methods read:
    [r.server.Host().ID()] and [r.pubsubManager] ([None] when gossip is
    disabled). The datastore, the store API and the DHT are in the world. *)
Record routeRemote := mkRouteRemote {
  r_host_ID : peer_ID;
  r_pubsubManager : option pubsub.Manager
}.

(** [peer.AddrInfo] and the notification [handlerSync] pushed by the provider
    store. *)
Record AddrInfo := mkAddrInfo {
  ai_ID : peer_ID;
  ai_Addrs : list ma_Multiaddr
}.

Record handlerSync := mkHandlerSync {
  hs_Ref : RecordRef;
  hs_Peer : AddrInfo
}.

(** [func (r *routeRemote) publishToNetwork(ctx, cidStr string, record) error] *)
Definition publishToNetwork (r : routeRemote) (cidStr : string) (record : corev1_Record)
  : M (option error) :=
  match cid_Decode cidStr with
  | Err err => ret (Some (fmt_Errorf "failed to parse CID" err))
  | Ok decodedCID =>
      perr <- DHT_Provide O decodedCID ;;
      match perr with
      | Some err => ret (Some (fmt_Errorf "failed to announce CID to DHT" err))
      | None =>
          match r_pubsubManager r with
          | Some mgr =>
              let labelList := GetLabelsFromRecord record in
              if 0 <? Z.of_nat (length labelList) then
                gerr <- pubsub.PublishLabels O mgr cidStr labelList ;;
                match gerr with
                | Some err =>
                    log remoteLogger LvlWarn "Failed to publish labels via GossipSub" ;;
                    ret None
                | None =>
                    log remoteLogger LvlDebug "Successfully published labels via GossipSub" ;;
                    ret None
                end
              else ret None
          | None => ret None
          end
      end
  end.

(** [func (r *routeRemote) Publish(ctx, ref, record) error] *)
Definition Publish (r : routeRemote) (ref : RecordRef) (record : corev1_Record)
  : M (option error) :=
  log remoteLogger LvlDebug "Publishing record to network" ;;
  e <- publishToNetwork r (ref_Cid ref) record ;;
  match e with
  | Some err => ret (Some (status_Errorf "Internal" err))
  | None =>
      log remoteLogger LvlDebug "Successfully announced record to network" ;;
      ret None
  end.

(** [func (r *routeRemote) getRemoteRecordLabels(ctx, cid, peerID string) []labels.Label] *)
Definition getRemoteRecordLabels (cid peerID : string) : M (list Label) :=
  q <- QueryAllNamespaces ;;
  match q with
  | Err err =>
      log remoteLogger LvlError "Failed to get namespace entries for labels" ;;
      ret []
  | Ok entries =>
      ret (omap (fun entry : NamespaceEntry =>
                   match ParseEnhancedLabelKey (ne_Key entry) with
                   | Err _ => None
                   | Ok (label, keyCID, keyPeerID) =>
                       if bool_decide (keyCID = cid) && bool_decide (keyPeerID = peerID)
                       then Some label else None
                   end) entries)
  end.

(** [func (r *routeRemote) calculateMatchScore(ctx, cid, queries, peerID)]:
    the matching queries and their number as [uint32]. *)
Definition calculateMatchScore (cid : string) (queries : list RecordQuery) (peerID : string)
  : M (list RecordQuery * Z) :=
  if Z.of_nat (length queries) =? 0 then ret ([], 0)
  else
    labels <- getRemoteRecordLabels cid peerID ;;
    if Z.of_nat (length labels) =? 0 then ret ([], 0)
    else
      let matchingQueries :=
        filter (fun query : RecordQuery => QueryMatchesLabels query labels = true) queries in
      let score := safeIntToUint32 (Z.of_nat (length matchingQueries)) in
      log remoteLogger LvlDebug "OR logic match score calculated" ;;
      ret (matchingQueries, score).

(** The inner loop of [getDirectoryAPIAddress] over [addr.Protocols()]. *)
Fixpoint dirValue_protocols (addr : ma_Multiaddr) (protocols : list Z) : M (option string) :=
  match protocols with
  | [] => ret None
  | code :: rest =>
      if code =? p2p_DirProtocolCode then
        match ma_ValueForProtocol addr p2p_DirProtocolCode with
        | Err err =>
            log remoteLogger LvlError "Failed to get dir protocol value" ;;
            dirValue_protocols addr rest
        | Ok value => ret (Some value)
        end
      else dirValue_protocols addr rest
  end.

(** The outer loop of [getDirectoryAPIAddress] over the decoded addresses. *)
Fixpoint dirValue_addrs (multiaddrs : list ma_Multiaddr) : M string :=
  match multiaddrs with
  | [] => ret EmptyString
  | addr :: rest =>
      v <- dirValue_protocols addr (ma_Protocols addr) ;;
      match v with
      | Some value => ret value
      | None => dirValue_addrs rest
      end
  end.

(** [func (r *routeRemote) getDirectoryAPIAddress(ctx, peerID string) string] *)
Definition getDirectoryAPIAddress (peerID : string) : M string :=
  let key := datastore_NewKey ("peer_addrs/" +:+ peerID) in
  g <- dstore_Get O key ;;
  match g with
  | Err err =>
      log remoteLogger LvlError "Failed to get peer addresses" ;;
      ret EmptyString
  | Ok addresses =>
      match json_Unmarshal_addrs addresses with
      | Err err =>
          log remoteLogger LvlError "Failed to unmarshal peer addresses" ;;
          ret EmptyString
      | Ok multiaddrs =>
          log remoteLogger LvlDebug "Unmarshalled peer addresses" ;;
          dirValue_addrs multiaddrs
      end
  end.

(** [func (r *routeRemote) createPeerInfo(ctx, peerID string) *routingv1.Peer] *)
Definition createPeerInfo (peerID : string) : M Peer :=
  dirAPIAddr <- getDirectoryAPIAddress peerID ;;
  ret (mkPeer peerID [dirAPIAddr]).

(** The variables of [searchRemoteRecords] that live across iterations, and
    the channel. *)
Record SearchState := mkSearchState {
  processedCIDs : gset string;
  processedCount : Z;
  outCh : list SearchResponse
}.

(** The loop [for _, entry := range entries] of [searchRemoteRecords]. *)
Fixpoint searchRemoteRecords_loop (localPeerID : string) (queries : list RecordQuery)
    (limitInt minMatchScore : Z) (entries : list NamespaceEntry) (st : SearchState)
  : M SearchState :=
  match entries with
  | [] => ret st
  | entry :: rest =>
      if (0 <? limitInt) && (limitInt <=? processedCount st) then ret st
      else
        match ParseEnhancedLabelKey (ne_Key entry) with
        | Err err =>
            log remoteLogger LvlWarn "Failed to parse enhanced label key" ;;
            searchRemoteRecords_loop localPeerID queries limitInt minMatchScore rest st
        | Ok (_, keyCID, keyPeerID) =>
            if bool_decide (keyPeerID = localPeerID) then
              searchRemoteRecords_loop localPeerID queries limitInt minMatchScore rest st
            else if bool_decide (keyCID ∈ processedCIDs st) then
              searchRemoteRecords_loop localPeerID queries limitInt minMatchScore rest st
            else
              ms <- calculateMatchScore keyCID queries keyPeerID ;;
              let matchQueries := fst ms in
              let score := snd ms in
              log remoteLogger LvlDebug "Calculated match score for remote record" ;;
              if minMatchScore <=? score then
                peer <- createPeerInfo keyPeerID ;;
                let st' :=
                  mkSearchState ({[keyCID]} ∪ processedCIDs st)
                                (processedCount st + 1)
                                (outCh st ++ [mkSearchResponse (mkRecordRef keyCID) peer
                                                               matchQueries score]) in
                log remoteLogger LvlDebug
                    "Record meets minimum threshold, including in results" ;;
                if (0 <? limitInt) && (limitInt <=? processedCount st') then ret st'
                else searchRemoteRecords_loop localPeerID queries limitInt minMatchScore
                                              rest st'
              else
                log remoteLogger LvlDebug
                    "Record does not meet minimum threshold, excluding from results" ;;
                searchRemoteRecords_loop localPeerID queries limitInt minMatchScore rest st
        end
  end.

(** [func (r *routeRemote) searchRemoteRecords(ctx, queries, limit, minMatchScore, outCh)]:
    returns what was sent on [outCh]. *)
Definition searchRemoteRecords (r : routeRemote) (queries : list RecordQuery)
    (limit minMatchScore : Z) : M (list SearchResponse) :=
  let localPeerID := ID_String (r_host_ID r) in
  let limitInt := limit in
  log remoteLogger LvlDebug "Starting remote search with OR logic and minimum threshold" ;;
  q <- QueryAllNamespaces ;;
  match q with
  | Err err =>
      log remoteLogger LvlError "Failed to get namespace entries for search" ;;
      ret []
  | Ok entries =>
      st <- searchRemoteRecords_loop localPeerID queries limitInt minMatchScore entries
              (mkSearchState ∅ 0 []) ;;
      log remoteLogger LvlDebug "Completed Search operation" ;;
      ret (outCh st)
  end.

(** [func (r *routeRemote) Search(ctx, req) (<-chan *routingv1.SearchResponse, error)]:
    the channel, given by what the goroutine sends on it before closing it,
    and the error. *)
Definition Search (r : routeRemote) (req : SearchRequest)
  : M (list SearchResponse * option error) :=
  log remoteLogger LvlDebug "Called remote routing's Search method" ;;
  let originalQueries := req_Queries req in
  let deduplicatedQueries := deduplicateQueries originalQueries in
  (if bool_decide (length originalQueries ≠ length deduplicatedQueries)
   then log remoteLogger LvlInfo "Deduplicated search queries for consistent scoring"
   else ret tt) ;;
  let minMatchScore := req_MinMatchScore req in
  minMatchScore <-
    (if minMatchScore <? DefaultMinMatchScore
     then log remoteLogger LvlDebug "Applied minimum match score for production safety" ;;
          ret DefaultMinMatchScore
     else ret minMatchScore) ;;
  results <- searchRemoteRecords r deduplicatedQueries (req_Limit req) minMatchScore ;;
  ret (results, None).

(** [func (r *routeRemote) hasRemoteRecordCached(ctx, cid, peerID string) bool] *)
Definition hasRemoteRecordCached (cid peerID : string) : M bool :=
  q <- QueryAllNamespaces ;;
  match q with
  | Err err =>
      log remoteLogger LvlError "Failed to get namespace entries for cache check" ;;
      ret false
  | Ok entries =>
      ret (existsb (fun entry : NamespaceEntry =>
                      match ParseEnhancedLabelKey (ne_Key entry) with
                      | Err _ => false
                      | Ok (_, keyCID, keyPeerID) =>
                          bool_decide (keyCID = cid) && bool_decide (keyPeerID = peerID)
                      end) entries)
  end.

(** [func (r *routeRemote) updateLabelMetadataTimestamp(ctx, key string, value []byte,
    timestamp time.Time) error] *)
Definition updateLabelMetadataTimestamp (key : string) (value : bytes) (timestamp : Time)
  : M (option error) :=
  match json_Unmarshal_meta value with
  | Err err => ret (Some (fmt_Errorf "failed to unmarshal label metadata" err))
  | Ok metadata =>
      let metadata := mkLabelMetadata (md_Timestamp metadata) timestamp in
      match json_Marshal_meta metadata with
      | Err err => ret (Some (fmt_Errorf "failed to marshal label metadata" err))
      | Ok metadataBytes =>
          perr <- dstore_Put O (datastore_NewKey key) metadataBytes ;;
          match perr with
          | Some err => ret (Some (fmt_Errorf "failed to save label metadata" err))
          | None => ret None
          end
      end
  end.

(** The loop of [updateRemoteRecordLastSeen]; the result is [updatedCount]. *)
Fixpoint updateRemoteRecordLastSeen_loop (cid peerID : string) (now : Time)
    (entries : list NamespaceEntry) (updatedCount : Z) : M Z :=
  match entries with
  | [] => ret updatedCount
  | entry :: rest =>
      match ParseEnhancedLabelKey (ne_Key entry) with
      | Err _ => updateRemoteRecordLastSeen_loop cid peerID now rest updatedCount
      | Ok (_, keyCID, keyPeerID) =>
          if bool_decide (keyCID = cid) && bool_decide (keyPeerID = peerID) then
            uerr <- updateLabelMetadataTimestamp (ne_Key entry) (ne_Value entry) now ;;
            match uerr with
            | Some err =>
                log remoteLogger LvlWarn "Failed to update lastSeen for cached label" ;;
                updateRemoteRecordLastSeen_loop cid peerID now rest updatedCount
            | None =>
                log remoteLogger LvlDebug "Updated lastSeen for cached label" ;;
                updateRemoteRecordLastSeen_loop cid peerID now rest (updatedCount + 1)
            end
          else updateRemoteRecordLastSeen_loop cid peerID now rest updatedCount
      end
  end.

(** [func (r *routeRemote) updateRemoteRecordLastSeen(ctx, cid, peerID string)] *)
Definition updateRemoteRecordLastSeen (cid peerID : string) : M unit :=
  now <- time_Now O ;;
  q <- QueryAllNamespaces ;;
  match q with
  | Err err =>
      log remoteLogger LvlError "Failed to get namespace entries for lastSeen update"
  | Ok entries =>
      updatedCount <- updateRemoteRecordLastSeen_loop cid peerID now entries 0 ;;
      log remoteLogger LvlDebug "Updated lastSeen timestamps for reannounced record"
  end.

(** The loop of the slow path of [handleCIDProviderNotification] over the
    labels of the pulled record; the result is [cachedCount]. *)
Fixpoint cachePulledLabels_loop (cid peerIDStr : string) (now : Time)
    (labelList : list Label) (cachedCount : Z) : M Z :=
  match labelList with
  | [] => ret cachedCount
  | label :: rest =>
      let enhancedKey := BuildEnhancedLabelKey label cid peerIDStr in
      let metadata := mkLabelMetadata now now in
      match json_Marshal_meta metadata with
      | Err err =>
          log remoteLogger LvlWarn "Failed to marshal label metadata" ;;
          cachePulledLabels_loop cid peerIDStr now rest cachedCount
      | Ok metadataBytes =>
          perr <- dstore_Put O (datastore_NewKey enhancedKey) metadataBytes ;;
          match perr with
          | Some err =>
              log remoteLogger LvlWarn "Failed to cache remote label" ;;
              cachePulledLabels_loop cid peerIDStr now rest cachedCount
          | None => cachePulledLabels_loop cid peerIDStr now rest (cachedCount + 1)
          end
      end
  end.

(** The block of [handleCIDProviderNotification] that records the addresses of
    the announcing peer when none are stored yet. *)
Definition learnPeerAddrs (peerIDStr : string) (addrs : list ma_Multiaddr) : M unit :=
  if 0 <? Z.of_nat (length addrs) then
    let key := datastore_NewKey ("peer_addrs/" +:+ peerIDStr) in
    g <- dstore_Get O key ;;
    match g with
    | Ok _ => ret tt
    | Err _ =>
        let marshalled := json_Marshal_addrs addrs in
        (match marshalled with
         | Err err => log remoteLogger LvlError "Failed to marshal peer addresses"
         | Ok _ => ret tt
         end) ;;
        let addresses := match marshalled with Ok a => a | Err _ => [] end in
        perr <- dstore_Put O key addresses ;;
        (match perr with
         | Some err => log remoteLogger LvlError "Failed to store peer addresses"
         | None => ret tt
         end) ;;
        log remoteLogger LvlDebug "Stored peer addresses"
    end
  else ret tt.

(** [func (r *routeRemote) handleCIDProviderNotification(ctx, notif *handlerSync)] *)
Definition handleCIDProviderNotification (r : routeRemote) (notif : handlerSync) : M unit :=
  let peerIDStr := ID_String (ai_ID (hs_Peer notif)) in
  if bool_decide (peerIDStr = ID_String (r_host_ID r)) then
    log remoteLogger LvlDebug "Ignoring self announcement"
  else
    learnPeerAddrs peerIDStr (ai_Addrs (hs_Peer notif)) ;;
    cached <- hasRemoteRecordCached (ref_Cid (hs_Ref notif)) peerIDStr ;;
    if cached then
      log remoteLogger LvlDebug
          "Labels already cached (likely from GossipSub), updating lastSeen" ;;
      updateRemoteRecordLastSeen (ref_Cid (hs_Ref notif)) peerIDStr
    else
      log remoteLogger LvlDebug "No cached labels, falling back to pull-based discovery" ;;
      pulled <- service_Pull O (ai_ID (hs_Peer notif)) (hs_Ref notif) ;;
      match pulled with
      | Err err =>
          log remoteLogger LvlError "Failed to pull remote content for label caching"
      | Ok record =>
          let labelList := GetLabelsFromRecord record in
          if Z.of_nat (length labelList) =? 0 then
            log remoteLogger LvlWarn "No labels found in remote record"
          else
            now <- time_Now O ;;
            cachedCount <- cachePulledLabels_loop (ref_Cid (hs_Ref notif)) peerIDStr now
                             labelList 0 ;;
            log remoteLogger LvlInfo "Successfully cached labels via DHT+Pull fallback"
      end.

(** [func (r *routeRemote) handleNotify(ctx)], driven by the successive
    outcomes of its [select]: [None] when [ctx.Done()] is ready, a notification
    when one is received from [r.notifyCh]. The loop of the source ends only
    on [ctx.Done()]; the model also stops when the outcomes are used up. *)
Fixpoint handleNotify (r : routeRemote) (selected : list (option handlerSync)) : M unit :=
  match selected with
  | [] => ret tt
  | None :: _ => ret tt
  | Some notif :: rest =>
      handleCIDProviderNotification r notif ;;
      handleNotify r rest
  end.

(** The loop of [handleLabelAnnouncement] over the announced labels; the
    result is [cachedCount]. *)
Fixpoint cacheAnnouncedLabels_loop (ann : LabelAnnouncement) (now : Time)
    (labelStrs : list string) (cachedCount : Z) : M Z :=
  match labelStrs with
  | [] => ret cachedCount
  | labelStr :: rest =>
      let label : Label := labelStr in
      let enhancedKey := BuildEnhancedLabelKey label (ann_CID ann) (ann_PeerID ann) in
      let metadata := mkLabelMetadata (ann_Timestamp ann) now in
      match json_Marshal_meta metadata with
      | Err err =>
          log remoteLogger LvlWarn "Failed to marshal label metadata" ;;
          cacheAnnouncedLabels_loop ann now rest cachedCount
      | Ok metadataBytes =>
          perr <- dstore_Put O (datastore_NewKey enhancedKey) metadataBytes ;;
          match perr with
          | Some err =>
              log remoteLogger LvlWarn "Failed to cache label from GossipSub" ;;
              cacheAnnouncedLabels_loop ann now rest cachedCount
          | None => cacheAnnouncedLabels_loop ann now rest (cachedCount + 1)
          end
      end
  end.

(** [func (r *routeRemote) handleLabelAnnouncement(ctx, ann *pubsub.LabelAnnouncement)] *)
Definition handleLabelAnnouncement (r : routeRemote) (ann : LabelAnnouncement) : M unit :=
  if bool_decide (ann_PeerID ann = ID_String (r_host_ID r)) then ret tt
  else
    log remoteLogger LvlInfo "Caching labels from GossipSub announcement" ;;
    now <- time_Now O ;;
    cachedCount <- cacheAnnouncedLabels_loop ann now (ann_Labels ann) 0 ;;
    log remoteLogger LvlInfo "Successfully cached labels from GossipSub".

(** The part of [newRemote] that wires the gossip manager: a manager for the
    host is created by [pubsub.New] and [routeAPI.handleLabelAnnouncement] is
    installed as its callback. *)
Definition newRemote_manager (host : peer_ID) : pubsub.Manager :=
  let routeAPI := mkRouteRemote host None in
  let pubsubManager := pubsub.New host in
  pubsub.SetOnLabelAnnouncement pubsubManager (handleLabelAnnouncement routeAPI).

(** [newRemote], as far as the fields of [routeRemote] go: the gossip manager
    is set up when GossipSub is enabled and absent otherwise. *)
Definition newRemote (host : peer_ID) (gossipSubEnabled : bool) : routeRemote :=
  if gossipSubEnabled
  then mkRouteRemote host (Some (newRemote_manager host))
  else mkRouteRemote host None.

End Routing.
End routing.

(** ** A small instance of the parameters

    Used to run the model on concrete inputs. The key helpers follow the
    specification; the encodings are a compact stand-in for encoding/json
    (canonical layout, strings without quote or backslash, instants printed as
    non-negative decimal numbers), enough to have bytes to store and decode. *)

Module sample.

Definition dquote : ascii := Ascii.ascii_of_nat 34.
Definition backslash : ascii := Ascii.ascii_of_nat 92.
Definition slash : ascii := Ascii.ascii_of_nat 47.

(** [strings.Split(s, c)] for a one-character separator. *)
Fixpoint split (c : ascii) (s : string) : list string :=
  match s with
  | EmptyString => [EmptyString]
  | String a rest =>
      if Ascii.eqb a c then EmptyString :: split c rest
      else match split c rest with
           | [] => [String a EmptyString]
           | hd :: tl => String a hd :: tl
           end
  end.

(** [strings.Join(parts, sep)] *)
Definition join (sep : string) (parts : list string) : string :=
  match parts with
  | [] => EmptyString
  | p :: ps => fold_left (fun acc q => acc +:+ sep +:+ q) ps p
  end.

(** The text before and after the first occurrence of [c]. *)
Fixpoint cut (c : ascii) (s : string) : option (string * string) :=
  match s with
  | EmptyString => None
  | String a rest =>
      if Ascii.eqb a c then Some (EmptyString, rest)
      else match cut c rest with
           | Some (l, r) => Some (String a l, r)
           | None => None
           end
  end.

Definition strip_prefix (p s : string) : option string :=
  if String.prefix p s
  then Some (String.substring (String.length p) (String.length s - String.length p) s)
  else None.

(** *** Keys *)

Definition known_namespace (ns : string) : bool :=
  bool_decide (ns ∈ ["skills"; "domains"; "modules"; "locators"]).

(** Modelled from the spec: [BuildEnhancedLabelKey] is declared outside the
    source files; the specification gives the composite key
    [/{namespace}/{label-tail}/{cid}/{peerID}], the label being
    [/{namespace}/{label-tail}]. *)
Definition BuildEnhancedLabelKey (label : Label) (cid peerID : string) : string :=
  label +:+ "/" +:+ cid +:+ "/" +:+ peerID.

(** Modelled from the spec: [ParseEnhancedLabelKey] is declared outside the
    source files; the specification says it "splits on the path separator;
    fails for keys that do not begin with a known namespace or whose tail
    cannot be cleanly partitioned into .../cid/peer", the label path being
    non-empty and the last two segments being CID and PeerID. *)
Definition ParseEnhancedLabelKey (key : string) : result (Label * string * string) :=
  match split slash key with
  | EmptyString :: ns :: rest =>
      if known_namespace ns then
        match rev rest with
        | peerID :: cid :: labelPath =>
            if bool_decide (labelPath = []) then Err (errors_New "invalid enhanced key")
            else Ok ("/" +:+ join "/" (ns :: rev labelPath), cid, peerID)
        | _ => Err (errors_New "invalid enhanced key")
        end
      else Err (errors_New "unknown namespace")
  | _ => Err (errors_New "key must start with /")
  end.

(** [datastore.NewKey(s).String()]: the cleaned, rooted path. *)
Fixpoint clean_segments (segs stack : list string) : list string :=
  match segs with
  | [] => rev stack
  | seg :: rest =>
      if bool_decide (seg = EmptyString) || bool_decide (seg = ".") then clean_segments rest stack
      else if bool_decide (seg = "..") then clean_segments rest (tail stack)
      else clean_segments rest (seg :: stack)
  end.

Definition datastore_NewKey (s : string) : string :=
  "/" +:+ join "/" (clean_segments (split slash s) []).

(** *** Encodings *)

Definition plain (s : string) : bool :=
  forallb (fun a => negb (Ascii.eqb a dquote || Ascii.eqb a backslash))
          (String.list_ascii_of_string s).

Definition quoted (s : string) : string :=
  String dquote (s +:+ String dquote EmptyString).

Definition field (name : string) : string := quoted name +:+ ":".

Definition print_instant (t : Time) : string :=
  DecimalString.NilEmpty.string_of_uint (N.to_uint (Z.to_N t)).

Definition read_string (s : string) : option (string * string) :=
  match s with
  | String a rest => if Ascii.eqb a dquote then cut dquote rest else None
  | EmptyString => None
  end.

Definition read_instant (stop : ascii) (s : string) : option (Time * string) :=
  '(digits, rest) ← cut stop s;
  if string_is_empty digits then None
  else u ← DecimalString.NilEmpty.uint_of_string digits;
       Some (Z.of_N (N.of_uint u), rest).

(** The elements of an array of strings, read after its opening bracket. *)
Fixpoint read_strings (fuel : nat) (s : string) : option (list string * string) :=
  match fuel with
  | O => None
  | S fuel =>
      match strip_prefix "]" s with
      | Some rest => Some ([], rest)
      | None =>
          '(x, rest) ← read_string s;
          match strip_prefix "," rest with
          | Some rest' => '(xs, r) ← read_strings fuel rest'; Some (x :: xs, r)
          | None => rest' ← strip_prefix "]" rest; Some ([x], rest')
          end
      end
  end.

Definition unsupported {A} : result A := Err (errors_New "json: unsupported value").
Definition syntax_error {A} : result A := Err (errors_New "json: syntax error").

Definition of_option {A} (o : option A) : result A :=
  match o with Some a => Ok a | None => syntax_error end.

Definition json_Marshal_ann (a : LabelAnnouncement) : result bytes :=
  if plain (ann_CID a) && plain (ann_PeerID a) && forallb plain (ann_Labels a)
     && (0 <=? ann_Timestamp a)
  then Ok (String.list_byte_of_string
             ("{" +:+ field "cid" +:+ quoted (ann_CID a) +:+ ","
                  +:+ field "peer_id" +:+ quoted (ann_PeerID a) +:+ ","
                  +:+ field "labels" +:+ "[" +:+ join "," (map quoted (ann_Labels a)) +:+ "],"
                  +:+ field "timestamp" +:+ print_instant (ann_Timestamp a) +:+ "}"))
  else unsupported.

Definition json_Unmarshal_ann (data : bytes) : result LabelAnnouncement :=
  let s := String.string_of_list_byte data in
  of_option (
    s ← strip_prefix ("{" +:+ field "cid") s;
    '(cid, s) ← read_string s;
    s ← strip_prefix ("," +:+ field "peer_id") s;
    '(peerID, s) ← read_string s;
    s ← strip_prefix ("," +:+ field "labels" +:+ "[") s;
    '(labels, s) ← read_strings (S (String.length s)) s;
    s ← strip_prefix ("," +:+ field "timestamp") s;
    '(ts, s) ← read_instant "}" s;
    if string_is_empty s then Some (mkLabelAnnouncement cid peerID labels ts) else None).

Definition json_Marshal_meta (m : LabelMetadata) : result bytes :=
  if (0 <=? md_Timestamp m) && (0 <=? md_LastSeen m)
  then Ok (String.list_byte_of_string
             ("{" +:+ field "timestamp" +:+ print_instant (md_Timestamp m) +:+ ","
                  +:+ field "last_seen" +:+ print_instant (md_LastSeen m) +:+ "}"))
  else unsupported.

Definition json_Unmarshal_meta (data : bytes) : result LabelMetadata :=
  let s := String.string_of_list_byte data in
  of_option (
    s ← strip_prefix ("{" +:+ field "timestamp") s;
    '(ts, s) ← read_instant "," s;
    s ← strip_prefix (field "last_seen") s;
    '(ls, s) ← read_instant "}" s;
    if string_is_empty s then Some (mkLabelMetadata ts ls) else None).

(** A multiaddress is kept in its text form, [/proto/value/proto/value...]. *)
Definition json_Marshal_addrs (addrs : list string) : result bytes :=
  if forallb plain addrs
  then Ok (String.list_byte_of_string ("[" +:+ join "," (map quoted addrs) +:+ "]"))
  else unsupported.

Definition json_Unmarshal_addrs (data : bytes) : result (list string) :=
  let s := String.string_of_list_byte data in
  of_option (
    s ← strip_prefix "[" s;
    '(addrs, s) ← read_strings (S (String.length s)) s;
    if string_is_empty s then Some addrs else None).

Definition protocol_code (name : string) : Z :=
  if bool_decide (name = "ip4") then 4
  else if bool_decide (name = "tcp") then 6
  else if bool_decide (name = "dir") then 65535
  else 0.

Fixpoint components (segs : list string) : list (Z * string) :=
  match segs with
  | name :: value :: rest => (protocol_code name, value) :: components rest
  | _ => []
  end.

Definition ma_components (addr : string) : list (Z * string) :=
  components (tail (split slash addr)).

Definition ma_Protocols (addr : string) : list Z := map fst (ma_components addr).

Definition ma_ValueForProtocol (addr : string) (code : Z) : result string :=
  match filter (fun c : Z * string => fst c = code) (ma_components addr) with
  | c :: _ => Ok (snd c)
  | [] => Err (errors_New "protocol not found in multiaddr")
  end.

(** *** Records, identifiers and queries *)

Definition cid_Decode (s : string) : result string :=
  if string_is_empty s then Err (errors_New "cid too short") else Ok s.

(** A record is given by the labels it carries. *)
Definition GetLabelsFromRecord (record : list Label) : list Label := record.

Definition query_namespace (q : RecordQuery) : string :=
  if rq_Type q =? 1 then LabelTypeSkill_Prefix
  else if rq_Type q =? 2 then LabelTypeLocator_Prefix
  else if rq_Type q =? 3 then LabelTypeDomain_Prefix
  else if rq_Type q =? 4 then LabelTypeModule_Prefix
  else "/".

Definition QueryMatchesLabels (q : RecordQuery) (labels : list Label) : bool :=
  existsb (fun label : Label =>
             bool_decide (label = query_namespace q +:+ rq_Value q)
             || String.prefix (query_namespace q +:+ rq_Value q +:+ "/") label) labels.

#[global] Instance RecordQuery_eq_dec : EqDecision RecordQuery.
Proof. solve_decision. Defined.

(** Modelled from the spec: [deduplicateQueries] is declared outside the
    source files; the specification says that "semantically identical queries
    collapse to one", equality being structural. *)
Definition deduplicateQueries (queries : list RecordQuery) : list RecordQuery :=
  remove_dups queries.

(** The instance. The two protocol constants get sample values: messages of
    at most 10240 bytes, at most 100 labels per announcement. *)
Definition ext : Externals :=
  Build_Externals (list Label) string string 10240 100
    json_Marshal_ann json_Unmarshal_ann json_Marshal_meta json_Unmarshal_meta
    json_Marshal_addrs json_Unmarshal_addrs
    cid_Decode datastore_NewKey ma_Protocols ma_ValueForProtocol (fun addr => addr) 65535
    BuildEnhancedLabelKey ParseEnhancedLabelKey GetLabelsFromRecord QueryMatchesLabels
    deduplicateQueries.

#[local] Existing Instance ext.

(** Collaborators that never fail: the context is live, the datastore answers,
    the clock reads [now], pulls from a peer return [record]. *)
Definition calm (now : Time) (record : list Label) : Oracle :=
  mkOracle (fun _ => None) (fun _ => now) (fun _ _ => None) (fun _ _ => None)
           (fun _ _ => None) (fun _ _ => None) (fun _ _ _ => Ok record)
           (fun _ _ => None) (fun _ _ => None).

(** The same collaborators once the context has been cancelled. *)
Definition cancelled (now : Time) (record : list Label) : Oracle :=
  mkOracle (fun _ => Some (errors_New "context canceled")) (fun _ => now)
           (fun _ _ => None) (fun _ _ => None)
           (fun _ _ => None) (fun _ _ => None) (fun _ _ _ => Ok record)
           (fun _ _ => None) (fun _ _ => None).

Definition world0 (store : gmap string bytes) : World := mkWorld store [] 0.

(** The stored encoding of a metadata value. *)
Definition meta (timestamp lastSeen : Time) : bytes :=
  match json_Marshal_meta (mkLabelMetadata timestamp lastSeen) with
  | Ok b => b
  | Err _ => []
  end.

(** The wire encoding of an announcement. *)
Definition wire (a : LabelAnnouncement) : bytes :=
  match json_Marshal_ann a with
  | Ok data => data
  | Err _ => []
  end.

(** Node [12D3L] is the local node. Its store caches record [bafy1] of peer
    [12D3A] under two labels and record [bafy2] of peer [12D3B] under one, and
    holds an entry of its own for [bafy3]. *)
Definition local : peer_ID := "12D3L".

Definition node : routing.routeRemote := routing.mkRouteRemote local None.

Definition store1 : gmap string bytes :=
  <["/skills/AI/ML/bafy1/12D3A" := meta 5 7]>
    (<["/domains/research/bafy1/12D3A" := meta 5 7]>
       (<["/skills/AI/bafy2/12D3B" := meta 6 8]>
          (<["/skills/AI/bafy3/12D3L" := meta 1 1]> ∅))).

Definition ann1 : LabelAnnouncement :=
  mkLabelAnnouncement "bafy1" "12D3A" ["/skills/AI/ML"; "/domains/research"] 1700.

(** A notification that peer [12D3A] provides [cid], without addresses. *)
Definition notification (cid : string) : routing.handlerSync :=
  routing.mkHandlerSync (mkRecordRef cid) (routing.mkAddrInfo "12D3A" []).

Definition request1 : SearchRequest :=
  mkSearchRequest [mkRecordQuery 1 "AI"; mkRecordQuery 3 "research"; mkRecordQuery 1 "AI"]
                  0 0.

(** An address of the directory node of peer [12D3A], and its stored
    encoding. *)
Definition addrs1 : list string := ["/ip4/10.0.0.1/tcp/8999/dir/dir-a.example:8888"].

Definition encoded_addrs1 : bytes :=
  match json_Marshal_addrs addrs1 with
  | Ok encoded => encoded
  | Err _ => []
  end.

(** An announcement received from another peer, whose declared peer_id is
    not the local one, and whose cache key the datastore cleans into a key
    of the local node. *)
Definition forged : LabelAnnouncement :=
  mkLabelAnnouncement "bafy3" "12D3L/." ["/skills/AI"] 1700.

End sample.

(** ** A model of encoding/json at [LabelAnnouncement]

    What [json.Marshal] writes for a [LabelAnnouncement] and what
    [json.Unmarshal] reads back from it, following the Go standard library
    (encoding/json, unicode/utf8, unicode/utf16 and the JSON methods of
    [time.Time], as of Go 1.22), which is not part of the source files. A Go
    string is a sequence of bytes, not necessarily valid UTF-8; characters
    are handled by their code. The encoder is the one of the library: fields
    in the order of the declaration, under their [json] tags, strings escaped
    as [json.Marshal] escapes them, a slice with its elements between
    brackets, the instant printed in RFC 3339 with nanoseconds. The embedding
    keeps of a [time.Time] only the instant, which is printed in UTC. The
    decoder reads the layout the encoder writes, in which it does what the
    library does; the library accepts more (white space, fields in another
    order or in another case, unknown or missing fields, [null], instants
    that only [time.Parse] reads), which this model rejects. *)

Module gojson.

Definition code (b : ascii) : Z := Z.of_N (Ascii.N_of_ascii b).

Definition char (n : Z) : ascii := Ascii.ascii_of_N (Z.to_N n).

(** The string of the characters of the given codes. *)
Definition text (codes : list Z) : string :=
  fold_right (fun n s => String (char n) s) EmptyString codes.

Definition between (lo hi : Z) (b : ascii) : bool :=
  (lo <=? code b) && (code b <=? hi).

Definition quote : ascii := char 34.

(** [s[n:]] and [s[:n]] *)
Fixpoint skip (n : nat) (s : string) : string :=
  match n, s with
  | S n, String _ rest => skip n rest
  | _, _ => s
  end.

Fixpoint keep (n : nat) (s : string) : string :=
  match n, s with
  | S n, String b rest => String b (keep n rest)
  | _, _ => EmptyString
  end.

(** *** unicode/utf8 *)

Definition RuneError : Z := 65533.

(** [utf8.DecodeRuneInString(s)]: the rune at the start of [s] and the number
    of bytes of its encoding; [(RuneError, 1)] when the bytes are not a valid
    encoding, [(RuneError, 0)] when [s] is empty. The masks of the library
    are written as subtractions, the bytes being in the ranges tested. *)
Definition DecodeRune (s : string) : Z * nat :=
  match s with
  | EmptyString => (RuneError, 0%nat)
  | String s0 rest =>
      if code s0 <? 128 then (code s0, 1%nat)
      else if between 194 223 s0 then
        match rest with
        | String s1 _ =>
            if between 128 191 s1
            then ((code s0 - 192) * 64 + (code s1 - 128), 2%nat)
            else (RuneError, 1%nat)
        | EmptyString => (RuneError, 1%nat)
        end
      else if between 224 239 s0 then
        match rest with
        | String s1 (String s2 _) =>
            if between (if code s0 =? 224 then 160 else 128)
                       (if code s0 =? 237 then 159 else 191) s1
               && between 128 191 s2
            then ((code s0 - 224) * 4096 + (code s1 - 128) * 64 + (code s2 - 128), 3%nat)
            else (RuneError, 1%nat)
        | _ => (RuneError, 1%nat)
        end
      else if between 240 244 s0 then
        match rest with
        | String s1 (String s2 (String s3 _)) =>
            if between (if code s0 =? 240 then 144 else 128)
                       (if code s0 =? 244 then 143 else 191) s1
               && between 128 191 s2 && between 128 191 s3
            then ((code s0 - 240) * 262144 + (code s1 - 128) * 4096
                  + (code s2 - 128) * 64 + (code s3 - 128), 4%nat)
            else (RuneError, 1%nat)
        | _ => (RuneError, 1%nat)
        end
      else (RuneError, 1%nat)
  end.

(** [utf8.AppendRune(nil, r)] *)
Definition EncodeRune (r : Z) : string :=
  if (0 <=? r) && (r <=? 127) then text [r]
  else if (128 <=? r) && (r <=? 2047) then text [192 + r / 64; 128 + r mod 64]
  else if (r <? 0) || (1114111 <? r) || ((55296 <=? r) && (r <=? 57343))
       then text [239; 191; 189]
  else if r <=? 65535
       then text [224 + r / 4096; 128 + (r / 64) mod 64; 128 + r mod 64]
  else text [240 + r / 262144; 128 + (r / 4096) mod 64; 128 + (r / 64) mod 64;
             128 + r mod 64].

(** [utf8.ValidString(s)] *)
Fixpoint ValidString_loop (fuel : nat) (s : string) : bool :=
  match s with
  | EmptyString => true
  | String _ _ =>
      match fuel with
      | O => false
      | S fuel =>
          let '(r, size) := DecodeRune s in
          if (r =? RuneError) && bool_decide (size = 1%nat) then false
          else ValidString_loop fuel (skip size s)
      end
  end.

Definition ValidString (s : string) : bool := ValidString_loop (String.length s) s.

(** *** Strings *)

Definition hex : string := "0123456789abcdef".

Definition hex_digit (n : Z) : ascii :=
  match String.get (Z.to_nat n) hex with
  | Some c => c
  | None => "0"%char
  end.

(** [htmlSafeSet[b]] for an ASCII byte. *)
Definition htmlSafe (b : ascii) : bool :=
  (32 <=? code b) && negb (bool_decide (code b ∈ [34; 38; 60; 62; 92])).

(** The escape [appendString] writes for an ASCII byte that is not safe. *)
Definition escape (b : ascii) : string :=
  if (code b =? 92) || (code b =? 34) then String (char 92) (String b EmptyString)
  else if code b =? 8 then "\b"
  else if code b =? 12 then "\f"
  else if code b =? 10 then "\n"
  else if code b =? 13 then "\r"
  else if code b =? 9 then "\t"
  else "\u00" +:+ String (hex_digit (code b / 16)) (String (hex_digit (code b mod 16))
                                                           EmptyString).

(** The loop of [appendString(dst, s, escapeHTML = true)], between the
    quotes. [fuel] bounds the number of iterations. *)
Fixpoint appendString_loop (fuel : nat) (s : string) : string :=
  match fuel, s with
  | S fuel, String b rest =>
      if code b <? 128 then
        (if htmlSafe b then String b EmptyString else escape b)
          +:+ appendString_loop fuel rest
      else
        let '(c, size) := DecodeRune s in
        if (c =? RuneError) && bool_decide (size = 1%nat)
        then "\ufffd" +:+ appendString_loop fuel (skip size s)
        else if (c =? 8232) || (c =? 8233)
        then "\u202" +:+ String (hex_digit (c mod 16)) EmptyString
               +:+ appendString_loop fuel (skip size s)
        else keep size s +:+ appendString_loop fuel (skip size s)
  | _, _ => EmptyString
  end.

Definition appendString (s : string) : string :=
  String quote (appendString_loop (String.length s) s +:+ String quote EmptyString).

(** The value of a hexadecimal digit. *)
Definition unhex (c : ascii) : option Z :=
  if between 48 57 c then Some (code c - 48)
  else if between 97 102 c then Some (code c - 97 + 10)
  else if between 65 70 c then Some (code c - 65 + 10)
  else None.

(** [getu4(s)]: the rune of the escape [\uXXXX] at the start of [s], with
    what follows it. *)
Definition getu4 (s : string) : option (Z * string) :=
  match s with
  | String b (String u (String h3 (String h2 (String h1 (String h0 rest))))) =>
      if (code b =? 92) && (code u =? 117) then
        d3 ← unhex h3; d2 ← unhex h2; d1 ← unhex h1; d0 ← unhex h0;
        Some (d3 * 4096 + d2 * 256 + d1 * 16 + d0, rest)
      else None
  | _ => None
  end.

Definition IsSurrogate (r : Z) : bool := (55296 <=? r) && (r <? 57344).

(** [utf16.DecodeRune(r1, r2)] *)
Definition utf16_DecodeRune (r1 r2 : Z) : Z :=
  if (55296 <=? r1) && (r1 <? 56320) && (56320 <=? r2) && (r2 <? 57344)
  then (r1 - 55296) * 1024 + (r2 - 56320) + 65536
  else RuneError.

(** A string literal is read from after its opening quote: the scanner
    finds its end and rejects control characters and unknown escapes, and
    [unquote] decodes it. The result is the decoded string and what follows
    the closing quote. *)
Fixpoint unquote_loop (fuel : nat) (s : string) : option (string * string) :=
  match fuel with
  | O => None
  | S fuel =>
      match s with
      | EmptyString => None
      | String c rest =>
          if code c =? 34 then Some (EmptyString, rest)
          else if code c =? 92 then
            match rest with
            | EmptyString => None
            | String e rest' =>
                let simple (b : Z) :=
                  '(t, after) ← unquote_loop fuel rest'; Some (String (char b) t, after) in
                if bool_decide (code e ∈ [34; 92; 47]) then simple (code e)
                else if code e =? 98 then simple 8
                else if code e =? 102 then simple 12
                else if code e =? 110 then simple 10
                else if code e =? 114 then simple 13
                else if code e =? 116 then simple 9
                else if code e =? 117 then
                  '(rr, after_u) ← getu4 s;
                  if IsSurrogate rr then
                    match getu4 after_u with
                    | Some (rr1, after_pair) =>
                        if utf16_DecodeRune rr rr1 =? RuneError then
                          '(t, after) ← unquote_loop fuel after_u;
                          Some (EncodeRune RuneError +:+ t, after)
                        else
                          '(t, after) ← unquote_loop fuel after_pair;
                          Some (EncodeRune (utf16_DecodeRune rr rr1) +:+ t, after)
                    | None =>
                        '(t, after) ← unquote_loop fuel after_u;
                        Some (EncodeRune RuneError +:+ t, after)
                    end
                  else
                    '(t, after) ← unquote_loop fuel after_u;
                    Some (EncodeRune rr +:+ t, after)
                else None
            end
          else if code c <? 32 then None
          else if code c <? 128 then
            '(t, after) ← unquote_loop fuel rest; Some (String c t, after)
          else
            let '(rr, size) := DecodeRune s in
            '(t, after) ← unquote_loop fuel (skip size s);
            Some (EncodeRune rr +:+ t, after)
      end
  end.

Definition unquote (s : string) : option (string * string) :=
  unquote_loop (String.length s) s.

(** *** Instants *)

(** The number of days from January 1 of year 1 to January 1 of year [y]. *)
Definition daysBefore_year (y : Z) : Z :=
  365 * (y - 1) + (y - 1) / 4 - (y - 1) / 100 + (y - 1) / 400.

Definition isLeap (y : Z) : bool :=
  (y mod 4 =? 0) && (negb (y mod 100 =? 0) || (y mod 400 =? 0)).

(** The lengths of the months of a year. *)
Definition month_lengths (leap : bool) : list Z :=
  [31; if leap then 29 else 28; 31; 30; 31; 30; 31; 31; 30; 31; 30; 31].

(** The year of the day [d], counted from January 1 of year 1: the first
    year from [y] on, among [fuel] years, whose successor starts after [d]. *)
Fixpoint year_from (fuel : nat) (y d : Z) : Z :=
  match fuel with
  | O => y
  | S fuel => if d <? daysBefore_year (y + 1) then y else year_from fuel (y + 1) d
  end.

(** The month of the day [d] of a year, counted from 0, with months of the
    given lengths counted from [m]; and the day of the month, from 0. *)
Fixpoint month_from (lengths : list Z) (m d : Z) : Z * Z :=
  match lengths with
  | [] => (m, d)
  | len :: rest => if d <? len then (m, d) else month_from rest (m + 1) (d - len)
  end.

Definition daysBefore_month (leap : bool) (m : Z) : Z :=
  foldr Z.add 0 (firstn (Z.to_nat (m - 1)) (month_lengths leap)).

Definition daysIn (m y : Z) : Z :=
  nth (Z.to_nat (m - 1)) (month_lengths (isLeap y)) 0.

(** [time.Date(year, month, day, hour, min, sec, nsec, time.UTC)] for fields
    in their ranges. *)
Definition Date (year month day hour min sec nsec : Z) : Time :=
  (((daysBefore_year year + daysBefore_month (isLeap year) month + (day - 1)) * 86400
    + hour * 3600 + min * 60 + sec) * 1000000000 + nsec).

(** The decimal digits of [n], on [width] characters. *)
Fixpoint digits (width : nat) (n : Z) : string :=
  match width with
  | O => EmptyString
  | S width => digits width (n / 10) +:+ String (char (48 + n mod 10)) EmptyString
  end.

(** The digits of a fraction of a second without the zeros at the end. *)
Fixpoint trim_zeros (fuel : nat) (n : Z) (width : nat) : string :=
  match fuel with
  | O => digits width n
  | S fuel =>
      if (n mod 10 =? 0) && bool_decide (width ≠ O)
      then trim_zeros fuel (n / 10) (pred width)
      else digits width n
  end.

(** [t.MarshalJSON()] without the quotes: the instant in the format
    [2006-01-02T15:04:05.999999999Z07:00], in UTC; an error for a year
    outside [0, 9999]. *)
Definition formatRFC3339 (t : Time) : result string :=
  let nsec := t mod 1000000000 in
  let secs := t / 1000000000 in
  let day := secs / 86400 in
  let sod := secs mod 86400 in
  if (day <? daysBefore_year 0) || (daysBefore_year 10000 <=? day)
  then Err (fmt_Errorf "json: error calling MarshalJSON for type time.Time"
              (errors_New "Time.MarshalJSON: year outside of range [0,9999]"))
  else
    let year := year_from (Z.to_nat 10000) 0 day in
    let '(month, dom) := month_from (month_lengths (isLeap year)) 1
                                    (day - daysBefore_year year) in
    Ok (digits 4 year +:+ "-" +:+ digits 2 month +:+ "-" +:+ digits 2 (dom + 1) +:+ "T"
          +:+ digits 2 (sod / 3600) +:+ ":" +:+ digits 2 (sod mod 3600 / 60) +:+ ":"
          +:+ digits 2 (sod mod 60)
          +:+ (if nsec =? 0 then EmptyString else "." +:+ trim_zeros 9 nsec 9)
          +:+ "Z").

Definition isDigit (c : ascii) : bool := between 48 57 c.

(** The closure [parseUint] of [parseRFC3339]: the number written by [s],
    all digits, when it is between [min] and [max]. *)
Definition parseUint (s : string) (min max : Z) : option Z :=
  if forallb isDigit (String.list_ascii_of_string s) then
    let x := fold_left (fun x c => x * 10 + (code c - 48)) (String.list_ascii_of_string s) 0 in
    if (x <? min) || (max <? x) then None else Some x
  else None.

(** The digits at the start of [s], and what follows them. *)
Fixpoint span_digits (s : string) : string * string :=
  match s with
  | String c rest =>
      if isDigit c then let '(ds, after) := span_digits rest in (String c ds, after)
      else (EmptyString, s)
  | EmptyString => (EmptyString, EmptyString)
  end.

(** [parseNanoseconds] on the digits that follow the period: the first nine
    count, the missing ones are zeros. *)
Definition parseNanoseconds (ds : string) : Z :=
  let ds := keep 9 ds in
  fold_left (fun x c => x * 10 + (code c - 48)) (String.list_ascii_of_string ds) 0
  * 10 ^ Z.of_nat (9 - String.length ds).

(** [parseRFC3339(s, time.UTC)], as [parseStrictRFC3339] uses it. *)
Definition parseRFC3339 (s : string) : option Time :=
  if (String.length s <? 19)%nat then None
  else
    year ← parseUint (keep 4 s) 0 9999;
    month ← parseUint (keep 2 (skip 5 s)) 1 12;
    day ← parseUint (keep 2 (skip 8 s)) 1 (daysIn month year);
    hour ← parseUint (keep 2 (skip 11 s)) 0 23;
    min ← parseUint (keep 2 (skip 14 s)) 0 59;
    sec ← parseUint (keep 2 (skip 17 s)) 0 59;
    if bool_decide (keep 1 (skip 4 s) = "-" ∧ keep 1 (skip 7 s) = "-"
                    ∧ keep 1 (skip 10 s) = "T" ∧ keep 1 (skip 13 s) = ":"
                    ∧ keep 1 (skip 16 s) = ":") then
      let s := skip 19 s in
      let '(nsec, s) :=
        match s with
        | String p (String d _) =>
            if (code p =? 46) && isDigit d
            then let '(ds, after) := span_digits (skip 1 s) in (parseNanoseconds ds, after)
            else (0, s)
        | _ => (0, s)
        end in
      let t := Date year month day hour min sec nsec in
      if bool_decide (s = "Z") then Some t
      else if bool_decide (String.length s = 6%nat) then
        hr ← parseUint (keep 2 (skip 1 s)) 0 23;
        mm ← parseUint (keep 2 (skip 4 s)) 0 59;
        if bool_decide ((keep 1 s = "-" ∨ keep 1 s = "+") ∧ keep 1 (skip 3 s) = ":") then
          let zoneOffset := (hr * 60 + mm) * 60 in
          let zoneOffset := if bool_decide (keep 1 s = "-") then - zoneOffset else zoneOffset in
          Some (t - zoneOffset * 1000000000)
        else None
      else None
    else None.

(** No character of [s] is a quote. *)
Definition unquoted (s : string) : bool :=
  forallb (fun c => negb (code c =? 34)) (String.list_ascii_of_string s).

(** What is before the first quote of [s], and what follows that quote. *)
Fixpoint until_quote (s : string) : option (string * string) :=
  match s with
  | EmptyString => None
  | String c rest =>
      if code c =? 34 then Some (EmptyString, rest)
      else '(t, after) ← until_quote rest; Some (String c t, after)
  end.

(** *** The announcement *)

(** A string starts with a given text: what follows it. *)
Fixpoint expect (prefix s : string) : option string :=
  match prefix, s with
  | EmptyString, _ => Some s
  | String a prefix, String b s => if Ascii.eqb a b then expect prefix s else None
  | String _ _, EmptyString => None
  end.

Definition key (name : string) : string :=
  String quote (name +:+ String quote EmptyString) +:+ ":".

(** The elements of an array of strings, separated by commas. *)
Fixpoint appendStrings (labels : list string) : string :=
  match labels with
  | [] => EmptyString
  | [label] => appendString label
  | label :: rest => appendString label +:+ "," +:+ appendStrings rest
  end.

(** [json.Marshal(a)] as a string. *)
Definition encode (a : LabelAnnouncement) : result string :=
  match formatRFC3339 (ann_Timestamp a) with
  | Err e => Err e
  | Ok stamp =>
      Ok ("{" +:+ key "cid" +:+ appendString (ann_CID a)
              +:+ "," +:+ key "peer_id" +:+ appendString (ann_PeerID a)
              +:+ "," +:+ key "labels" +:+ "[" +:+ appendStrings (ann_Labels a) +:+ "]"
              +:+ "," +:+ key "timestamp"
              +:+ String quote (stamp +:+ String quote EmptyString)
              +:+ "}")
  end.

(** The elements of an array of strings, read after its opening bracket,
    and what follows its closing bracket. *)
Fixpoint read_elements (fuel : nat) (s : string) : option (list string * string) :=
  match fuel with
  | O => None
  | S fuel =>
      s ← expect (String quote EmptyString) s;
      '(x, s) ← unquote s;
      match expect "," s with
      | Some s => '(xs, s) ← read_elements fuel s; Some (x :: xs, s)
      | None => s ← expect "]" s; Some ([x], s)
      end
  end.

Definition read_array (s : string) : option (list string * string) :=
  match expect "]" s with
  | Some s => Some ([], s)
  | None => read_elements (String.length s) s
  end.

(** [json.Unmarshal(data, &ann)] on a string in the layout of [encode]. *)
Definition decode (s : string) : option LabelAnnouncement :=
  s ← expect ("{" +:+ key "cid" +:+ String quote EmptyString) s;
  '(cid, s) ← unquote s;
  s ← expect ("," +:+ key "peer_id" +:+ String quote EmptyString) s;
  '(peerID, s) ← unquote s;
  s ← expect ("," +:+ key "labels" +:+ "[") s;
  '(labels, s) ← read_array s;
  s ← expect ("," +:+ key "timestamp" +:+ String quote EmptyString) s;
  '(stamp, s) ← until_quote s;
  timestamp ← parseRFC3339 stamp;
  if bool_decide (s = "}") then Some (mkLabelAnnouncement cid peerID labels timestamp)
  else None.

(** [json.Marshal(a)] *)
Definition json_Marshal (a : LabelAnnouncement) : result bytes :=
  match encode a with
  | Ok s => Ok (String.list_byte_of_string s)
  | Err e => Err e
  end.

(** [json.Unmarshal(data, &ann)] *)
Definition json_Unmarshal (data : bytes) : result LabelAnnouncement :=
  match decode (String.string_of_list_byte data) with
  | Some a => Ok a
  | None => Err (errors_New "json: cannot unmarshal into Go value of type LabelAnnouncement")
  end.

(** The development with encoding/json as modelled here at
    [LabelAnnouncement], everything else as in [E]. *)
Definition externals (E : Externals) : Externals := {|
  corev1_Record := @corev1_Record E;
  cid_Cid := @cid_Cid E;
  ma_Multiaddr := @ma_Multiaddr E;
  MaxMessageSize := @MaxMessageSize E;
  MaxLabelsPerAnnouncement := @MaxLabelsPerAnnouncement E;
  json_Marshal_ann := json_Marshal;
  json_Unmarshal_ann := json_Unmarshal;
  json_Marshal_meta := @json_Marshal_meta E;
  json_Unmarshal_meta := @json_Unmarshal_meta E;
  json_Marshal_addrs := @json_Marshal_addrs E;
  json_Unmarshal_addrs := @json_Unmarshal_addrs E;
  cid_Decode := @cid_Decode E;
  datastore_NewKey := @datastore_NewKey E;
  ma_Protocols := @ma_Protocols E;
  ma_ValueForProtocol := @ma_ValueForProtocol E;
  ma_String := @ma_String E;
  p2p_DirProtocolCode := @p2p_DirProtocolCode E;
  BuildEnhancedLabelKey := @BuildEnhancedLabelKey E;
  ParseEnhancedLabelKey := @ParseEnhancedLabelKey E;
  GetLabelsFromRecord := @GetLabelsFromRecord E;
  QueryMatchesLabels := @QueryMatchesLabels E;
  deduplicateQueries := @deduplicateQueries E
|}.

(** The strings of an announcement are valid UTF-8. *)
Definition utf8_strings (a : LabelAnnouncement) : Prop :=
  ValidString (ann_CID a) = true ∧
  ValidString (ann_PeerID a) = true ∧
  Forall (fun label => ValidString label = true) (ann_Labels a).

(** *** Sample announcements *)

(** The announcement of the source's example, one label of which has
    characters that [json.Marshal] escapes. *)
Definition sample_ann : LabelAnnouncement :=
  mkLabelAnnouncement "bafy1" "12D3A" ["/skills/AI/ML"; "/domains/<research> & co"]
                      (Date 2025 10 1 10 0 0 0).

Definition sample_data : bytes :=
  match json_Marshal sample_ann with
  | Ok data => data
  | Err _ => []
  end.

(** An announcement with a label whose last byte, 0xFF, is not UTF-8. *)
Definition raw_ann : LabelAnnouncement :=
  mkLabelAnnouncement "bafy1" "12D3A" ["/skills/" +:+ text [255]] (Date 2025 10 1 10 0 0 0).

End gojson.

(** ** Notions used to state the properties *)

Section Notions.
Context `{ext : Externals}.

(** The specification's well-formedness of an announcement, size apart:
    "cid ≠ empty, peer_id ≠ empty, 1 ≤ |labels| ≤ MaxLabelsPerAnnouncement,
    timestamp ≠ zero". *)
Definition spec_well_formed (a : LabelAnnouncement) : Prop :=
  ann_CID a ≠ EmptyString ∧
  ann_PeerID a ≠ EmptyString ∧
  1 ≤ Z.of_nat (length (ann_Labels a)) ≤ MaxLabelsPerAnnouncement ∧
  ann_Timestamp a ≠ 0.

(** encoding/json decodes what it encoded for [a] back into [a]. *)
Definition json_roundtrips (a : LabelAnnouncement) : Prop :=
  ∀ data, json_Marshal_ann a = Ok data → json_Unmarshal_ann data = Ok a.

(** The world in which [Publish], called in [w], reaches the gossip step of
    [publishToNetwork]: the call has been logged and the DHT has been asked to
    provide [c]. *)
Definition after_provide (w : World) (c : cid_Cid) : World :=
  mkWorld (w_store w)
          ((w_trace w ++ [EvLog routing.remoteLogger LvlDebug "Publishing record to network"])
             ++ [EvProvide c])
          (S (w_tick w)).

(** Two worlds that differ at most in the trace of past events. *)
Definition same_state (w w' : World) : Prop :=
  w_store w = w_store w' ∧ w_tick w = w_tick w'.

(** A computation that never looks at the trace: from worlds in the same
    state it returns the same result and ends in the same state. *)
Definition blind {A} (m : M A) : Prop :=
  ∀ w w', same_state w w' →
    fst (m w) = fst (m w') ∧ same_state (snd (m w)) (snd (m w')).

(** The CID a search response is about. *)
Definition resp_cid (resp : SearchResponse) : string :=
  ref_Cid (resp_RecordRef resp).

(** A response of a search for [queries] with threshold [minMatchScore] run
    by the peer [localPeerID] is as it should be: it names another peer, and
    its score reaches the threshold and counts its matching queries, which
    are no more than the queries. *)
Definition good_response (localPeerID : string) (queries : list RecordQuery)
    (minMatchScore : Z) (resp : SearchResponse) : Prop :=
  peer_Id (resp_Peer resp) ≠ localPeerID ∧
  minMatchScore ≤ resp_MatchScore resp ∧
  resp_MatchScore resp = safeIntToUint32 (Z.of_nat (length (resp_MatchQueries resp))) ∧
  (length (resp_MatchQueries resp) ≤ length queries)%nat.

(** What holds of the state of the search loop at every iteration: the
    responses sent so far are about distinct CIDs, all of them marked as
    processed, and each of them is as it should be. *)
Definition search_inv (localPeerID : string) (queries : list RecordQuery)
    (minMatchScore : Z) (st : routing.SearchState) : Prop :=
  NoDup (map resp_cid (routing.outCh st)) ∧
  (∀ resp, resp ∈ routing.outCh st → resp_cid resp ∈ routing.processedCIDs st) ∧
  (∀ resp, resp ∈ routing.outCh st →
     good_response localPeerID queries minMatchScore resp).

(** The world [w] with its past events replaced by [t]. *)
Definition with_trace (t : list Event) (w : World) : World :=
  mkWorld (w_store w) t (w_tick w).

(** A computation that treats the trace as a log: whatever the past events,
    it returns the same result, ends in the same state, and appends the same
    events. *)
Definition framed {A} (m : M A) : Prop :=
  ∀ w, ∃ evs, ∀ t,
    fst (m (with_trace t w)) = fst (m w) ∧
    same_state (snd (m (with_trace t w))) (snd (m w)) ∧
    w_trace (snd (m (with_trace t w))) = t ++ evs.

(** A computation whose events all satisfy [P]: it extends the trace, and
    only by such events. *)
Definition emits (P : Event → Prop) {A} (m : M A) : Prop :=
  ∀ w, ∃ evs, w_trace (snd (m w)) = w_trace w ++ evs ∧ Forall P evs.

Definition is_Pull (e : Event) : Prop :=
  match e with EvPull _ _ => True | _ => False end.

(** An event the announcement callback of the host [localPeerID] may leave
    for the announcement [ann]: a log line, or the write of one of its labels
    under the enhanced key built for its CID and its peer, which is not the
    host. *)
Definition announcement_event (localPeerID : string) (ann : LabelAnnouncement)
    (e : Event) : Prop :=
  match e with
  | EvLog _ _ _ => True
  | EvPut key _ =>
      ann_PeerID ann ≠ localPeerID ∧
      ∃ label,
        label ∈ ann_Labels ann ∧
        key = datastore_NewKey (BuildEnhancedLabelKey label (ann_CID ann) (ann_PeerID ann))
  | _ => False
  end.

(** An event the subscription handler of the host may leave for the
    deliveries it is given: a log line, or an event of the callback for the
    announcement decoded from a message that was not received from the host
    itself. *)
Definition gossip_event (host : peer_ID) (deliveries : list (result Message))
    (e : Event) : Prop :=
  (∃ lg lvl msg, e = EvLog lg lvl msg) ∨
  (∃ msg ann,
      Ok msg ∈ deliveries ∧
      msg_ReceivedFrom msg ≠ host ∧
      pubsub.UnmarshalLabelAnnouncement (msg_Data msg) = Ok ann ∧
      announcement_event (ID_String host) ann e).

(** The collaborators a namespace scan relies on do not fail: the context is
    live, queries succeed, and no result carries an error. *)
Definition scan_healthy (O : Oracle) : Prop :=
  (∀ n, o_ctx_err O n = None) ∧
  (∀ n prefix, o_query_err O n prefix = None) ∧
  (∀ n key, o_result_err O n key = None).

(** The datastore takes every write. *)
Definition put_healthy (O : Oracle) : Prop :=
  ∀ n key, o_put_err O n key = None.

(** The keys held by the datastore are in the form [datastore.NewKey] gives. *)
Definition keys_clean (store : gmap string bytes) : Prop :=
  ∀ key value, store !! key = Some value → datastore_NewKey key = key.

(** The entries of the store under the label namespaces, in the order
    [QueryAllNamespaces] lists them when nothing fails. *)
Definition scan (store : gmap string bytes) : list NamespaceEntry :=
  flat_map
    (fun namespace =>
       map (fun kv : string * bytes => mkNamespaceEntry namespace (fst kv) (snd kv))
           (filter (fun kv : string * bytes => String.prefix namespace (fst kv) = true)
                   (map_to_list store)))
    routing.namespaces.

(** [e] is an entry of the store under one of the label namespaces. *)
Definition entry_of (store : gmap string bytes) (e : NamespaceEntry) : Prop :=
  ne_Namespace e ∈ routing.namespaces ∧
  String.prefix (ne_Namespace e) (ne_Key e) = true ∧
  store !! ne_Key e = Some (ne_Value e).

(** The test both [hasRemoteRecordCached] and [updateRemoteRecordLastSeen]
    apply to a key: it parses, and its CID and PeerID are the given ones. *)
Definition key_matches (cid peerID : string) (key : string) : bool :=
  match ParseEnhancedLabelKey key with
  | Err _ => false
  | Ok (_, keyCID, keyPeerID) =>
      bool_decide (keyCID = cid) && bool_decide (keyPeerID = peerID)
  end.

(** The store holds [value] under the enhanced key [key], a key of a label
    namespace whose (cid, peer) is the given pair. *)
Definition cached_entry (store : gmap string bytes) (cid peerID : string)
    (key : string) (value : bytes) : Prop :=
  store !! key = Some value ∧
  (∃ namespace, namespace ∈ routing.namespaces ∧ String.prefix namespace key = true) ∧
  (∃ label, ParseEnhancedLabelKey key = Ok (label, cid, peerID)).

(** What one iteration of [updateRemoteRecordLastSeen] does to the store when
    the datastore takes the write: the value of a matching entry that decodes
    is replaced by the encoding of its metadata with [last_seen] set to [now]. *)
Definition refresh (cid peerID : string) (now : Time) (store : gmap string bytes)
    (e : NamespaceEntry) : gmap string bytes :=
  if key_matches cid peerID (ne_Key e) then
    match json_Unmarshal_meta (ne_Value e) with
    | Ok m =>
        match json_Marshal_meta (mkLabelMetadata (md_Timestamp m) now) with
        | Ok b => <[datastore_NewKey (ne_Key e) := b]> store
        | Err _ => store
        end
    | Err _ => store
    end
  else store.

End Notions.

(** ** Further notions *)

Section FurtherNotions.
Context `{ext : Externals}.

Definition is_Log (e : Event) : Prop :=
  match e with EvLog _ _ _ => True | _ => False end.

(** A computation that leaves the datastore as it was. *)
Definition keeps_store {A} (m : M A) : Prop :=
  ∀ w, w_store (snd (m w)) = w_store w.

(** The labels under which the store caches the record [cid] of the peer
    [peerID], in the order of the namespace scan. *)
Definition cached_labels (store : gmap string bytes) (cid peerID : string) : list Label :=
  omap (fun entry : NamespaceEntry =>
          match ParseEnhancedLabelKey (ne_Key entry) with
          | Err _ => None
          | Ok (label, keyCID, keyPeerID) =>
              if bool_decide (keyCID = cid) && bool_decide (keyPeerID = peerID)
              then Some label else None
          end) (scan store).

(** The queries among [queries] that the labels cached for the pair match. *)
Definition cached_matches (store : gmap string bytes) (queries : list RecordQuery)
    (cid peerID : string) : list RecordQuery :=
  filter (fun query : RecordQuery =>
            QueryMatchesLabels query (cached_labels store cid peerID) = true) queries.

(** What the search loop keeps true of its counter: it counts the responses
    sent, and stays within a positive limit. *)
Definition within_limit (limitInt : Z) (st : routing.SearchState) : Prop :=
  routing.processedCount st = Z.of_nat (length (routing.outCh st)) ∧
  (0 < limitInt → routing.processedCount st ≤ limitInt).

(** The directory API address [getDirectoryAPIAddress] extracts from decoded
    addresses: the value of the [dir] protocol of the first address that
    carries the protocol and yields its value, the empty string when there is
    none. *)
Fixpoint first_dir_value (multiaddrs : list ma_Multiaddr) : string :=
  match multiaddrs with
  | [] => EmptyString
  | addr :: rest =>
      if bool_decide (p2p_DirProtocolCode ∈ ma_Protocols addr) then
        match ma_ValueForProtocol addr p2p_DirProtocolCode with
        | Ok value => value
        | Err _ => first_dir_value rest
        end
      else first_dir_value rest
  end.

(** A log line or a write to the datastore. *)
Definition is_Write (e : Event) : Prop :=
  match e with EvLog _ _ _ | EvPut _ _ => True | _ => False end.

(** A computation that removes no key from the datastore. *)
Definition keeps_keys {A} (m : M A) : Prop :=
  ∀ w k, is_Some (w_store w !! k) → is_Some (w_store (snd (m w)) !! k).

(** The key of the datastore under which the label is cached for the pair
    is an enhanced key of a label namespace that parses back to the pair. *)
Definition cache_key_ok (label : Label) (cid peerID : string) : Prop :=
  let key := datastore_NewKey (BuildEnhancedLabelKey label cid peerID) in
  (∃ namespace, namespace ∈ routing.namespaces ∧ String.prefix namespace key = true) ∧
  (∃ label', ParseEnhancedLabelKey key = Ok (label', cid, peerID)).

End FurtherNotions.

(** * Properties *)

Section WireFormat.
Context `{ext : Externals}.

Lemma string_is_empty_false (s : string) :
  string_is_empty s = false ↔ s ≠ EmptyString.
Proof. destruct s; simpl; split; congruence. Qed.

Lemma Time_IsZero_false (t : Time) : Time_IsZero t = false ↔ t ≠ 0.
Proof. unfold Time_IsZero. rewrite Z.eqb_neq. tauto. Qed.

(** [Validate] accepts exactly the well-formed announcements. *)
Lemma Validate_None_iff (a : LabelAnnouncement) :
  pubsub.Validate a = None ↔ spec_well_formed a.
Proof.
  unfold pubsub.Validate, spec_well_formed.
  destruct (string_is_empty (ann_CID a)) eqn:Hc.
  { split; [discriminate|]. intros (H & _). apply string_is_empty_false in H. congruence. }
  destruct (string_is_empty (ann_PeerID a)) eqn:Hp.
  { split; [discriminate|]. intros (_ & H & _). apply string_is_empty_false in H. congruence. }
  apply string_is_empty_false in Hc, Hp.
  destruct (Z.eqb_spec (Z.of_nat (length (ann_Labels a))) 0) as [H0|H0].
  { split; [discriminate|]. intros (_ & _ & H & _). lia. }
  destruct (Z.gtb_spec (Z.of_nat (length (ann_Labels a))) MaxLabelsPerAnnouncement) as [Hm|Hm].
  { split; [discriminate|]. intros (_ & _ & H & _). lia. }
  destruct (Time_IsZero (ann_Timestamp a)) eqn:Ht.
  { split; [discriminate|]. intros (_ & _ & _ & H). apply Time_IsZero_false in H. congruence. }
  apply Time_IsZero_false in Ht.
  split; [intros _|reflexivity]. repeat split; try assumption; lia.
Qed.

Lemma UnmarshalLabelAnnouncement_Ok_iff (data : bytes) (ann : LabelAnnouncement) :
  pubsub.UnmarshalLabelAnnouncement data = Ok ann ↔
  Z.of_nat (length data) ≤ MaxMessageSize ∧
  json_Unmarshal_ann data = Ok ann ∧
  spec_well_formed ann.
Proof.
  unfold pubsub.UnmarshalLabelAnnouncement.
  destruct (Z.gtb_spec (Z.of_nat (length data)) MaxMessageSize) as [Hs|Hs].
  { split; [discriminate|]. intros (H & _). lia. }
  destruct (json_Unmarshal_ann data) as [a|e] eqn:Hj.
  - destruct (pubsub.Validate a) as [err|] eqn:Hv.
    + split; [discriminate|]. intros (_ & Heq & Hwf).
      injection Heq as ->. apply Validate_None_iff in Hwf. congruence.
    + apply Validate_None_iff in Hv. split.
      * intros [= ->]. auto.
      * intros (_ & [= ->] & _). reflexivity.
  - split; [discriminate|]. intros (_ & H & _). discriminate.
Qed.

(** C3. [UnmarshalLabelAnnouncement] returns an announcement exactly when the
    input is at most [MaxMessageSize] bytes long, decodes as JSON, and the
    decoded announcement has a non-empty cid, a non-empty peer_id, between 1
    and [MaxLabelsPerAnnouncement] labels and a non-zero timestamp. In
    particular, among inputs that pass the other checks, one with exactly
    [MaxLabelsPerAnnouncement] labels is accepted and one with
    [MaxLabelsPerAnnouncement + 1] labels is rejected. *)
Theorem UnmarshalLabelAnnouncement_accepts_iff :
  1 ≤ MaxLabelsPerAnnouncement →
  (∀ data ann,
      pubsub.UnmarshalLabelAnnouncement data = Ok ann ↔
      Z.of_nat (length data) ≤ MaxMessageSize ∧
      json_Unmarshal_ann data = Ok ann ∧
      ann_CID ann ≠ EmptyString ∧ ann_PeerID ann ≠ EmptyString ∧
      1 ≤ Z.of_nat (length (ann_Labels ann)) ≤ MaxLabelsPerAnnouncement ∧
      ann_Timestamp ann ≠ 0) ∧
  (∀ data ann,
      Z.of_nat (length data) ≤ MaxMessageSize →
      json_Unmarshal_ann data = Ok ann →
      ann_CID ann ≠ EmptyString → ann_PeerID ann ≠ EmptyString →
      ann_Timestamp ann ≠ 0 →
      (Z.of_nat (length (ann_Labels ann)) = MaxLabelsPerAnnouncement →
       pubsub.UnmarshalLabelAnnouncement data = Ok ann) ∧
      (Z.of_nat (length (ann_Labels ann)) = MaxLabelsPerAnnouncement + 1 →
       is_Ok (pubsub.UnmarshalLabelAnnouncement data) = false)).
Proof.
  intros Hmax. split.
  - intros data ann. apply UnmarshalLabelAnnouncement_Ok_iff.
  - intros data ann Hs Hj Hc Hp Ht. split; intros Hn.
    + apply UnmarshalLabelAnnouncement_Ok_iff.
      repeat split; try assumption; lia.
    + destruct (pubsub.UnmarshalLabelAnnouncement data) as [a|e] eqn:Hu; [|reflexivity].
      apply UnmarshalLabelAnnouncement_Ok_iff in Hu as (_ & Hj' & _ & _ & Hl & _).
      assert (a = ann) as -> by congruence. lia.
Qed.

(** Whatever encoding/json is: for a well-formed announcement that it
    decodes back to itself and whose JSON encoding fits in [MaxMessageSize]
    bytes, [Marshal] succeeds and [UnmarshalLabelAnnouncement] of its output
    returns the original announcement. *)
Lemma Marshal_Unmarshal_roundtrip (a : LabelAnnouncement) (data : bytes) :
  spec_well_formed a →
  json_roundtrips a →
  json_Marshal_ann a = Ok data →
  Z.of_nat (length data) ≤ MaxMessageSize →
  pubsub.Marshal a = Ok data ∧
  pubsub.UnmarshalLabelAnnouncement data = Ok a.
Proof.
  intros Hwf Hrt Hm Hs. split.
  - unfold pubsub.Marshal. rewrite Hm.
    destruct (Z.gtb_spec (Z.of_nat (length data)) MaxMessageSize); [lia|reflexivity].
  - apply UnmarshalLabelAnnouncement_Ok_iff. auto.
Qed.

End WireFormat.

(** ** encoding/json reads back what it writes *)

Section JsonCodec.
Import gojson.

Ltac dlia := Z.div_mod_to_equations; lia.

Ltac decide_tests :=
  repeat match goal with
  | |- context [?a <=? ?b] =>
      first [rewrite (proj2 (Z.leb_le a b)) by dlia | rewrite (proj2 (Z.leb_gt a b)) by dlia]
  | |- context [?a <? ?b] =>
      first [rewrite (proj2 (Z.ltb_lt a b)) by dlia | rewrite (proj2 (Z.ltb_ge a b)) by dlia]
  | |- context [?a =? ?b] =>
      first [rewrite (proj2 (Z.eqb_eq a b)) by dlia | rewrite (proj2 (Z.eqb_neq a b)) by dlia]
  end; cbn [andb orb negb].

Lemma code_range (b : ascii) : 0 ≤ code b < 256.
Proof. unfold code. pose proof (N_ascii_bounded b). lia. Qed.

Lemma char_code (b : ascii) : char (code b) = b.
Proof. unfold char, code. rewrite N2Z.id. apply ascii_N_embedding. Qed.

Lemma code_char (n : Z) : 0 ≤ n < 256 → code (char n) = n.
Proof. intros H. unfold char, code. rewrite N_ascii_embedding; lia. Qed.

Lemma char_eq (n : Z) (b : ascii) : n = code b → char n = b.
Proof. intros ->. apply char_code. Qed.

Lemma between_true (lo hi : Z) (b : ascii) : between lo hi b = true ↔ lo ≤ code b ≤ hi.
Proof. unfold between. rewrite andb_true_iff, !Z.leb_le. tauto. Qed.

Lemma string_app_cons (x : ascii) (a b : string) : String x a +:+ b = String x (a +:+ b).
Proof. reflexivity. Qed.

Lemma string_app_nil_l (b : string) : EmptyString +:+ b = b.
Proof. reflexivity. Qed.

Ltac norm_app := rewrite ?string_app_cons, ?string_app_nil_l.

Lemma string_app_assoc (a b c : string) : (a +:+ b) +:+ c = a +:+ (b +:+ c).
Proof. induction a as [|x a IH]; norm_app; [reflexivity|rewrite IH; reflexivity]. Qed.

Lemma string_length_app (a b : string) :
  String.length (a +:+ b) = (String.length a + String.length b)%nat.
Proof. induction a as [|x a IH]; norm_app; simpl; [reflexivity|rewrite IH; reflexivity]. Qed.

Lemma skip_app (a b : string) : skip (String.length a) (a +:+ b) = b.
Proof. induction a as [|x a IH]; norm_app; simpl; [destruct b; reflexivity|exact IH]. Qed.

Lemma length_skip (n : nat) (s : string) :
  String.length (skip n s) = (String.length s - n)%nat.
Proof.
  revert s. induction n as [|n IH]; intros [|b s]; simpl; auto.
Qed.

Lemma keep_skip (n : nat) (s : string) : keep n s +:+ skip n s = s.
Proof.
  revert s. induction n as [|n IH]; intros [|b s]; simpl; norm_app; auto.
  rewrite IH. reflexivity.
Qed.

(** What a valid encoding at the start of a string is: one ASCII byte, or
    the bytes [utf8.AppendRune] writes for its rune, none of them ASCII;
    and what follows the encoding does not change how it is read. *)
Lemma DecodeRune_valid (b : ascii) (rest : string) (r : Z) (n : nat) :
  DecodeRune (String b rest) = (r, n) →
  (r =? RuneError) && bool_decide (n = 1%nat) = false →
  (code b < 128 ∧ n = 1%nat ∧ r = code b) ∨
  (128 ≤ code b ∧ 128 ≤ r ∧ (2 ≤ n)%nat ∧
   String.length (keep n (String b rest)) = n ∧
   EncodeRune r = keep n (String b rest) ∧
   ∀ t, DecodeRune (keep n (String b rest) +:+ t) = (r, n)).
Proof.
  pose proof (code_range b) as Hb.
  unfold DecodeRune.
  destruct (Z.ltb_spec (code b) 128) as [Hascii|Hhigh].
  { intros [= <- <-] _. left. auto. }
  destruct (between 194 223 b) eqn:H2.
  { apply between_true in H2.
    destruct rest as [|s1 rest]; [intros [= <- <-]; discriminate|].
    pose proof (code_range s1).
    destruct (between 128 191 s1) eqn:Hs1; [|intros [= <- <-]; discriminate].
    apply between_true in Hs1. intros [= <- <-] _. right.
    split; [lia|]. split; [lia|]. split; [lia|]. split; [reflexivity|]. split.
    - unfold EncodeRune. decide_tests. cbn [keep text fold_right].
      repeat (apply f_equal2; [apply char_eq; dlia|]); reflexivity.
    - intros t. cbn [keep]; norm_app. decide_tests.
      unfold between. decide_tests. reflexivity. }
  destruct (between 224 239 b) eqn:H3.
  { apply between_true in H3.
    destruct rest as [|s1 [|s2 rest]]; try (intros [= <- <-]; discriminate).
    pose proof (code_range s1). pose proof (code_range s2).
    destruct (between _ _ s1 && between 128 191 s2) eqn:Hs; [|intros [= <- <-]; discriminate].
    apply andb_true_iff in Hs as [Hs1 Hs2].
    apply between_true in Hs1, Hs2. intros [= <- <-] _. right.
    assert (Hlo : (if code b =? 224 then 160 else 128) ≤ code s1
                  ∧ code s1 ≤ (if code b =? 237 then 159 else 191)) by lia.
    clear Hs1.
    split; [lia|].
    split; [destruct (Z.eqb_spec (code b) 224), (Z.eqb_spec (code b) 237); lia|].
    split; [lia|]. split; [reflexivity|]. split.
    - unfold EncodeRune.
      destruct (Z.eqb_spec (code b) 224), (Z.eqb_spec (code b) 237);
        try (exfalso; lia); decide_tests;
        repeat (match goal with
                | |- context [?x <=? ?y] => destruct (Z.leb_spec x y)
                end; cbn [andb orb negb]);
        try (exfalso; dlia); cbn [keep text fold_right];
        repeat (apply f_equal2; [apply char_eq; dlia|]); reflexivity.
    - intros t. cbn [keep]; norm_app. unfold between at 1 2. decide_tests.
      unfold between.
      destruct (Z.eqb_spec (code b) 224), (Z.eqb_spec (code b) 237);
        decide_tests; reflexivity. }
  destruct (between 240 244 b) eqn:H4; [|intros [= <- <-]; discriminate].
  apply between_true in H4.
  destruct rest as [|s1 [|s2 [|s3 rest]]]; try (intros [= <- <-]; discriminate).
  pose proof (code_range s1). pose proof (code_range s2). pose proof (code_range s3).
  destruct (between _ _ s1 && between 128 191 s2 && between 128 191 s3) eqn:Hs;
    [|intros [= <- <-]; discriminate].
  apply andb_true_iff in Hs as [Hs Hs3]. apply andb_true_iff in Hs as [Hs1 Hs2].
  apply between_true in Hs1, Hs2, Hs3. intros [= <- <-] _. right.
  assert (Hlo : (if code b =? 240 then 144 else 128) ≤ code s1
                ∧ code s1 ≤ (if code b =? 244 then 143 else 191)) by lia.
  clear Hs1.
  split; [lia|].
  split; [destruct (Z.eqb_spec (code b) 240), (Z.eqb_spec (code b) 244); lia|].
  split; [lia|]. split; [reflexivity|]. split.
  - unfold EncodeRune.
    destruct (Z.eqb_spec (code b) 240), (Z.eqb_spec (code b) 244);
      try (exfalso; lia); decide_tests;
      repeat (match goal with
              | |- context [?x <=? ?y] => destruct (Z.leb_spec x y)
              end; cbn [andb orb negb]);
      try (exfalso; dlia); cbn [keep text fold_right];
      repeat (apply f_equal2; [apply char_eq; dlia|]); reflexivity.
  - intros t. cbn [keep]; norm_app. unfold between at 1 2 3. decide_tests.
    unfold between.
    destruct (Z.eqb_spec (code b) 240), (Z.eqb_spec (code b) 244);
      decide_tests; reflexivity.
Qed.

(** Reading back what [appendString] writes for one ASCII byte. *)
Lemma unquote_ascii (F : nat) (b : ascii) (tail : string) :
  code b < 128 →
  unquote_loop (S F) ((if htmlSafe b then String b EmptyString else escape b) +:+ tail)
  = '(t, after) ← unquote_loop F tail; Some (String b t, after).
Proof.
  destruct b as [[] [] [] [] [] [] [] []]; intros Hb;
    first [discriminate Hb | reflexivity].
Qed.

Lemma token_length (b : ascii) :
  (1 ≤ String.length (if htmlSafe b then String b EmptyString else escape b))%nat.
Proof.
  destruct b as [[] [] [] [] [] [] [] []]; vm_compute; lia.
Qed.

(** Reading back the bytes of a valid encoding of more than one byte. *)
Lemma unquote_rune (F : nat) (b : ascii) (rest tail : string) (r : Z) (n : nat) :
  128 ≤ code b →
  (2 ≤ n)%nat →
  String.length (keep n (String b rest)) = n →
  EncodeRune r = keep n (String b rest) →
  DecodeRune (keep n (String b rest) +:+ tail) = (r, n) →
  unquote_loop (S F) (keep n (String b rest) +:+ tail)
  = '(t, after) ← unquote_loop F tail; Some (keep n (String b rest) +:+ t, after).
Proof.
  intros Hb Hn Hlen Henc Hdec.
  pose proof (skip_app (keep n (String b rest)) tail) as Hdrop.
  rewrite Hlen in Hdrop.
  destruct n as [|n]; [lia|]. cbn [keep] in *. rewrite string_app_cons in *.
  cbn [unquote_loop]. decide_tests. rewrite Hdec, Hdrop, Henc. reflexivity.
Qed.

(** Reading back the escape written for U+2028 and U+2029. *)
Lemma unquote_separator (F : nat) (r : Z) (tail : string) :
  r = 8232 ∨ r = 8233 →
  unquote_loop (S F) ("\u202" +:+ String (hex_digit (r mod 16)) EmptyString +:+ tail)
  = '(t, after) ← unquote_loop F tail; Some (EncodeRune r +:+ t, after).
Proof. intros [-> | ->]; reflexivity. Qed.

(** [unquote] reads back what [appendString] writes for valid UTF-8. *)
Lemma unquote_appendString_loop (fuel : nat) :
  ∀ s,
    (String.length s ≤ fuel)%nat →
    ValidString_loop fuel s = true →
    ∀ F rest,
      (String.length (appendString_loop fuel s) < F)%nat →
      unquote_loop F (appendString_loop fuel s +:+ String quote rest) = Some (s, rest).
Proof.
  induction fuel as [|fuel IH]; intros [|b s] Hlen Hvalid F tail HF;
    try (simpl in Hlen; lia).
  - destruct F; [simpl in HF; lia|]. reflexivity.
  - destruct F; [simpl in HF; lia|]. reflexivity.
  - cbn [ValidString_loop] in Hvalid. cbn [appendString_loop] in *.
    destruct (DecodeRune (String b s)) as [r n] eqn:Hdec.
    destruct ((r =? RuneError) && bool_decide (n = 1%nat)) eqn:Hok; [discriminate|].
    destruct (DecodeRune_valid b s r n Hdec Hok)
      as [(Hb & -> & ->)|(Hb & Hr & Hn & Hsize & Henc & Hrest)].
    + rewrite (proj2 (Z.ltb_lt _ _)) in * by exact Hb.
      cbn [skip] in Hvalid.
      rewrite string_length_app in HF. pose proof (token_length b).
      destruct F as [|F]; [lia|].
      rewrite string_app_assoc, unquote_ascii by exact Hb.
      rewrite IH; [reflexivity|simpl in Hlen; lia|exact Hvalid|lia].
    + rewrite (proj2 (Z.ltb_ge _ _)) in * by exact Hb.
      assert (Hshort : (String.length (skip n (String b s)) ≤ fuel)%nat).
      { rewrite length_skip. simpl in *. lia. }
      destruct ((r =? 8232) || (r =? 8233)) eqn:Hsep.
      * rewrite !string_length_app in HF.
        destruct F as [|F]; [lia|].
        rewrite !string_app_assoc, unquote_separator by lia.
        rewrite IH; [|exact Hshort|exact Hvalid|simpl in HF; lia].
        simpl. rewrite Henc, keep_skip. reflexivity.
      * rewrite string_length_app, Hsize in HF.
        destruct F as [|F]; [lia|].
        rewrite string_app_assoc, (unquote_rune F b s _ r n) by auto.
        rewrite IH; [|exact Hshort|exact Hvalid|lia].
        simpl. rewrite keep_skip. reflexivity.
Qed.

Lemma list_ascii_app (a b : string) :
  String.list_ascii_of_string (a +:+ b)
  = String.list_ascii_of_string a ++ String.list_ascii_of_string b.
Proof.
  induction a as [|x a IH]; norm_app; simpl;
    [reflexivity|rewrite IH; reflexivity].
Qed.

Lemma length_digits (w : nat) : ∀ n, String.length (digits w n) = w.
Proof.
  induction w as [|w IH]; intros n; cbn [digits]; [reflexivity|].
  rewrite string_length_app, IH. simpl. lia.
Qed.

Lemma pow10_succ (w : nat) : 10 ^ Z.of_nat (S w) = 10 * 10 ^ Z.of_nat w.
Proof. rewrite Nat2Z.inj_succ, Z.pow_succ_r by lia. reflexivity. Qed.

(** The digits of a number are digits, and write that number. *)
Lemma digits_spec (w : nat) :
  ∀ n,
    0 ≤ n < 10 ^ Z.of_nat w →
    forallb isDigit (String.list_ascii_of_string (digits w n)) = true ∧
    fold_left (fun x c => x * 10 + (code c - 48))
              (String.list_ascii_of_string (digits w n)) 0 = n.
Proof.
  induction w as [|w IH]; intros n Hn; cbn [digits].
  - simpl in *. split; [reflexivity|lia].
  - rewrite pow10_succ in Hn.
    destruct (IH (n / 10)) as [Hall Hval]; [dlia|].
    rewrite list_ascii_app, forallb_app, fold_left_app, Hall, Hval.
    simpl. unfold isDigit, between. rewrite code_char by dlia.
    split; [|dlia].
    rewrite (proj2 (Z.leb_le _ _)), (proj2 (Z.leb_le _ _)) by dlia. reflexivity.
Qed.

Lemma parseUint_digits (w : nat) (n min max : Z) :
  0 ≤ n < 10 ^ Z.of_nat w →
  min ≤ n ≤ max →
  parseUint (digits w n) min max = Some n.
Proof.
  intros Hn Hrange. unfold parseUint.
  destruct (digits_spec w n Hn) as [-> ->].
  rewrite (proj2 (Z.ltb_ge _ _)), (proj2 (Z.ltb_ge _ _)) by lia. reflexivity.
Qed.

Lemma trim_zeros_spec (fuel : nat) :
  ∀ n w,
    0 < n < 10 ^ Z.of_nat w →
    ∃ n' w',
      trim_zeros fuel n w = digits w' n' ∧
      0 < n' < 10 ^ Z.of_nat w' ∧
      (w' ≤ w)%nat ∧
      n' * 10 ^ Z.of_nat (w - w') = n.
Proof.
  induction fuel as [|fuel IH]; intros n w Hn; cbn [trim_zeros].
  - exists n, w. rewrite Nat.sub_diag. simpl. split; [reflexivity|]. lia.
  - destruct (Z.eqb_spec (n mod 10) 0) as [Hzero|Hlast]; cbn [andb];
      [destruct (bool_decide_reflect (w ≠ O)) as [Hw|Hw]|].
    + destruct w as [|w]; [congruence|]. cbn [pred].
      rewrite pow10_succ in Hn.
      destruct (IH (n / 10) w) as (n' & w' & -> & Hn' & Hw' & Hval); [dlia|].
      exists n', w'. split; [reflexivity|]. split; [exact Hn'|]. split; [lia|].
      replace (S w - w')%nat with (S (w - w')) by lia.
      rewrite pow10_succ.
      replace (n' * (10 * 10 ^ Z.of_nat (w - w'))) with (10 * (n' * 10 ^ Z.of_nat (w - w')))
        by ring.
      rewrite Hval. dlia.
    + exists n, w. rewrite Nat.sub_diag. simpl. split; [reflexivity|]. lia.
    + exists n, w. rewrite Nat.sub_diag. simpl. split; [reflexivity|]. lia.
Qed.

(** The length of a year. *)
Lemma year_length (y : Z) :
  daysBefore_year (y + 1) - daysBefore_year y = if isLeap y then 366 else 365.
Proof.
  unfold daysBefore_year, isLeap.
  replace (y + 1 - 1) with y by lia.
  destruct (Z.eqb_spec (y mod 4) 0), (Z.eqb_spec (y mod 100) 0), (Z.eqb_spec (y mod 400) 0);
    cbn [andb orb negb]; dlia.
Qed.

Lemma year_from_spec (fuel : nat) :
  ∀ y d,
    daysBefore_year y ≤ d < daysBefore_year (y + Z.of_nat fuel) →
    y ≤ year_from fuel y d < y + Z.of_nat fuel ∧
    daysBefore_year (year_from fuel y d) ≤ d < daysBefore_year (year_from fuel y d + 1).
Proof.
  induction fuel as [|fuel IH]; intros y d Hd.
  - rewrite Z.add_0_r in Hd. lia.
  - cbn [year_from]. destruct (Z.ltb_spec d (daysBefore_year (y + 1))) as [Hlt|Hge].
    + lia.
    + destruct (IH (y + 1) d) as [Hy Hday].
      { replace (y + 1 + Z.of_nat fuel) with (y + Z.of_nat (S fuel)) by lia. lia. }
      split; [lia|exact Hday].
Qed.

Lemma month_from_spec (lengths : list Z) :
  ∀ m d,
    0 ≤ d < foldr Z.add 0 lengths →
    let '(m', d') := month_from lengths m d in
    m ≤ m' < m + Z.of_nat (length lengths) ∧
    0 ≤ d' < nth (Z.to_nat (m' - m)) lengths 0 ∧
    foldr Z.add 0 (firstn (Z.to_nat (m' - m)) lengths) + d' = d.
Proof.
  induction lengths as [|len rest IH]; intros m d Hd; cbn [month_from].
  - simpl in Hd. lia.
  - cbn [foldr] in Hd. destruct (Z.ltb_spec d len) as [Hlt|Hge].
    + rewrite Z.sub_diag. simpl. lia.
    + specialize (IH (m + 1) (d - len)).
      destruct (month_from rest (m + 1) (d - len)) as [m' d'].
      destruct IH as (Hm & Hd' & Hsum); [lia|].
      replace (Z.to_nat (m' - m)) with (S (Z.to_nat (m' - (m + 1)))) by lia.
      cbn [nth firstn foldr length]. lia.
Qed.

Lemma year_days (y : Z) :
  foldr Z.add 0 (month_lengths (isLeap y)) = daysBefore_year (y + 1) - daysBefore_year y.
Proof. rewrite year_length. destruct (isLeap y); reflexivity. Qed.

(** The layout of the date and the time of day. *)
Lemma layout (Y M D h m s tail : string) :
  String.length Y = 4%nat → String.length M = 2%nat → String.length D = 2%nat →
  String.length h = 2%nat → String.length m = 2%nat → String.length s = 2%nat →
  let str := Y +:+ "-" +:+ M +:+ "-" +:+ D +:+ "T" +:+ h +:+ ":" +:+ m +:+ ":" +:+ s
               +:+ tail in
  (String.length str <? 19)%nat = false ∧
  keep 4 str = Y ∧ keep 2 (skip 5 str) = M ∧ keep 2 (skip 8 str) = D ∧
  keep 2 (skip 11 str) = h ∧ keep 2 (skip 14 str) = m ∧ keep 2 (skip 17 str) = s ∧
  keep 1 (skip 4 str) = "-" ∧ keep 1 (skip 7 str) = "-" ∧ keep 1 (skip 10 str) = "T" ∧
  keep 1 (skip 13 str) = ":" ∧ keep 1 (skip 16 str) = ":" ∧
  skip 19 str = tail.
Proof.
  intros HY HM HD Hh Hm Hs.
  destruct Y as [|y1 [|y2 [|y3 [|y4 [|]]]]]; try discriminate HY.
  destruct M as [|m1 [|m2 [|]]]; try discriminate HM.
  destruct D as [|d1 [|d2 [|]]]; try discriminate HD.
  destruct h as [|h1 [|h2 [|]]]; try discriminate Hh.
  destruct m as [|n1 [|n2 [|]]]; try discriminate Hm.
  destruct s as [|s1 [|s2 [|]]]; try discriminate Hs.
  cbv zeta. norm_app.
  repeat split; reflexivity.
Qed.

Lemma keep_all (n : nat) (s : string) : (String.length s ≤ n)%nat → keep n s = s.
Proof.
  revert s. induction n as [|n IH]; intros [|b s] Hlen; simpl in *;
    [reflexivity|lia|reflexivity|rewrite IH; [reflexivity|lia]].
Qed.

Lemma span_digits_Z (ds : string) :
  forallb isDigit (String.list_ascii_of_string ds) = true →
  span_digits (ds +:+ "Z") = (ds, "Z").
Proof.
  induction ds as [|c ds IH]; [reflexivity|].
  rewrite string_app_cons. cbn [String.list_ascii_of_string forallb].
  intros [Hc Hds]%andb_true_iff.
  cbn [span_digits]. rewrite Hc, IH by exact Hds. reflexivity.
Qed.

Lemma unquoted_append (a b : string) : unquoted (a +:+ b) = unquoted a && unquoted b.
Proof. unfold unquoted. rewrite list_ascii_app, forallb_app. reflexivity. Qed.

Lemma unquoted_digits (s : string) :
  forallb isDigit (String.list_ascii_of_string s) = true → unquoted s = true.
Proof.
  unfold unquoted. rewrite !forallb_forall. intros Hall c Hc.
  specialize (Hall c Hc). apply between_true in Hall.
  destruct (Z.eqb_spec (code c) 34); [lia|reflexivity].
Qed.

Lemma until_quote_unquoted (s rest : string) :
  unquoted s = true → until_quote (s +:+ String quote rest) = Some (s, rest).
Proof.
  induction s as [|c s IH]; [reflexivity|].
  unfold unquoted. rewrite string_app_cons. cbn [String.list_ascii_of_string forallb].
  intros [Hc Hs]%andb_true_iff.
  cbn [until_quote]. destruct (code c =? 34); [discriminate|].
  rewrite IH by exact Hs. reflexivity.
Qed.

(** [parseRFC3339] reads back what [formatRFC3339] writes, no character of
    which is a quote. *)
Lemma parseRFC3339_formatRFC3339 (t : Time) (stamp : string) :
  formatRFC3339 t = Ok stamp →
  parseRFC3339 stamp = Some t ∧ unquoted stamp = true.
Proof.
  unfold formatRFC3339.
  set (nsec := t mod 1000000000). set (secs := t / 1000000000).
  set (day := secs / 86400). set (sod := secs mod 86400).
  destruct (Z.ltb_spec day (daysBefore_year 0)) as [|Hlow]; [discriminate|].
  destruct (Z.leb_spec (daysBefore_year 10000) day) as [|Hhigh]; [discriminate|].
  cbn [orb].
  destruct (year_from_spec (Z.to_nat 10000) 0 day) as [Hyear Hday];
    [rewrite Z2Nat.id, Z.add_0_l by lia; lia|].
  rewrite Z2Nat.id, Z.add_0_l in Hyear by lia.
  set (year := year_from (Z.to_nat 10000) 0 day) in *.
  pose proof (month_from_spec (month_lengths (isLeap year)) 1 (day - daysBefore_year year))
    as Hmonth.
  destruct (month_from (month_lengths (isLeap year)) 1 (day - daysBefore_year year))
    as [month dom].
  destruct Hmonth as (Hm & Hdom & Hsum); [rewrite year_days; lia|].
  change (Z.of_nat (length (month_lengths (isLeap year)))) with 12 in Hm.
  intros Hstamp. assert (Hinj : ∀ x y : string, Ok x = Ok y :> result string → x = y)
    by (intros x y; congruence).
  apply Hinj in Hstamp. subst stamp. clear Hinj.
  assert (Hnsec : 0 ≤ nsec < 1000000000) by (subst nsec; dlia).
  assert (Hsod : 0 ≤ sod < 86400) by (subst sod; dlia).
  assert (Hdim : 1 ≤ dom + 1 ≤ daysIn month year ∧ daysIn month year ≤ 31).
  { unfold daysIn. split; [lia|].
    assert (Hcases : ∃ k, Z.to_nat (month - 1) = k ∧ (k < 12)%nat)
      by (eexists; split; [reflexivity|lia]).
    destruct Hcases as (k & -> & Hk).
    do 12 (destruct k as [|k]; [destruct (isLeap year); simpl; lia|]). lia. }
  destruct Hdim as [Hdim Hdim31].
  set (frac := if nsec =? 0 then EmptyString else "." +:+ trim_zeros 9 nsec 9).
  destruct (layout (digits 4 year) (digits 2 month) (digits 2 (dom + 1))
              (digits 2 (sod / 3600)) (digits 2 (sod mod 3600 / 60)) (digits 2 (sod mod 60))
              (frac +:+ "Z"))
    as (Hlen & H1 & H2 & H3 & H4 & H5 & H6 & H7 & H8 & H9 & H10 & H11 & H12);
    try apply length_digits.
  assert (Hdate : ∀ n, Date year month (dom + 1) (sod / 3600) (sod mod 3600 / 60) (sod mod 60) n
                       = t - nsec + n).
  { intros n. unfold Date, daysBefore_month. subst nsec sod day secs. dlia. }
  assert (Hfrac : unquoted frac = true ∧
                  parseRFC3339
                    (digits 4 year +:+ "-" +:+ digits 2 month +:+ "-" +:+ digits 2 (dom + 1)
                       +:+ "T" +:+ digits 2 (sod / 3600) +:+ ":"
                       +:+ digits 2 (sod mod 3600 / 60) +:+ ":" +:+ digits 2 (sod mod 60)
                       +:+ frac +:+ "Z") = Some t).
  { unfold parseRFC3339. rewrite Hlen, H1, H2, H3, H4, H5, H6, H7, H8, H9, H10, H11, H12.
    rewrite (parseUint_digits 4 year) by (simpl; lia). cbn [mbind option_bind].
    rewrite (parseUint_digits 2 month) by (simpl; lia). cbn [mbind option_bind].
    rewrite (parseUint_digits 2 (dom + 1)) by (simpl; lia). cbn [mbind option_bind].
    rewrite (parseUint_digits 2 (sod / 3600)) by (simpl; dlia). cbn [mbind option_bind].
    rewrite (parseUint_digits 2 (sod mod 3600 / 60)) by (simpl; dlia).
    cbn [mbind option_bind].
    rewrite (parseUint_digits 2 (sod mod 60)) by (simpl; dlia). cbn [mbind option_bind].
    rewrite bool_decide_eq_true_2 by auto.
    subst frac. destruct (Z.eqb_spec nsec 0) as [Hzero|Hsome].
    - split; [reflexivity|]. rewrite string_app_nil_l. cbv iota beta.
      rewrite bool_decide_eq_true_2 by reflexivity. rewrite Hdate. f_equal. lia.
    - destruct (trim_zeros_spec 9 nsec 9) as (n' & w' & -> & Hn' & Hw' & Hval);
        [simpl; lia|].
      destruct (digits_spec w' n') as [Hall Hatoi]; [lia|].
      split.
      { rewrite unquoted_append, (unquoted_digits _ Hall). reflexivity. }
      pose proof (length_digits w' n') as Hlength.
      pose proof (span_digits_Z _ Hall) as Hspan.
      assert (Hnano : parseNanoseconds (digits w' n') = nsec).
      { unfold parseNanoseconds. rewrite keep_all by lia. rewrite Hatoi, Hlength. exact Hval. }
      destruct (digits w' n') as [|d ds] eqn:Hds.
      { simpl in Hlength. subst w'. simpl in Hn'. lia. }
      repeat (rewrite string_app_cons || rewrite string_app_nil_l).
      rewrite string_app_cons in Hspan. cbv iota beta.
      simpl in Hall. apply andb_true_iff in Hall as [Hd _].
      rewrite Hd. change (code "." =? 46) with true. cbn [andb skip].
      rewrite Hspan, Hnano.
      rewrite bool_decide_eq_true_2 by reflexivity. rewrite Hdate. f_equal. lia. }
  destruct Hfrac as [Hunq Hparse]. split; [exact Hparse|].
  destruct (digits_spec 4 year) as [Hd1 _]; [simpl; lia|].
  destruct (digits_spec 2 month) as [Hd2 _]; [simpl; lia|].
  destruct (digits_spec 2 (dom + 1)) as [Hd3 _]; [simpl; lia|].
  destruct (digits_spec 2 (sod / 3600)) as [Hd4 _]; [simpl; dlia|].
  destruct (digits_spec 2 (sod mod 3600 / 60)) as [Hd5 _]; [simpl; dlia|].
  destruct (digits_spec 2 (sod mod 60)) as [Hd6 _]; [simpl; dlia|].
  repeat match goal with
         | |- context [unquoted (digits ?w ?n +:+ ?b)] =>
             rewrite (unquoted_append (digits w n) b)
         | |- context [unquoted (String ?c EmptyString +:+ ?b)] =>
             rewrite (unquoted_append (String c EmptyString) b)
         | |- context [unquoted (frac +:+ ?b)] => rewrite (unquoted_append frac b)
         end.
  rewrite Hunq, (unquoted_digits _ Hd1), (unquoted_digits _ Hd2), (unquoted_digits _ Hd3),
    (unquoted_digits _ Hd4), (unquoted_digits _ Hd5), (unquoted_digits _ Hd6).
  reflexivity.
Qed.

Lemma expect_append (p s : string) : expect p (p +:+ s) = Some s.
Proof.
  induction p as [|c p IH]; [destruct s; reflexivity|].
  rewrite string_app_cons. cbn [expect]. rewrite Ascii.eqb_refl. exact IH.
Qed.

Lemma expect3 (p q r s : string) : expect (p +:+ q +:+ r) (p +:+ q +:+ r +:+ s) = Some s.
Proof.
  rewrite <- (string_app_assoc q r s), <- (string_app_assoc p (q +:+ r) s). apply expect_append.
Qed.

Lemma expect_quote_bracket (s : string) : expect "]" (String quote s) = None.
Proof. reflexivity. Qed.

Lemma expect_bracket_comma (s : string) : expect "," ("]" +:+ s) = None.
Proof. reflexivity. Qed.

(** What [appendString] writes, followed by [rest]: a quote, then what
    [unquote] reads back into the string and [rest]. *)
Lemma appendString_unquote (s rest : string) :
  ValidString s = true →
  ∃ body,
    appendString s +:+ rest = String quote EmptyString +:+ body ∧
    unquote body = Some (s, rest).
Proof.
  intros Hvalid. exists (appendString_loop (String.length s) s +:+ String quote rest). split.
  - unfold appendString. rewrite !string_app_cons, string_app_assoc. reflexivity.
  - unfold unquote. apply unquote_appendString_loop; [lia|exact Hvalid|].
    rewrite string_length_app. simpl. lia.
Qed.

Lemma appendStrings_cons (label next : string) (rest : list string) :
  appendStrings (label :: next :: rest)
  = appendString label +:+ "," +:+ appendStrings (next :: rest).
Proof. reflexivity. Qed.

Lemma length_appendStrings (labels : list string) :
  (length labels ≤ String.length (appendStrings labels))%nat.
Proof.
  induction labels as [|label [|next rest] IH].
  - simpl. lia.
  - unfold appendStrings, appendString. simpl. lia.
  - rewrite appendStrings_cons, !string_length_app. unfold appendString at 1.
    cbn [String.length length] in *. lia.
Qed.

Lemma read_elements_appendStrings (labels : list string) :
  labels ≠ [] →
  Forall (fun label => ValidString label = true) labels →
  ∀ fuel rest,
    (length labels ≤ fuel)%nat →
    read_elements fuel (appendStrings labels +:+ "]" +:+ rest) = Some (labels, rest).
Proof.
  induction labels as [|label [|next more] IH]; intros Hsome Hvalid fuel rest Hfuel;
    [congruence| |].
  - destruct fuel as [|fuel]; [simpl in Hfuel; lia|].
    apply Forall_inv in Hvalid.
    destruct (appendString_unquote label ("]" +:+ rest) Hvalid) as (body & Hbody & Hread).
    cbn [appendStrings read_elements]. rewrite Hbody, expect_append. cbn [mbind option_bind].
    rewrite Hread. cbn [mbind option_bind].
    rewrite expect_bracket_comma, expect_append. reflexivity.
  - destruct fuel as [|fuel]; [simpl in Hfuel; lia|].
    pose proof (Forall_inv Hvalid) as Hlabel. apply Forall_inv_tail in Hvalid.
    rewrite appendStrings_cons. cbn [read_elements]. rewrite !string_app_assoc.
    destruct (appendString_unquote label
                ("," +:+ appendStrings (next :: more) +:+ "]" +:+ rest) Hlabel)
      as (body & Hbody & Hread).
    rewrite Hbody, expect_append. cbn [mbind option_bind].
    rewrite Hread. cbn [mbind option_bind].
    rewrite expect_append, IH; [reflexivity|discriminate|exact Hvalid|].
    simpl in *. lia.
Qed.

Lemma read_array_appendStrings (labels : list string) (rest : string) :
  Forall (fun label => ValidString label = true) labels →
  read_array (appendStrings labels +:+ "]" +:+ rest) = Some (labels, rest).
Proof.
  intros Hvalid. unfold read_array. destruct labels as [|label more].
  - cbn [appendStrings]. rewrite string_app_nil_l, expect_append. reflexivity.
  - assert (Hstart : ∃ body, appendStrings (label :: more) +:+ "]" +:+ rest
                             = String quote body).
    { destruct more; [cbn [appendStrings]|rewrite appendStrings_cons];
        unfold appendString at 1; rewrite ?string_app_cons; eexists; reflexivity. }
    destruct Hstart as (body & Hstart).
    assert (Hnone : expect "]" (appendStrings (label :: more) +:+ "]" +:+ rest) = None)
      by (rewrite Hstart; apply expect_quote_bracket).
    rewrite Hnone.
    apply read_elements_appendStrings; [discriminate|exact Hvalid|].
    rewrite string_length_app. pose proof (length_appendStrings (label :: more)). lia.
Qed.

(** [decode] reads back what [encode] writes for an announcement whose
    strings are valid UTF-8. *)
Lemma decode_encode (a : LabelAnnouncement) (s : string) :
  utf8_strings a →
  encode a = Ok s →
  decode s = Some a.
Proof.
  intros (Hcid & Hpeer & Hlabels). unfold encode.
  destruct (formatRFC3339 (ann_Timestamp a)) as [stamp|e] eqn:Hstamp; [|discriminate].
  apply parseRFC3339_formatRFC3339 in Hstamp as [Hparse Hunquoted].
  intros Hs. assert (Hinj : ∀ x y : string, Ok x = Ok y :> result string → x = y)
    by (intros x y; congruence).
  apply Hinj in Hs. subst s. clear Hinj.
  unfold decode.
  match goal with
  | |- context [appendString (ann_CID a) +:+ ?rest] =>
      destruct (appendString_unquote (ann_CID a) rest Hcid) as (body & -> & Hread)
  end.
  rewrite expect3. cbn [mbind option_bind].
  rewrite Hread. cbn [mbind option_bind]. clear body Hread.
  match goal with
  | |- context [appendString (ann_PeerID a) +:+ ?rest] =>
      destruct (appendString_unquote (ann_PeerID a) rest Hpeer) as (body & -> & Hread)
  end.
  rewrite expect3. cbn [mbind option_bind].
  rewrite Hread. cbn [mbind option_bind]. clear body Hread.
  rewrite expect3. cbn [mbind option_bind].
  rewrite read_array_appendStrings by exact Hlabels. cbn [mbind option_bind].
  replace (String quote (stamp +:+ String quote EmptyString) +:+ "}")
    with (String quote EmptyString +:+ stamp +:+ String quote "}")
    by (rewrite !string_app_cons, string_app_nil_l, string_app_assoc; reflexivity).
  rewrite expect3. cbn [mbind option_bind].
  rewrite until_quote_unquoted by exact Hunquoted. cbn [mbind option_bind].
  rewrite Hparse. cbn [mbind option_bind].
  destruct a. reflexivity.
Qed.

End JsonCodec.

Section JsonRoundTrip.
Context `{E : Externals}.

(** [json.Marshal] fails only on an instant whose year is outside
    [0, 9999]. *)
Lemma gojson_Marshal_defined (a : LabelAnnouncement) :
  (∃ data, gojson.json_Marshal a = Ok data) ↔
  gojson.daysBefore_year 0 ≤ ann_Timestamp a / 1000000000 / 86400
                           < gojson.daysBefore_year 10000.
Proof.
  unfold gojson.json_Marshal, gojson.encode, gojson.formatRFC3339.
  destruct (Z.ltb_spec (ann_Timestamp a / 1000000000 / 86400) (gojson.daysBefore_year 0));
    destruct (Z.leb_spec (gojson.daysBefore_year 10000) (ann_Timestamp a / 1000000000 / 86400));
    cbn [orb].
  1-3: split; [intros [data Hdata]; discriminate Hdata|lia].
  destruct (gojson.month_from _ _ _). split; [lia|]. intros _. eexists. reflexivity.
Qed.

(** [json.Unmarshal] reads back what [json.Marshal] writes for an
    announcement whose strings are valid UTF-8. *)
Lemma gojson_roundtrips (a : LabelAnnouncement) :
  gojson.utf8_strings a → @json_roundtrips (gojson.externals E) a.
Proof.
  intros Hutf8 data. cbn [json_Marshal_ann json_Unmarshal_ann gojson.externals].
  unfold gojson.json_Marshal, gojson.json_Unmarshal.
  destruct (gojson.encode a) as [s|e] eqn:Hencode; [|discriminate].
  intros [= <-]. rewrite String.string_of_list_byte_of_string.
  rewrite (decode_encode a s Hutf8 Hencode). reflexivity.
Qed.

(** C7. With encoding/json as the Go library has it: for a well-formed
    announcement whose cid, peer_id and labels are valid UTF-8 and whose
    JSON encoding fits in [MaxMessageSize] bytes, [Marshal] succeeds and
    [UnmarshalLabelAnnouncement] of its output returns the original
    announcement: same cid, peer_id, labels and instant. *)
Theorem json_Marshal_Unmarshal_roundtrip (a : LabelAnnouncement) (data : bytes) :
  spec_well_formed a →
  gojson.utf8_strings a →
  gojson.json_Marshal a = Ok data →
  Z.of_nat (length data) ≤ MaxMessageSize →
  @pubsub.Marshal (gojson.externals E) a = Ok data ∧
  @pubsub.UnmarshalLabelAnnouncement (gojson.externals E) data = Ok a.
Proof.
  intros Hwf Hutf8 Hdata Hsize.
  apply (@Marshal_Unmarshal_roundtrip (gojson.externals E));
    [exact Hwf|apply gojson_roundtrips, Hutf8|exact Hdata|exact Hsize].
Qed.

End JsonRoundTrip.

(** ** Running the collaborators *)

Section Effects.
Context `{ext : Externals}.
Variable O : Oracle.

Lemma bind_run {A B} (m : M A) (k : A -> M B) (w : World) :
  bind m k w = k (fst (m w)) (snd (m w)).
Proof. unfold bind. destruct (m w); reflexivity. Qed.

Lemma ret_run {A} (a : A) (w : World) : ret a w = (a, w).
Proof. reflexivity. Qed.

Lemma emit_run (e : Event) (w : World) :
  emit e w = (tt, mkWorld (w_store w) (w_trace w ++ [e]) (w_tick w)).
Proof. reflexivity. Qed.

Lemma log_run (lg : string) (lvl : Level) (msg : string) (w : World) :
  log lg lvl msg w = (tt, mkWorld (w_store w) (w_trace w ++ [EvLog lg lvl msg]) (w_tick w)).
Proof. reflexivity. Qed.

Lemma dstore_Put_run (key : string) (value : bytes) (w : World) :
  dstore_Put O key value w =
  match o_put_err O (w_tick w) key with
  | Some e => (Some e, mkWorld (w_store w) (w_trace w ++ [EvPut key value]) (S (w_tick w)))
  | None => (None, mkWorld (<[key := value]> (w_store w)) (w_trace w ++ [EvPut key value])
                           (S (w_tick w)))
  end.
Proof. unfold dstore_Put, bind, tick, emit. simpl. destruct (o_put_err O (w_tick w) key); reflexivity. Qed.

Lemma dstore_Get_run (key : string) (w : World) :
  dstore_Get O key w =
  (match o_get_err O (w_tick w) key with
   | Some e => Err e
   | None => match w_store w !! key with Some v => Ok v | None => Err ErrNotFound end
   end, mkWorld (w_store w) (w_trace w) (S (w_tick w))).
Proof.
  unfold dstore_Get, bind, tick. simpl.
  destruct (o_get_err O (w_tick w) key); [reflexivity|].
  destruct (w_store w !! key); reflexivity.
Qed.

Lemma time_Now_run (w : World) :
  time_Now O w = (o_now O (w_tick w), mkWorld (w_store w) (w_trace w) (S (w_tick w))).
Proof. reflexivity. Qed.

Lemma ctx_Err_run (w : World) :
  ctx_Err O w = (o_ctx_err O (w_tick w), mkWorld (w_store w) (w_trace w) (S (w_tick w))).
Proof. reflexivity. Qed.

Lemma service_Pull_run (p : peer_ID) (ref : RecordRef) (w : World) :
  service_Pull O p ref w =
  (o_pull O (w_tick w) p ref,
   mkWorld (w_store w) (w_trace w ++ [EvPull p ref]) (S (w_tick w))).
Proof. reflexivity. Qed.

Lemma DHT_Provide_run (c : cid_Cid) (w : World) :
  DHT_Provide O c w =
  (o_provide O (w_tick w) c,
   mkWorld (w_store w) (w_trace w ++ [EvProvide c]) (S (w_tick w))).
Proof. reflexivity. Qed.

Lemma topic_Publish_run (data : bytes) (w : World) :
  topic_Publish O data w =
  (o_topic_publish O (w_tick w) data,
   mkWorld (w_store w) (w_trace w ++ [EvTopicPublish data]) (S (w_tick w))).
Proof. reflexivity. Qed.

End Effects.

Ltac run_rewrite :=
  first
    [ rewrite bind_run | rewrite ret_run | rewrite log_run | rewrite emit_run
    | rewrite dstore_Put_run | rewrite dstore_Get_run | rewrite time_Now_run
    | rewrite ctx_Err_run | rewrite service_Pull_run | rewrite DHT_Provide_run
    | rewrite topic_Publish_run ].

Ltac run :=
  repeat first [ run_rewrite | progress cbn [fst snd w_store w_trace w_tick] ].

Section Maintenance.
Context `{ext : Externals}.
Variable O : Oracle.

(** The write [updateLabelMetadataTimestamp] issues for a value that decodes. *)
Lemma updateLabelMetadataTimestamp_trace (key : string) (value : bytes) (t : Time)
    (w : World) (m : LabelMetadata) (b : bytes) :
  json_Unmarshal_meta value = Ok m →
  json_Marshal_meta (mkLabelMetadata (md_Timestamp m) t) = Ok b →
  w_trace (snd (routing.updateLabelMetadataTimestamp O key value t w)) =
  w_trace w ++ [EvPut (datastore_NewKey key) b].
Proof.
  intros Hm Hb. unfold routing.updateLabelMetadataTimestamp. rewrite Hm, Hb. run.
  destruct (o_put_err O (w_tick w) (datastore_NewKey key)); run; reflexivity.
Qed.

(** C9. [updateLabelMetadataTimestamp], given a key, the stored encoding of
    its metadata and a time: when the value decodes, the one write it issues
    carries the encoding of the metadata with [last_seen] set to the given time
    and [timestamp] as decoded, and when the datastore takes the write the
    store holds that value under the key and no error is returned; when the
    value does not decode, it returns an error, issues no write and leaves the
    world as it was. *)
Theorem updateLabelMetadataTimestamp_spec (key : string) (value : bytes) (t : Time)
    (w : World) :
  let out := routing.updateLabelMetadataTimestamp O key value t w in
  (∀ m b,
      json_Unmarshal_meta value = Ok m →
      json_Marshal_meta (mkLabelMetadata (md_Timestamp m) t) = Ok b →
      w_trace (snd out) = w_trace w ++ [EvPut (datastore_NewKey key) b] ∧
      (o_put_err O (w_tick w) (datastore_NewKey key) = None →
       fst out = None ∧
       w_store (snd out) = <[datastore_NewKey key := b]> (w_store w))) ∧
  (∀ e,
      json_Unmarshal_meta value = Err e →
      fst out = Some (fmt_Errorf "failed to unmarshal label metadata" e) ∧
      snd out = w).
Proof.
  split.
  - intros m b Hm Hb.
    split; [apply (updateLabelMetadataTimestamp_trace key value t w m b); assumption|].
    intros Hp. unfold routing.updateLabelMetadataTimestamp. rewrite Hm, Hb. run.
    rewrite Hp. run. split; reflexivity.
  - intros e He. unfold routing.updateLabelMetadataTimestamp. rewrite He. run.
    split; reflexivity.
Qed.

End Maintenance.

Section Announce.
Context `{ext : Externals}.
Variable O : Oracle.

(** C5. [Publish] returns an error exactly when the CID does not parse or the
    DHT provide step fails; when the gossip publish of the labels fails, a
    warning is logged (the trace ends with it and the closing debug line) and
    [Publish] returns no error. *)
Theorem Publish_error_iff (r : routing.routeRemote) (ref : RecordRef)
    (record : corev1_Record) (w : World) :
  let out := routing.Publish O r ref record w in
  (fst out ≠ None ↔
     (∃ e, cid_Decode (ref_Cid ref) = Err e) ∨
     (∃ c e, cid_Decode (ref_Cid ref) = Ok c ∧ o_provide O (w_tick w) c = Some e)) ∧
  (∀ c mgr gerr,
      cid_Decode (ref_Cid ref) = Ok c →
      o_provide O (w_tick w) c = None →
      routing.r_pubsubManager r = Some mgr →
      GetLabelsFromRecord record ≠ [] →
      fst (pubsub.PublishLabels O mgr (ref_Cid ref) (GetLabelsFromRecord record)
             (after_provide w c)) = Some gerr →
      fst out = None ∧
      w_trace (snd out) =
      w_trace (snd (pubsub.PublishLabels O mgr (ref_Cid ref) (GetLabelsFromRecord record)
                      (after_provide w c)))
        ++ [EvLog routing.remoteLogger LvlWarn "Failed to publish labels via GossipSub";
            EvLog routing.remoteLogger LvlDebug "Successfully announced record to network"]).
Proof.
  unfold routing.Publish, routing.publishToNetwork. run.
  destruct (cid_Decode (ref_Cid ref)) as [c|e] eqn:Hd; run.
  - destruct (o_provide O (w_tick w) c) as [pe|] eqn:Hp; run.
    + split.
      * split; [intros _; right; eauto|discriminate].
      * intros c' mgr gerr [= <-] Hp'. congruence.
    + assert (Hlen : ∀ l : list Label, (0 <? Z.of_nat (length l)) = false → l = []).
      { intros [|x l] H; [reflexivity|]. simpl length in H.
        apply Z.ltb_ge in H. lia. }
      split.
      * split; [|intros [(e & He)|(c' & e & [= <-] & He)]; congruence].
        intros Hne. exfalso. apply Hne. clear Hne.
        destruct (routing.r_pubsubManager r) as [mgr|]; run; [|reflexivity].
        destruct (0 <? Z.of_nat (length (GetLabelsFromRecord record))); run; [|reflexivity].
        destruct (fst (pubsub.PublishLabels O mgr (ref_Cid ref) (GetLabelsFromRecord record) _));
          run; reflexivity.
      * intros c' mgr gerr [= <-] _ Hm Hl Hg. rewrite Hm. run.
        destruct (0 <? Z.of_nat (length (GetLabelsFromRecord record))) eqn:Hn;
          [|apply Hlen in Hn; contradiction].
        run. unfold after_provide in *. rewrite Hg. run.
        split; [reflexivity|]. rewrite <- app_assoc. reflexivity.
  - split.
    + split; [intros _; left; eauto|discriminate].
    + intros c mgr gerr [=].
Qed.

End Announce.

(** ** Computations that do not read the trace *)

Section Blind.
Context `{ext : Externals}.
Variable O : Oracle.

Lemma blind_ret {A} (a : A) : blind (ret a).
Proof. intros w w' H. split; [reflexivity|exact H]. Qed.

Lemma blind_bind {A B} (m : M A) (k : A -> M B) :
  blind m → (∀ a, blind (k a)) → blind (bind m k).
Proof.
  intros Hm Hk w w' H. rewrite !bind_run.
  destruct (Hm w w' H) as [Ha Hw]. rewrite Ha. apply Hk, Hw.
Qed.

Lemma blind_emit (e : Event) : blind (emit e).
Proof. intros w w' [Hs Ht]. split; [reflexivity|]. split; assumption. Qed.

Lemma blind_log (lg : string) (lvl : Level) (msg : string) : blind (log lg lvl msg).
Proof. apply blind_emit. Qed.

Lemma blind_tick : blind tick.
Proof. intros w w' [Hs Ht]. unfold tick, same_state. simpl. rewrite Ht. auto. Qed.

Lemma blind_ctx_Err : blind (ctx_Err O).
Proof. apply blind_bind; [apply blind_tick|intros; apply blind_ret]. Qed.

Lemma blind_time_Now : blind (time_Now O).
Proof. apply blind_bind; [apply blind_tick|intros; apply blind_ret]. Qed.

Lemma blind_dstore_Get (key : string) : blind (dstore_Get O key).
Proof.
  intros w w' [Hs Ht]. rewrite !dstore_Get_run. unfold same_state. simpl.
  rewrite Hs, Ht. auto.
Qed.

Lemma blind_dstore_Put (key : string) (value : bytes) : blind (dstore_Put O key value).
Proof.
  intros w w' [Hs Ht]. rewrite !dstore_Put_run. unfold same_state. rewrite Hs, Ht.
  destruct (o_put_err O (w_tick w') key); simpl; auto.
Qed.

Lemma blind_dstore_Query (prefix : string) : blind (dstore_Query O prefix).
Proof.
  intros w w' [Hs Ht]. unfold dstore_Query. rewrite !bind_run.
  unfold tick, same_state. simpl. rewrite Hs, Ht.
  destruct (o_query_err O (w_tick w') prefix); simpl; auto.
Qed.

End Blind.

Ltac blind_step :=
  match goal with
  | |- blind (ret _) => apply blind_ret
  | |- blind (bind _ _) => apply blind_bind; [|intros ?]
  | |- blind (log _ _ _) => apply blind_log
  | |- blind (ctx_Err _) => apply blind_ctx_Err
  | |- blind (time_Now _) => apply blind_time_Now
  | |- blind (dstore_Get _ _) => apply blind_dstore_Get
  | |- blind (dstore_Put _ _ _) => apply blind_dstore_Put
  | |- blind (dstore_Query _ _) => apply blind_dstore_Query
  | H : context [blind _] |- blind _ => apply H
  | |- blind (match ?x with _ => _ end) => destruct x
  end.

Ltac blind_auto := cbv zeta; repeat blind_step.

Section BlindRouting.
Context `{ext : Externals}.
Variable O : Oracle.

Lemma blind_QueryAllNamespaces_loop (nss : list string) :
  ∀ entries, blind (routing.QueryAllNamespaces_loop O nss entries).
Proof.
  induction nss as [|ns nss IH]; intros entries; simpl; blind_auto.
Qed.

Lemma blind_QueryAllNamespaces : blind (routing.QueryAllNamespaces O).
Proof. apply blind_QueryAllNamespaces_loop. Qed.

Lemma blind_getRemoteRecordLabels (cid peerID : string) :
  blind (routing.getRemoteRecordLabels O cid peerID).
Proof.
  unfold routing.getRemoteRecordLabels.
  apply blind_bind; [apply blind_QueryAllNamespaces|intros q]. blind_auto.
Qed.

Lemma blind_calculateMatchScore (cid : string) (queries : list RecordQuery) (peerID : string) :
  blind (routing.calculateMatchScore O cid queries peerID).
Proof.
  unfold routing.calculateMatchScore.
  destruct (Z.of_nat (length queries) =? 0); [apply blind_ret|].
  apply blind_bind; [apply blind_getRemoteRecordLabels|intros labels]. blind_auto.
Qed.

Lemma blind_dirValue_protocols (addr : ma_Multiaddr) (protocols : list Z) :
  blind (routing.dirValue_protocols addr protocols).
Proof. induction protocols as [|code rest IH]; simpl; blind_auto. Qed.

Lemma blind_dirValue_addrs (multiaddrs : list ma_Multiaddr) :
  blind (routing.dirValue_addrs multiaddrs).
Proof.
  induction multiaddrs as [|addr rest IH]; simpl; [apply blind_ret|].
  apply blind_bind; [apply blind_dirValue_protocols|intros v]. blind_auto.
Qed.

Lemma blind_createPeerInfo (peerID : string) : blind (routing.createPeerInfo O peerID).
Proof.
  unfold routing.createPeerInfo, routing.getDirectoryAPIAddress. cbv zeta.
  apply blind_bind; [|intros; apply blind_ret].
  apply blind_bind; [apply blind_dstore_Get|intros g].
  destruct g; [|blind_auto].
  destruct (json_Unmarshal_addrs a); [|blind_auto].
  apply blind_bind; [apply blind_log|intros _]. apply blind_dirValue_addrs.
Qed.

Lemma blind_searchRemoteRecords_loop (localPeerID : string) (queries : list RecordQuery)
    (limitInt minMatchScore : Z) (entries : list NamespaceEntry) :
  ∀ st, blind (routing.searchRemoteRecords_loop O localPeerID queries limitInt
                 minMatchScore entries st).
Proof.
  induction entries as [|entry rest IH]; intros st; simpl; [apply blind_ret|].
  destruct ((0 <? limitInt) && (limitInt <=? routing.processedCount st)); [apply blind_ret|].
  destruct (ParseEnhancedLabelKey (ne_Key entry)) as [[[label keyCID] keyPeerID]|e];
    [|blind_auto].
  destruct (bool_decide (keyPeerID = localPeerID)); [apply IH|].
  destruct (bool_decide (keyCID ∈ routing.processedCIDs st)); [apply IH|].
  apply blind_bind; [apply blind_calculateMatchScore|intros ms]. cbv zeta.
  apply blind_bind; [apply blind_log|intros _].
  destruct (minMatchScore <=? snd ms); [|blind_auto].
  apply blind_bind; [apply blind_createPeerInfo|intros peer]. blind_auto.
Qed.

Lemma blind_searchRemoteRecords (r : routing.routeRemote) (queries : list RecordQuery)
    (limit minMatchScore : Z) :
  blind (routing.searchRemoteRecords O r queries limit minMatchScore).
Proof.
  unfold routing.searchRemoteRecords. cbv zeta.
  apply blind_bind; [apply blind_log|intros _].
  apply blind_bind; [apply blind_QueryAllNamespaces|intros q].
  destruct q; [|blind_auto].
  apply blind_bind; [apply blind_searchRemoteRecords_loop|intros st]. blind_auto.
Qed.

End BlindRouting.

(** ** Search *)

Section SearchEngine.
Context `{ext : Externals}.
Variable O : Oracle.

Lemma safeIntToUint32_id (n : Z) : 0 ≤ n ≤ MaxUint32 → safeIntToUint32 n = n.
Proof.
  intros H. unfold safeIntToUint32.
  destruct (Z.ltb_spec n 0); [lia|]. destruct (Z.ltb_spec MaxUint32 n); [lia|reflexivity].
Qed.

Lemma calculateMatchScore_result (cid : string) (queries : list RecordQuery)
    (peerID : string) (w : World) :
  let ms := fst (routing.calculateMatchScore O cid queries peerID w) in
  snd ms = safeIntToUint32 (Z.of_nat (length (fst ms))) ∧
  (length (fst ms) ≤ length queries)%nat.
Proof.
  unfold routing.calculateMatchScore.
  destruct (Z.of_nat (length queries) =? 0); run.
  { split; [reflexivity|simpl; lia]. }
  destruct (Z.of_nat (length (fst (routing.getRemoteRecordLabels O cid peerID w))) =? 0); run.
  { split; [reflexivity|simpl; lia]. }
  split; [reflexivity|]. apply length_filter.
Qed.

Lemma createPeerInfo_Id (peerID : string) (w : World) :
  peer_Id (fst (routing.createPeerInfo O peerID w)) = peerID.
Proof. unfold routing.createPeerInfo. run. reflexivity. Qed.

Lemma search_inv_init (localPeerID : string) (queries : list RecordQuery)
    (minMatchScore : Z) :
  search_inv localPeerID queries minMatchScore (routing.mkSearchState ∅ 0 []).
Proof.
  split; [apply NoDup_nil_2|]. split; intros resp H; inversion H.
Qed.

(** One more response keeps the invariant when its CID was not processed yet. *)
Lemma search_inv_send (localPeerID : string) (queries : list RecordQuery)
    (minMatchScore : Z) (st : routing.SearchState) (keyCID : string)
    (peer : Peer) (matchQueries : list RecordQuery) (score : Z) :
  search_inv localPeerID queries minMatchScore st →
  keyCID ∉ routing.processedCIDs st →
  good_response localPeerID queries minMatchScore
    (mkSearchResponse (mkRecordRef keyCID) peer matchQueries score) →
  search_inv localPeerID queries minMatchScore
    (routing.mkSearchState ({[keyCID]} ∪ routing.processedCIDs st)
       (routing.processedCount st + 1)
       (routing.outCh st ++ [mkSearchResponse (mkRecordRef keyCID) peer matchQueries score])).
Proof.
  intros (Hnd & Hin & Hgood) Hfresh Hnew.
  split; [|split]; simpl.
  - rewrite map_app. apply NoDup_app. split; [exact Hnd|]. split.
    + intros c Hc Hc'. simpl in Hc'. apply list_elem_of_singleton in Hc'. subst c.
      apply list_elem_of_fmap in Hc as (resp & Heq & Hresp).
      apply Hfresh. change (resp_cid _) with keyCID in Heq at 1. rewrite Heq.
      apply Hin, Hresp.
    + simpl. apply NoDup_singleton.
  - intros resp Hresp. apply elem_of_app in Hresp as [Hresp|Hresp].
    + apply elem_of_union_r, Hin, Hresp.
    + apply list_elem_of_singleton in Hresp as ->. apply elem_of_union_l.
      apply elem_of_singleton. reflexivity.
  - intros resp Hresp. apply elem_of_app in Hresp as [Hresp|Hresp]; [apply Hgood, Hresp|].
    apply list_elem_of_singleton in Hresp as ->. exact Hnew.
Qed.

Lemma searchRemoteRecords_loop_inv (localPeerID : string) (queries : list RecordQuery)
    (limitInt minMatchScore : Z) (entries : list NamespaceEntry) :
  ∀ st w,
    search_inv localPeerID queries minMatchScore st →
    search_inv localPeerID queries minMatchScore
      (fst (routing.searchRemoteRecords_loop O localPeerID queries limitInt minMatchScore
              entries st w)).
Proof.
  induction entries as [|entry rest IH]; intros st w Hinv; simpl; [exact Hinv|].
  destruct ((0 <? limitInt) && (limitInt <=? routing.processedCount st)); [exact Hinv|].
  destruct (ParseEnhancedLabelKey (ne_Key entry)) as [[[label keyCID] keyPeerID]|e];
    [|run; apply IH, Hinv].
  destruct (bool_decide_reflect (keyPeerID = localPeerID)) as [|Hremote]; [apply IH, Hinv|].
  destruct (bool_decide_reflect (keyCID ∈ routing.processedCIDs st)) as [|Hfresh];
    [apply IH, Hinv|].
  run.
  pose proof (calculateMatchScore_result keyCID queries keyPeerID w) as [Hscore Hlen].
  destruct (fst (routing.calculateMatchScore O keyCID queries keyPeerID w))
    as [matchQueries score] eqn:Hms.
  simpl in Hscore, Hlen. simpl.
  destruct (Z.leb_spec minMatchScore score) as [Hmin|Hmin]; run; [|apply IH, Hinv].
  match goal with
  | |- context [routing.createPeerInfo O keyPeerID ?w1] =>
      pose proof (createPeerInfo_Id keyPeerID w1) as Hid
  end.
  match goal with
  | |- context [mkSearchResponse ?ref ?peer ?mq ?sc] =>
      assert (Hsend := search_inv_send localPeerID queries minMatchScore st keyCID
                         peer mq sc Hinv Hfresh);
      assert (Hnew : good_response localPeerID queries minMatchScore
                       (mkSearchResponse ref peer mq sc))
  end.
  { split; [simpl; congruence|]. split; [exact Hmin|]. split; assumption. }
  specialize (Hsend Hnew).
  match goal with
  | |- context [if ?b then _ else _] => destruct b
  end; run; [exact Hsend|apply IH, Hsend].
Qed.

(** What [searchRemoteRecords] sends on the channel: responses about distinct
    CIDs, each as it should be. *)
Lemma searchRemoteRecords_results (r : routing.routeRemote) (queries : list RecordQuery)
    (limit minMatchScore : Z) (w : World) :
  let results := fst (routing.searchRemoteRecords O r queries limit minMatchScore w) in
  NoDup (map resp_cid results) ∧
  (∀ resp, resp ∈ results →
     good_response (ID_String (routing.r_host_ID r)) queries minMatchScore resp).
Proof.
  unfold routing.searchRemoteRecords. run.
  match goal with
  | |- context [routing.QueryAllNamespaces O ?w1] =>
      destruct (fst (routing.QueryAllNamespaces O w1)) as [entries|e]
  end; run.
  - match goal with
    | |- context [routing.searchRemoteRecords_loop O ?l ?q ?li ?m ?es ?st ?w1] =>
        pose proof (searchRemoteRecords_loop_inv l q li m es st w1
                      (search_inv_init l q m)) as (Hnd & _ & Hgood)
    end.
    split; assumption.
  - split; [apply NoDup_nil_2|]. intros resp H. inversion H.
Qed.

(** [Search] runs [searchRemoteRecords] on the deduplicated queries with the
    threshold raised to [DefaultMinMatchScore], in a world that differs from
    the initial one by log lines only, and returns no error. *)
Lemma Search_run (r : routing.routeRemote) (req : SearchRequest) (w : World) :
  ∃ w', same_state w w' ∧
    fst (routing.Search O r req w) =
    (fst (routing.searchRemoteRecords O r (deduplicateQueries (req_Queries req))
            (req_Limit req) (Z.max DefaultMinMatchScore (req_MinMatchScore req)) w'),
     None).
Proof.
  unfold routing.Search. run.
  destruct (bool_decide _); run;
    (destruct (Z.ltb_spec (req_MinMatchScore req) DefaultMinMatchScore) as [Hlt|Hge]; run;
     [rewrite Z.max_l by lia|rewrite Z.max_r by lia];
     (eexists; split; [|reflexivity]); split; reflexivity).
Qed.

(** C10. [Search] never returns an error: whatever the request, it returns
    the channel and [nil]; when the namespace scan fails, the channel is
    closed without any result. *)
Theorem Search_returns_no_error (r : routing.routeRemote) (req : SearchRequest) (w : World) :
  snd (fst (routing.Search O r req w)) = None ∧
  (is_Ok (fst (routing.QueryAllNamespaces O w)) = false →
   fst (fst (routing.Search O r req w)) = []).
Proof.
  destruct (Search_run r req w) as (w' & Hw & Hrun). rewrite Hrun. simpl.
  split; [reflexivity|]. intros Hscan.
  unfold routing.searchRemoteRecords. run.
  match goal with
  | |- context [routing.QueryAllNamespaces O ?w1] =>
      assert (Hq : fst (routing.QueryAllNamespaces O w1) = fst (routing.QueryAllNamespaces O w))
  end.
  { symmetry. apply blind_QueryAllNamespaces. destruct Hw as [Hs Ht]. split; assumption. }
  rewrite Hq. destruct (fst (routing.QueryAllNamespaces O w)); [discriminate|].
  run. reflexivity.
Qed.

(** C4. Within one call of [Search], no two responses carry the same record
    CID. *)
Theorem Search_no_duplicate_cid (r : routing.routeRemote) (req : SearchRequest) (w : World) :
  NoDup (map resp_cid (fst (fst (routing.Search O r req w)))).
Proof.
  destruct (Search_run r req w) as (w' & _ & Hrun). rewrite Hrun. simpl.
  apply searchRemoteRecords_results.
Qed.

(** C8. No response of [Search] names the local peer: the [peer.id] of every
    response differs from the identity of the local host. *)
Theorem Search_excludes_local_peer (r : routing.routeRemote) (req : SearchRequest)
    (w : World) :
  Forall (fun resp => peer_Id (resp_Peer resp) ≠ ID_String (routing.r_host_ID r))
         (fst (fst (routing.Search O r req w))).
Proof.
  destruct (Search_run r req w) as (w' & _ & Hrun). rewrite Hrun. simpl.
  apply Forall_forall. intros resp Hresp.
  eapply searchRemoteRecords_results; eassumption.
Qed.

(** C2. Every response of [Search] has a score of at least
    [max(1, min_match_score)], and the score is the number of its matching
    queries as a 32-bit unsigned number: it equals the number of entries in
    [match_queries] for every request whose deduplicated queries can be
    counted in 32 bits. A request with [min_match_score = 0] gets the
    responses of the same request with [min_match_score = 1]. *)
Theorem Search_match_score (r : routing.routeRemote) (req : SearchRequest) (w : World) :
  Forall (fun resp =>
            Z.max 1 (req_MinMatchScore req) ≤ resp_MatchScore resp ∧
            resp_MatchScore resp
            = safeIntToUint32 (Z.of_nat (length (resp_MatchQueries resp))))
         (fst (fst (routing.Search O r req w))) ∧
  (Z.of_nat (length (deduplicateQueries (req_Queries req))) ≤ MaxUint32 →
   Forall (fun resp => resp_MatchScore resp = Z.of_nat (length (resp_MatchQueries resp)))
          (fst (fst (routing.Search O r req w)))) ∧
  (req_MinMatchScore req = 0 →
   fst (fst (routing.Search O r req w)) =
   fst (fst (routing.Search O r (mkSearchRequest (req_Queries req) (req_Limit req) 1) w))).
Proof.
  split; [|split].
  - destruct (Search_run r req w) as (w' & _ & Hrun). rewrite Hrun. simpl.
    apply Forall_forall. intros resp Hresp.
    eapply searchRemoteRecords_results in Hresp as (_ & Hmin & Hscore & _). auto.
  - intros Hfit.
    destruct (Search_run r req w) as (w' & _ & Hrun). rewrite Hrun. simpl.
    apply Forall_forall. intros resp Hresp.
    eapply searchRemoteRecords_results in Hresp as (_ & _ & Hscore & Hlen).
    rewrite Hscore. apply safeIntToUint32_id. lia.
  - intros Hzero.
    destruct (Search_run r req w) as (w0 & Hw0 & Hrun0).
    destruct (Search_run r (mkSearchRequest (req_Queries req) (req_Limit req) 1) w)
      as (w1 & Hw1 & Hrun1).
    rewrite Hrun0, Hrun1. simpl. rewrite Hzero. simpl.
    apply blind_searchRemoteRecords.
    destruct Hw0 as [Hs0 Ht0], Hw1 as [Hs1 Ht1]. split; congruence.
Qed.

End SearchEngine.

(** ** Events a computation may leave *)

Section Emits.
Context `{ext : Externals}.
Variable O : Oracle.
Variable P : Event → Prop.

Lemma emits_ret {A} (a : A) : emits P (ret a).
Proof. intros w. exists []. rewrite app_nil_r. split; [reflexivity|constructor]. Qed.

Lemma emits_bind {A B} (m : M A) (k : A -> M B) :
  emits P m → (∀ a, emits P (k a)) → emits P (bind m k).
Proof.
  intros Hm Hk w. rewrite bind_run.
  destruct (Hm w) as (evs1 & H1 & HP1).
  destruct (Hk (fst (m w)) (snd (m w))) as (evs2 & H2 & HP2).
  exists (evs1 ++ evs2). rewrite H2, H1, app_assoc. split; [reflexivity|].
  apply Forall_app. split; assumption.
Qed.

Lemma emits_emit (e : Event) : P e → emits P (emit e).
Proof. intros He w. exists [e]. split; [reflexivity|]. constructor; [exact He|constructor]. Qed.

Lemma emits_log (lg : string) (lvl : Level) (msg : string) :
  P (EvLog lg lvl msg) → emits P (log lg lvl msg).
Proof. apply emits_emit. Qed.

Lemma emits_silent {A} (m : M A) :
  (∀ w, w_trace (snd (m w)) = w_trace w) → emits P m.
Proof. intros H w. exists []. rewrite app_nil_r. split; [apply H|constructor]. Qed.

Lemma emits_ctx_Err : emits P (ctx_Err O).
Proof. apply emits_silent. reflexivity. Qed.

Lemma emits_time_Now : emits P (time_Now O).
Proof. apply emits_silent. reflexivity. Qed.

Lemma emits_dstore_Get (key : string) : emits P (dstore_Get O key).
Proof. apply emits_silent. intros w. rewrite dstore_Get_run. reflexivity. Qed.

Lemma emits_dstore_Query (prefix : string) : emits P (dstore_Query O prefix).
Proof.
  apply emits_silent. intros w. unfold dstore_Query. rewrite bind_run. simpl.
  destruct (o_query_err O (w_tick w) prefix); reflexivity.
Qed.

Lemma emits_dstore_Put (key : string) (value : bytes) :
  P (EvPut key value) → emits P (dstore_Put O key value).
Proof.
  intros He w. exists [EvPut key value]. rewrite dstore_Put_run.
  split; [destruct (o_put_err O (w_tick w) key); reflexivity|].
  constructor; [exact He|constructor].
Qed.

Lemma emits_service_Pull (p : peer_ID) (ref : RecordRef) :
  P (EvPull p ref) → emits P (service_Pull O p ref).
Proof.
  intros He w. exists [EvPull p ref]. split; [reflexivity|].
  constructor; [exact He|constructor].
Qed.

End Emits.

Ltac emits_step :=
  match goal with
  | |- emits _ (ret _) => apply emits_ret
  | |- emits _ (bind _ _) => apply emits_bind; [|intros ?]
  | |- emits _ (log _ _ _) => apply emits_log
  | |- emits _ (ctx_Err _) => apply emits_ctx_Err
  | |- emits _ (time_Now _) => apply emits_time_Now
  | |- emits _ (dstore_Get _ _) => apply emits_dstore_Get
  | |- emits _ (dstore_Query _ _) => apply emits_dstore_Query
  | |- emits _ (dstore_Put _ _ _) => apply emits_dstore_Put
  | |- emits _ (service_Pull _ _ _) => apply emits_service_Pull
  | H : context [emits _ _] |- emits _ _ => apply H
  | |- emits _ (match ?x with _ => _ end) => destruct x
  end.

Ltac emits_auto := cbv zeta; repeat emits_step.

Section GossipReceive.
Context `{ext : Externals}.
Variable O : Oracle.

Lemma emits_new_events (P : Event → Prop) {A} (m : M A) (w : World) (e : Event) :
  emits P m → e ∈ w_trace (snd (m w)) → e ∈ w_trace w ∨ P e.
Proof.
  intros Hm He. destruct (Hm w) as (evs & Heq & HP). rewrite Heq in He.
  apply elem_of_app in He as [He|He]; [left; exact He|right].
  rewrite Forall_forall in HP. apply HP, He.
Qed.

Lemma emits_weaken (P Q : Event → Prop) {A} (m : M A) :
  (∀ e, P e → Q e) → emits P m → emits Q m.
Proof.
  intros HPQ Hm w. destruct (Hm w) as (evs & Heq & HP). exists evs.
  split; [exact Heq|]. eapply Forall_impl; eassumption.
Qed.

Lemma emits_cacheAnnouncedLabels_loop (localPeerID : string) (ann : LabelAnnouncement)
    (now : Time) (labelStrs : list string) :
  ann_PeerID ann ≠ localPeerID →
  (∀ label, label ∈ labelStrs → label ∈ ann_Labels ann) →
  ∀ cachedCount,
    emits (announcement_event localPeerID ann)
          (routing.cacheAnnouncedLabels_loop O ann now labelStrs cachedCount).
Proof.
  intros Hremote.
  induction labelStrs as [|labelStr rest IH]; intros Hsub cachedCount; simpl;
    [apply emits_ret|].
  assert (Hrest : ∀ label, label ∈ rest → label ∈ ann_Labels ann).
  { intros label H. apply Hsub. right. exact H. }
  specialize (IH Hrest).
  assert (Hput : ∀ value,
             announcement_event localPeerID ann
               (EvPut (datastore_NewKey
                         (BuildEnhancedLabelKey labelStr (ann_CID ann) (ann_PeerID ann)))
                      value)).
  { intros value. split; [exact Hremote|]. exists labelStr. split; [|reflexivity].
    apply Hsub. left. }
  emits_auto; solve [exact I | apply Hput].
Qed.

Lemma emits_handleLabelAnnouncement (r : routing.routeRemote) (ann : LabelAnnouncement) :
  emits (announcement_event (ID_String (routing.r_host_ID r)) ann)
        (routing.handleLabelAnnouncement O r ann).
Proof.
  unfold routing.handleLabelAnnouncement.
  destruct (bool_decide_reflect (ann_PeerID ann = ID_String (routing.r_host_ID r)))
    as [|Hremote]; [apply emits_ret|].
  apply emits_bind; [apply emits_log; exact I|intros _].
  apply emits_bind; [apply emits_time_Now|intros now].
  apply emits_bind; [apply emits_cacheAnnouncedLabels_loop; auto|intros _].
  apply emits_log. exact I.
Qed.

Lemma emits_handleMessage (host : peer_ID) (msg : Message) :
  emits (gossip_event host [Ok msg])
        (pubsub.handleMessage (routing.newRemote_manager O host) msg).
Proof.
  assert (Hlog : ∀ lg lvl text, gossip_event host [Ok msg] (EvLog lg lvl text)).
  { intros lg lvl text. left. eauto. }
  unfold pubsub.handleMessage. simpl.
  destruct (bool_decide_reflect (msg_ReceivedFrom msg = host)) as [|Hother];
    [apply emits_ret|].
  destruct (pubsub.UnmarshalLabelAnnouncement (msg_Data msg)) as [ann|e] eqn:Hann.
  - apply emits_bind; [apply emits_log, Hlog|intros _].
    eapply emits_weaken;
      [|apply (emits_handleLabelAnnouncement (routing.mkRouteRemote host None))].
    intros e He. right. exists msg, ann. split; [left|]. auto.
  - apply emits_log, Hlog.
Qed.

Lemma gossip_event_mono (host : peer_ID) (deliveries deliveries' : list (result Message))
    (e : Event) :
  (∀ d, d ∈ deliveries → d ∈ deliveries') →
  gossip_event host deliveries e → gossip_event host deliveries' e.
Proof.
  intros Hsub [Hlog|(msg & ann & Hin & Hrest)]; [left; exact Hlog|].
  right. exists msg, ann. split; [apply Hsub, Hin|exact Hrest].
Qed.

Lemma emits_handleMessages (host : peer_ID) (deliveries : list (result Message)) :
  emits (gossip_event host deliveries)
        (pubsub.handleMessages O (routing.newRemote_manager O host) deliveries).
Proof.
  induction deliveries as [|[msg|err] rest IH]; simpl.
  - apply emits_ret.
  - apply emits_bind; [|intros _].
    + eapply emits_weaken; [|apply emits_handleMessage].
      intros e. apply gossip_event_mono. intros d Hd.
      apply list_elem_of_singleton in Hd as ->. left.
    + eapply emits_weaken; [|exact IH].
      intros e. apply gossip_event_mono. intros d Hd. right. exact Hd.
  - assert (Hlog : ∀ lg lvl text, gossip_event host (Err err :: rest) (EvLog lg lvl text)).
    { intros lg lvl text. left. eauto. }
    apply emits_bind; [apply emits_ctx_Err|intros cerr].
    destruct cerr; [apply emits_log, Hlog|].
    apply emits_bind; [apply emits_log, Hlog|intros _].
    eapply emits_weaken; [|exact IH].
    intros e. apply gossip_event_mono. intros d Hd. right. exact Hd.
Qed.

(** C6. The gossip receive path of a node drops the node's own
    announcements. With the manager that [newRemote] sets up for the host: a
    message received from the host itself is dropped by the subscription
    handler without any effect; an announcement whose declared peer_id is the
    host's is dropped by the callback without any effect, so that what the
    node published is not written back; and every write the receive path
    issues, whatever is delivered, is for a label of an announcement that was
    received from another peer and declares a peer_id other than the host's,
    under the key the datastore makes of the enhanced key built for that
    label, its CID and that peer_id. The declared peer_id is compared as a
    string and not checked otherwise: the key the datastore makes can still
    be a key of the host. *)
Theorem gossip_receive_drops_own (host : peer_ID) :
  let mgr := routing.newRemote_manager O host in
  let r := routing.newRemote O host true in
  routing.r_pubsubManager r = Some mgr ∧
  (∀ msg w, msg_ReceivedFrom msg = host → pubsub.handleMessage mgr msg w = (tt, w)) ∧
  (∀ ann w, ann_PeerID ann = ID_String host →
     routing.handleLabelAnnouncement O r ann w = (tt, w)) ∧
  (∀ deliveries w key value,
     EvPut key value ∈ w_trace (snd (pubsub.handleMessages O mgr deliveries w)) →
     EvPut key value ∈ w_trace w ∨
     ∃ msg ann label,
       Ok msg ∈ deliveries ∧
       msg_ReceivedFrom msg ≠ host ∧
       pubsub.UnmarshalLabelAnnouncement (msg_Data msg) = Ok ann ∧
       ann_PeerID ann ≠ ID_String host ∧
       label ∈ ann_Labels ann ∧
       key = datastore_NewKey
               (BuildEnhancedLabelKey label (ann_CID ann) (ann_PeerID ann))).
Proof.
  cbv zeta. split; [reflexivity|]. split; [|split].
  - intros msg w Hself. unfold pubsub.handleMessage. simpl.
    rewrite bool_decide_eq_true_2 by exact Hself. reflexivity.
  - intros ann w Hself. unfold routing.handleLabelAnnouncement. simpl.
    rewrite bool_decide_eq_true_2 by exact Hself. reflexivity.
  - intros deliveries w key value Hput.
    apply (emits_new_events _ _ _ _ (emits_handleMessages host deliveries)) in Hput
      as [Hold|[(lg & lvl & text & [=])|(msg & ann & Hin & Hfrom & Hann & Hremote & label
                                          & Hlabel & Hkey)]];
      [left; exact Hold|].
    right. exists msg, ann, label. auto 10.
Qed.

End GossipReceive.

(** ** Computations that use the trace as a log *)

Section Framed.
Context `{ext : Externals}.
Variable O : Oracle.

Lemma with_trace_eq (w w' : World) :
  same_state w' w → w' = with_trace (w_trace w') w.
Proof. destruct w, w'. intros [Hs Ht]. simpl in *. subst. reflexivity. Qed.

Lemma with_trace_self (w : World) : with_trace (w_trace w) w = w.
Proof. destruct w. reflexivity. Qed.

Lemma framed_ret {A} (a : A) : framed (ret a).
Proof.
  intros w. exists []. intros t. rewrite app_nil_r.
  split; [reflexivity|]. split; [split; reflexivity|reflexivity].
Qed.

Lemma framed_bind {A B} (m : M A) (k : A -> M B) :
  framed m → (∀ a, framed (k a)) → framed (bind m k).
Proof.
  intros Hm Hk w. destruct (Hm w) as (evs1 & H1).
  destruct (Hk (fst (m w)) (snd (m w))) as (evs2 & H2).
  exists (evs1 ++ evs2). intros t. rewrite !bind_run.
  destruct (H1 t) as (Ha & Hs & Ht). rewrite Ha.
  rewrite (with_trace_eq _ _ Hs), Ht.
  destruct (H2 (t ++ evs1)) as (Hb & Hs2 & Ht2).
  rewrite Hb, Ht2, app_assoc. auto.
Qed.

Lemma framed_emit (e : Event) : framed (emit e).
Proof.
  intros w. exists [e]. intros t.
  split; [reflexivity|]. split; [split; reflexivity|reflexivity].
Qed.

Lemma framed_log (lg : string) (lvl : Level) (msg : string) : framed (log lg lvl msg).
Proof. apply framed_emit. Qed.

(** A computation that neither reads nor extends the trace. *)
Lemma framed_silent {A} (m : M A) :
  blind m → (∀ w, w_trace (snd (m w)) = w_trace w) → framed m.
Proof.
  intros Hblind Hsilent w. exists []. intros t. rewrite app_nil_r.
  destruct (Hblind (with_trace t w) w) as [Ha Hs]; [split; reflexivity|].
  split; [exact Ha|]. split; [exact Hs|]. rewrite Hsilent. reflexivity.
Qed.

Lemma framed_ctx_Err : framed (ctx_Err O).
Proof. apply framed_silent; [apply blind_ctx_Err|reflexivity]. Qed.

Lemma framed_time_Now : framed (time_Now O).
Proof. apply framed_silent; [apply blind_time_Now|reflexivity]. Qed.

Lemma framed_dstore_Get (key : string) : framed (dstore_Get O key).
Proof.
  apply framed_silent; [apply blind_dstore_Get|].
  intros w. rewrite dstore_Get_run. reflexivity.
Qed.

Lemma framed_dstore_Query (prefix : string) : framed (dstore_Query O prefix).
Proof.
  apply framed_silent; [apply blind_dstore_Query|].
  intros w. unfold dstore_Query. rewrite bind_run. simpl.
  destruct (o_query_err O (w_tick w) prefix); reflexivity.
Qed.

Lemma framed_dstore_Put (key : string) (value : bytes) : framed (dstore_Put O key value).
Proof.
  intros w. exists [EvPut key value]. intros t. rewrite !dstore_Put_run. simpl.
  destruct (o_put_err O (w_tick w) key); simpl; repeat split.
Qed.

Lemma framed_service_Pull (p : peer_ID) (ref : RecordRef) : framed (service_Pull O p ref).
Proof.
  intros w. exists [EvPull p ref]. intros t. rewrite !service_Pull_run. simpl.
  repeat split.
Qed.

(** What a framed computation appends is what it leaves from an empty trace. *)
Lemma framed_trace {A} (m : M A) (w : World) :
  framed m →
  w_trace (snd (m w)) = w_trace w ++ w_trace (snd (m (with_trace [] w))).
Proof.
  intros Hm. destruct (Hm w) as (evs & H).
  destruct (H []) as (_ & _ & Hnil). destruct (H (w_trace w)) as (_ & _ & Hw).
  rewrite with_trace_self in Hw. rewrite Hw, Hnil. reflexivity.
Qed.

Lemma framed_state {A} (m : M A) (w : World) (t : list Event) :
  framed m →
  fst (m (with_trace t w)) = fst (m w) ∧
  w_store (snd (m (with_trace t w))) = w_store (snd (m w)).
Proof.
  intros Hm. destruct (Hm w) as (evs & H). destruct (H t) as (Ha & [Hs _] & _). auto.
Qed.

End Framed.

Ltac framed_step :=
  match goal with
  | |- framed (ret _) => apply framed_ret
  | |- framed (bind _ _) => apply framed_bind; [|intros ?]
  | |- framed (log _ _ _) => apply framed_log
  | |- framed (ctx_Err _) => apply framed_ctx_Err
  | |- framed (time_Now _) => apply framed_time_Now
  | |- framed (dstore_Get _ _) => apply framed_dstore_Get
  | |- framed (dstore_Query _ _) => apply framed_dstore_Query
  | |- framed (dstore_Put _ _ _) => apply framed_dstore_Put
  | |- framed (service_Pull _ _ _) => apply framed_service_Pull
  | H : context [framed _] |- framed _ => apply H
  | |- framed (match ?x with _ => _ end) => destruct x
  end.

Ltac framed_auto := cbv zeta; repeat framed_step.

(** ** The namespace scan *)

Section Scanner.
Context `{ext : Externals}.
Variable O : Oracle.

Lemma dstore_Query_run (prefix : string) (w : World) :
  dstore_Query O prefix w =
  (match o_query_err O (w_tick w) prefix with
   | Some e => Err e
   | None =>
       Ok (map (fun kv : string * bytes =>
                  match o_result_err O (w_tick w) (fst kv) with
                  | Some e => Err e
                  | None => Ok kv
                  end)
               (filter (fun kv : string * bytes => String.prefix prefix (fst kv) = true)
                       (map_to_list (w_store w))))
   end, mkWorld (w_store w) (w_trace w) (S (w_tick w))).
Proof.
  unfold dstore_Query. rewrite bind_run. simpl.
  destruct (o_query_err O (w_tick w) prefix); reflexivity.
Qed.

Lemma key_matches_true (cid peerID key : string) :
  key_matches cid peerID key = true ↔
  ∃ label, ParseEnhancedLabelKey key = Ok (label, cid, peerID).
Proof.
  unfold key_matches.
  destruct (ParseEnhancedLabelKey key) as [[[label keyCID] keyPeerID]|e].
  - rewrite andb_true_iff, !bool_decide_eq_true. split.
    + intros [-> ->]. eauto.
    + intros (label' & [= _ -> ->]). auto.
  - split; [discriminate|]. intros (label & [=]).
Qed.

Lemma elem_of_scan (store : gmap string bytes) (e : NamespaceEntry) :
  e ∈ scan store ↔ entry_of store e.
Proof.
  unfold scan, entry_of. rewrite list_elem_of_In, in_flat_map. split.
  - intros (ns & Hns & He). apply list_elem_of_In in Hns, He.
    apply list_elem_of_fmap in He as ([k v] & -> & Hkv).
    apply list_elem_of_filter in Hkv as [Hpre Hkv].
    apply elem_of_map_to_list in Hkv. simpl in *. auto.
  - intros (Hns & Hpre & Hlook). exists (ne_Namespace e).
    rewrite <- !list_elem_of_In. split; [exact Hns|].
    apply list_elem_of_fmap. exists (ne_Key e, ne_Value e). split.
    + destruct e; reflexivity.
    + apply list_elem_of_filter. split; [exact Hpre|].
      apply elem_of_map_to_list. exact Hlook.
Qed.

Lemma cached_entry_scan (store : gmap string bytes) (cid peerID key : string)
    (value : bytes) :
  cached_entry store cid peerID key value ↔
  ∃ e, e ∈ scan store ∧ ne_Key e = key ∧ ne_Value e = value ∧
       key_matches cid peerID key = true.
Proof.
  unfold cached_entry. split.
  - intros (Hlook & (ns & Hns & Hpre) & Hparse).
    exists (mkNamespaceEntry ns key value). rewrite elem_of_scan, key_matches_true.
    unfold entry_of. simpl. auto 10.
  - intros (e & He & <- & <- & Hparse). apply elem_of_scan in He as (Hns & Hpre & Hlook).
    apply key_matches_true in Hparse. eauto 10.
Qed.

(** When nothing fails, draining a query gives the entries under the prefix. *)
Lemma drain_healthy (namespace : string) (kvs : list (string * bytes)) :
  routing.drain namespace (map (fun kv : string * bytes => Ok kv) kvs) =
  map (fun kv : string * bytes => mkNamespaceEntry namespace (fst kv) (snd kv)) kvs.
Proof.
  unfold routing.drain. induction kvs as [|kv kvs IH]; simpl; [reflexivity|].
  rewrite <- IH. reflexivity.
Qed.

Lemma QueryAllNamespaces_loop_healthy (nss : list string) :
  scan_healthy O →
  ∀ entries w,
    routing.QueryAllNamespaces_loop O nss entries w =
    (Ok (entries ++
         flat_map
           (fun namespace =>
              map (fun kv : string * bytes => mkNamespaceEntry namespace (fst kv) (snd kv))
                  (filter (fun kv : string * bytes => String.prefix namespace (fst kv) = true)
                          (map_to_list (w_store w))))
           nss),
     mkWorld (w_store w) (w_trace w) (2 * length nss + w_tick w)).
Proof.
  intros (Hctx & Hquery & Hres).
  induction nss as [|ns nss IH]; intros entries w; simpl.
  - rewrite app_nil_r. destruct w; reflexivity.
  - run. rewrite Hctx. run. rewrite dstore_Query_run. rewrite Hquery. run.
    rewrite IH. cbn [w_store w_trace w_tick]. f_equal.
    + f_equal. rewrite <- app_assoc. f_equal. f_equal.
      rewrite <- drain_healthy. f_equal. apply map_ext. intros kv.
      rewrite Hres. reflexivity.
    + f_equal. lia.
Qed.

(** When nothing fails, [QueryAllNamespaces] returns the scan of the store and
    changes nothing but the count of interactions. *)
Lemma QueryAllNamespaces_healthy (w : World) :
  scan_healthy O →
  routing.QueryAllNamespaces O w =
  (Ok (scan (w_store w)), mkWorld (w_store w) (w_trace w) (8 + w_tick w)).
Proof.
  intros H. unfold routing.QueryAllNamespaces.
  rewrite QueryAllNamespaces_loop_healthy by exact H. reflexivity.
Qed.

(** Whatever fails, [QueryAllNamespaces] returns only entries of the store. *)
Lemma QueryAllNamespaces_loop_sound (nss : list string) :
  (∀ ns, ns ∈ nss → ns ∈ routing.namespaces) →
  ∀ acc w entries,
    Forall (entry_of (w_store w)) acc →
    fst (routing.QueryAllNamespaces_loop O nss acc w) = Ok entries →
    Forall (entry_of (w_store w)) entries.
Proof.
  induction nss as [|ns nss IH]; intros Hnss acc w entries Hacc; simpl.
  - intros [= <-]. exact Hacc.
  - run. destruct (o_ctx_err O (w_tick w)); run; [discriminate|].
    rewrite dstore_Query_run. run.
    assert (Hrest : ∀ ns', ns' ∈ nss → ns' ∈ routing.namespaces).
    { intros ns' H. apply Hnss. right. exact H. }
    destruct (o_query_err O (S (w_tick w)) ns); run.
    + intros Hq. apply (IH Hrest) in Hq; [exact Hq|exact Hacc].
    + intros Hq. apply (IH Hrest) in Hq; [exact Hq|]. cbn [w_store].
      apply Forall_app. split; [exact Hacc|].
      apply Forall_forall. intros e He.
      unfold routing.drain in He. apply list_elem_of_omap in He as (res & Hres & He).
      apply list_elem_of_fmap in Hres as ([k v] & -> & Hkv).
      apply list_elem_of_filter in Hkv as [Hpre Hkv].
      apply elem_of_map_to_list in Hkv.
      destruct (o_result_err O (S (w_tick w)) (fst (k, v))); [discriminate|].
      injection He as <-. split; [apply Hnss; left|]. simpl in *. auto.
Qed.

Lemma QueryAllNamespaces_sound (w : World) (entries : list NamespaceEntry) :
  fst (routing.QueryAllNamespaces O w) = Ok entries →
  Forall (entry_of (w_store w)) entries.
Proof.
  apply QueryAllNamespaces_loop_sound; [auto|]. constructor.
Qed.

End Scanner.

(** ** The reconciler *)

Section Reconciler.
Context `{ext : Externals}.
Variable O : Oracle.

(** *** The cache check *)

Lemma hasRemoteRecordCached_run (cid peerID : string) (w : World) :
  fst (routing.hasRemoteRecordCached O cid peerID w) =
  match fst (routing.QueryAllNamespaces O w) with
  | Ok entries => existsb (fun entry => key_matches cid peerID (ne_Key entry)) entries
  | Err _ => false
  end.
Proof.
  unfold routing.hasRemoteRecordCached. run.
  destruct (fst (routing.QueryAllNamespaces O w)); run; reflexivity.
Qed.

(** Whatever fails, the check answers [true] only if the store holds an entry
    for the pair. *)
Lemma hasRemoteRecordCached_sound (cid peerID : string) (w : World) :
  fst (routing.hasRemoteRecordCached O cid peerID w) = true →
  ∃ key value, cached_entry (w_store w) cid peerID key value.
Proof.
  rewrite hasRemoteRecordCached_run.
  destruct (fst (routing.QueryAllNamespaces O w)) as [entries|e] eqn:Hq; [|discriminate].
  intros Hex. apply existsb_exists in Hex as (entry & Hin & Hmatch).
  apply QueryAllNamespaces_sound in Hq. rewrite Forall_forall in Hq.
  apply list_elem_of_In in Hin. specialize (Hq entry Hin).
  exists (ne_Key entry), (ne_Value entry). apply cached_entry_scan.
  exists entry. rewrite elem_of_scan. auto.
Qed.

(** When the scan does not fail, the check finds every entry of the store for
    the pair, and only moves the count of interactions. *)
Lemma hasRemoteRecordCached_healthy (cid peerID : string) (w : World) :
  scan_healthy O →
  routing.hasRemoteRecordCached O cid peerID w =
  (existsb (fun entry => key_matches cid peerID (ne_Key entry)) (scan (w_store w)),
   mkWorld (w_store w) (w_trace w) (8 + w_tick w)).
Proof.
  intros H. unfold routing.hasRemoteRecordCached. rewrite bind_run.
  rewrite QueryAllNamespaces_healthy by exact H. reflexivity.
Qed.

Lemma existsb_key_matches (cid peerID : string) (store : gmap string bytes) :
  existsb (fun entry => key_matches cid peerID (ne_Key entry)) (scan store) = true ↔
  ∃ key value, cached_entry store cid peerID key value.
Proof.
  rewrite existsb_exists. split.
  - intros (entry & Hin & Hmatch). exists (ne_Key entry), (ne_Value entry).
    apply cached_entry_scan. exists entry. rewrite <- list_elem_of_In in Hin. auto.
  - intros (key & value & Hc). apply cached_entry_scan in Hc as (entry & Hin & <- & _ & Hm).
    exists entry. rewrite <- list_elem_of_In. auto.
Qed.

(** *** The refresh of [last_seen] *)

Lemma updateLabelMetadataTimestamp_store (key : string) (value : bytes) (now : Time)
    (w : World) :
  put_healthy O →
  w_store (snd (routing.updateLabelMetadataTimestamp O key value now w)) =
  match json_Unmarshal_meta value with
  | Ok m =>
      match json_Marshal_meta (mkLabelMetadata (md_Timestamp m) now) with
      | Ok b => <[datastore_NewKey key := b]> (w_store w)
      | Err _ => w_store w
      end
  | Err _ => w_store w
  end.
Proof.
  intros Hput. unfold routing.updateLabelMetadataTimestamp.
  destruct (json_Unmarshal_meta value) as [m|e]; run; [|reflexivity].
  destruct (json_Marshal_meta _) as [b|e]; run; [|reflexivity].
  rewrite Hput. run. reflexivity.
Qed.

Lemma updateRemoteRecordLastSeen_loop_store (cid peerID : string) (now : Time)
    (entries : list NamespaceEntry) :
  put_healthy O →
  ∀ updatedCount w,
    w_store (snd (routing.updateRemoteRecordLastSeen_loop O cid peerID now entries
                    updatedCount w)) =
    fold_left (refresh cid peerID now) entries (w_store w).
Proof.
  intros Hput. induction entries as [|entry rest IH]; intros updatedCount w; simpl;
    [reflexivity|].
  unfold refresh at 2, key_matches.
  destruct (ParseEnhancedLabelKey (ne_Key entry)) as [[[label keyCID] keyPeerID]|e];
    [|apply IH].
  destruct (bool_decide (keyCID = cid) && bool_decide (keyPeerID = peerID)); [|apply IH].
  run.
  pose proof (updateLabelMetadataTimestamp_store (ne_Key entry) (ne_Value entry) now w Hput)
    as Hstore.
  destruct (fst (routing.updateLabelMetadataTimestamp O (ne_Key entry) (ne_Value entry) now w));
    run; rewrite IH; cbn [w_store]; rewrite Hstore; reflexivity.
Qed.

(** After the refresh of entries that come from one store with clean keys,
    the value under a key is the refreshed one if an entry for that key was
    refreshed, and the former one otherwise. *)
Lemma fold_refresh_lookup (cid peerID : string) (now : Time) (snapshot : gmap string bytes)
    (key : string) (value : bytes) (m : LabelMetadata) (b : bytes)
    (entries : list NamespaceEntry) :
  keys_clean snapshot →
  Forall (entry_of snapshot) entries →
  snapshot !! key = Some value →
  key_matches cid peerID key = true →
  json_Unmarshal_meta value = Ok m →
  json_Marshal_meta (mkLabelMetadata (md_Timestamp m) now) = Ok b →
  ∀ store,
    fold_left (refresh cid peerID now) entries store !! key =
    if existsb (fun entry => bool_decide (ne_Key entry = key)) entries
    then Some b else store !! key.
Proof.
  intros Hclean Hentries Hlook Hmatch Hdec Henc.
  induction Hentries as [|entry rest (_ & _ & Hentry) _ IH]; intros store; simpl;
    [reflexivity|].
  rewrite IH. destruct (bool_decide_reflect (ne_Key entry = key)) as [Hkey|Hkey]; simpl.
  - destruct (existsb _ rest); [reflexivity|].
    unfold refresh. rewrite Hkey, Hmatch.
    assert (ne_Value entry = value) as -> by congruence.
    rewrite Hdec, Henc. rewrite (Hclean key value Hlook). apply lookup_insert_eq.
  - destruct (existsb _ rest); [reflexivity|].
    unfold refresh. destruct (key_matches cid peerID (ne_Key entry)); [|reflexivity].
    destruct (json_Unmarshal_meta (ne_Value entry)) as [m'|]; [|reflexivity].
    destruct (json_Marshal_meta (mkLabelMetadata (md_Timestamp m') now)); [|reflexivity].
    rewrite (Hclean _ _ Hentry). apply lookup_insert_ne. exact Hkey.
Qed.

Lemma updateRemoteRecordLastSeen_healthy (cid peerID : string) (w : World) :
  scan_healthy O → put_healthy O →
  w_store (snd (routing.updateRemoteRecordLastSeen O cid peerID w)) =
  fold_left (refresh cid peerID (o_now O (w_tick w))) (scan (w_store w)) (w_store w).
Proof.
  intros Hscan Hput. unfold routing.updateRemoteRecordLastSeen. run.
  rewrite QueryAllNamespaces_healthy by exact Hscan. run.
  rewrite updateRemoteRecordLastSeen_loop_store by exact Hput. reflexivity.
Qed.

(** When nothing fails and the keys of the store are clean, every entry for
    the pair whose value decodes holds, after [updateRemoteRecordLastSeen],
    the encoding of its metadata with [last_seen] set to the instant read at
    the start. *)
Lemma updateRemoteRecordLastSeen_refreshes (cid peerID : string) (w : World)
    (key : string) (value : bytes) (m : LabelMetadata) (b : bytes) :
  scan_healthy O → put_healthy O → keys_clean (w_store w) →
  cached_entry (w_store w) cid peerID key value →
  json_Unmarshal_meta value = Ok m →
  json_Marshal_meta (mkLabelMetadata (md_Timestamp m) (o_now O (w_tick w))) = Ok b →
  w_store (snd (routing.updateRemoteRecordLastSeen O cid peerID w)) !! key = Some b.
Proof.
  intros Hscan Hput Hclean Hc Hdec Henc.
  rewrite updateRemoteRecordLastSeen_healthy by assumption.
  pose proof Hc as (entry & Hin & Hkey & Hval & Hmatch)%cached_entry_scan.
  destruct Hc as (Hlook & _).
  rewrite (fold_refresh_lookup cid peerID _ (w_store w) key value m b); try assumption.
  - replace (existsb _ _) with true; [reflexivity|]. symmetry.
    apply existsb_exists. exists entry. rewrite <- list_elem_of_In.
    split; [exact Hin|]. apply bool_decide_eq_true. exact Hkey.
  - apply Forall_forall. intros e He. apply elem_of_scan, He.
Qed.

(** *** No pull on the fast path *)

Lemma no_pull_QueryAllNamespaces_loop (nss : list string) :
  ∀ entries, emits (fun e => ¬ is_Pull e) (routing.QueryAllNamespaces_loop O nss entries).
Proof.
  induction nss as [|ns nss IH]; intros entries; simpl; emits_auto; simpl; tauto.
Qed.

Lemma no_pull_updateLabelMetadataTimestamp (key : string) (value : bytes) (now : Time) :
  emits (fun e => ¬ is_Pull e) (routing.updateLabelMetadataTimestamp O key value now).
Proof.
  unfold routing.updateLabelMetadataTimestamp. emits_auto; simpl; tauto.
Qed.

Lemma no_pull_updateRemoteRecordLastSeen_loop (cid peerID : string) (now : Time)
    (entries : list NamespaceEntry) :
  ∀ updatedCount,
    emits (fun e => ¬ is_Pull e)
          (routing.updateRemoteRecordLastSeen_loop O cid peerID now entries updatedCount).
Proof.
  induction entries as [|entry rest IH]; intros updatedCount; simpl; [apply emits_ret|].
  destruct (ParseEnhancedLabelKey (ne_Key entry)) as [[[label keyCID] keyPeerID]|e];
    [|apply IH].
  destruct (bool_decide (keyCID = cid) && bool_decide (keyPeerID = peerID)); [|apply IH].
  apply emits_bind; [apply no_pull_updateLabelMetadataTimestamp|intros uerr].
  emits_auto; simpl; tauto.
Qed.

Lemma no_pull_updateRemoteRecordLastSeen (cid peerID : string) :
  emits (fun e => ¬ is_Pull e) (routing.updateRemoteRecordLastSeen O cid peerID).
Proof.
  unfold routing.updateRemoteRecordLastSeen.
  apply emits_bind; [apply emits_time_Now|intros now].
  apply emits_bind; [apply no_pull_QueryAllNamespaces_loop|intros q].
  destruct q; [|apply emits_log; simpl; tauto].
  apply emits_bind; [apply no_pull_updateRemoteRecordLastSeen_loop|intros _].
  apply emits_log. simpl. tauto.
Qed.

Lemma no_pull_learnPeerAddrs (peerIDStr : string) (addrs : list ma_Multiaddr) :
  emits (fun e => ¬ is_Pull e) (routing.learnPeerAddrs O peerIDStr addrs).
Proof.
  unfold routing.learnPeerAddrs. emits_auto; simpl; tauto.
Qed.

(** *** The writes of the slow path *)

Lemma cachePulledLabels_loop_puts (cid peerIDStr : string) (now : Time) (b : bytes)
    (labelList : list Label) :
  json_Marshal_meta (mkLabelMetadata now now) = Ok b →
  ∀ cachedCount w,
    let w' := snd (routing.cachePulledLabels_loop O cid peerIDStr now labelList
                     cachedCount w) in
    (∀ e, e ∈ w_trace w → e ∈ w_trace w') ∧
    (∀ label, label ∈ labelList →
       EvPut (datastore_NewKey (BuildEnhancedLabelKey label cid peerIDStr)) b ∈ w_trace w') ∧
    (∀ key, w_store w !! key = Some b → w_store w' !! key = Some b) ∧
    (put_healthy O →
     ∀ label, label ∈ labelList →
       w_store w' !! datastore_NewKey (BuildEnhancedLabelKey label cid peerIDStr) = Some b).
Proof.
  intros Henc. induction labelList as [|label rest IH]; intros cachedCount w; simpl.
  - split; [auto|]. split; [intros l H; inversion H|]. split; [auto|].
    intros _ l H. inversion H.
  - rewrite Henc. run.
    set (key := datastore_NewKey (BuildEnhancedLabelKey label cid peerIDStr)).
    destruct (o_put_err O (w_tick w) key) as [err|] eqn:Hput; run.
    + match goal with
      | |- context [routing.cachePulledLabels_loop O _ _ _ _ ?c ?w1] =>
          destruct (IH c w1) as (Htrace & Hputs & Hkeep & Hstore)
      end.
      cbn [w_store w_trace] in *.
      split; [|split; [|split]].
      * intros e He. apply Htrace. rewrite !elem_of_app. auto.
      * intros l Hl. apply elem_of_cons in Hl as [->|Hl]; [|apply Hputs, Hl].
        apply Htrace. rewrite !elem_of_app, !list_elem_of_singleton. auto.
      * exact Hkeep.
      * intros Hhealthy. rewrite Hhealthy in Hput. discriminate.
    + match goal with
      | |- context [routing.cachePulledLabels_loop O _ _ _ _ ?c ?w1] =>
          destruct (IH c w1) as (Htrace & Hputs & Hkeep & Hstore)
      end.
      cbn [w_store w_trace] in *.
      split; [|split; [|split]].
      * intros e He. apply Htrace. rewrite !elem_of_app. auto.
      * intros l Hl. apply elem_of_cons in Hl as [->|Hl]; [|apply Hputs, Hl].
        apply Htrace. rewrite !elem_of_app, !list_elem_of_singleton. auto.
      * intros k Hk. apply Hkeep.
        destruct (decide (key = k)) as [<-|Hne];
          [apply lookup_insert_eq|rewrite lookup_insert_ne by exact Hne; exact Hk].
      * intros Hhealthy l Hl. apply elem_of_cons in Hl as [->|Hl]; [|apply Hstore; assumption].
        apply Hkeep. apply lookup_insert_eq.
Qed.

Lemma emits_trace_grows (P : Event → Prop) {A} (m : M A) (w : World) (e : Event) :
  emits P m → e ∈ w_trace w → e ∈ w_trace (snd (m w)).
Proof.
  intros Hm He. destruct (Hm w) as (evs & -> & _). apply elem_of_app. left. exact He.
Qed.

Lemma emits_cachePulledLabels_loop (cid peerIDStr : string) (now : Time)
    (labelList : list Label) :
  ∀ cachedCount,
    emits (fun _ => True)
          (routing.cachePulledLabels_loop O cid peerIDStr now labelList cachedCount).
Proof.
  induction labelList as [|label rest IH]; intros cachedCount; simpl; emits_auto; exact I.
Qed.

(** Every matching entry that decodes gets its refreshed value written. *)
Lemma updateRemoteRecordLastSeen_loop_puts (cid peerID : string) (now : Time)
    (entries : list NamespaceEntry) :
  ∀ updatedCount w entry m b,
    entry ∈ entries →
    key_matches cid peerID (ne_Key entry) = true →
    json_Unmarshal_meta (ne_Value entry) = Ok m →
    json_Marshal_meta (mkLabelMetadata (md_Timestamp m) now) = Ok b →
    EvPut (datastore_NewKey (ne_Key entry)) b
      ∈ w_trace (snd (routing.updateRemoteRecordLastSeen_loop O cid peerID now entries
                        updatedCount w)).
Proof.
  induction entries as [|first rest IH]; intros updatedCount w entry m b Hin Hmatch Hdec Henc;
    [inversion Hin|].
  apply elem_of_cons in Hin as [->|Hin].
  - simpl. unfold key_matches in Hmatch.
    destruct (ParseEnhancedLabelKey (ne_Key first)) as [[[label keyCID] keyPeerID]|e];
      [|discriminate].
    rewrite Hmatch. rewrite bind_run.
    pose proof (updateLabelMetadataTimestamp_trace O (ne_Key first) (ne_Value first) now w
                  m b Hdec Henc) as Htrace.
    assert (Hput : EvPut (datastore_NewKey (ne_Key first)) b
                     ∈ w_trace (snd (routing.updateLabelMetadataTimestamp O (ne_Key first)
                                       (ne_Value first) now w))).
    { rewrite Htrace, elem_of_app, list_elem_of_singleton. auto. }
    destruct (fst (routing.updateLabelMetadataTimestamp O _ _ _ _)); rewrite bind_run;
      apply (emits_trace_grows _ _ _ _
               (no_pull_updateRemoteRecordLastSeen_loop cid peerID now rest _));
      rewrite log_run; cbn [snd w_trace]; rewrite elem_of_app; auto.
  - simpl.
    destruct (ParseEnhancedLabelKey (ne_Key first)) as [[[label keyCID] keyPeerID]|e];
      [|eapply IH; eassumption].
    destruct (bool_decide (keyCID = cid) && bool_decide (keyPeerID = peerID));
      [|eapply IH; eassumption].
    rewrite bind_run.
    destruct (fst (routing.updateLabelMetadataTimestamp O _ _ _ _)); rewrite bind_run;
      eapply IH; eassumption.
Qed.

Lemma updateRemoteRecordLastSeen_puts (cid peerID : string) (w : World)
    (key : string) (value : bytes) (m : LabelMetadata) (b : bytes) :
  scan_healthy O →
  cached_entry (w_store w) cid peerID key value →
  json_Unmarshal_meta value = Ok m →
  json_Marshal_meta (mkLabelMetadata (md_Timestamp m) (o_now O (w_tick w))) = Ok b →
  EvPut (datastore_NewKey key) b
    ∈ w_trace (snd (routing.updateRemoteRecordLastSeen O cid peerID w)).
Proof.
  intros Hscan (entry & Hin & <- & <- & Hmatch)%cached_entry_scan Hdec Henc.
  unfold routing.updateRemoteRecordLastSeen. run.
  rewrite QueryAllNamespaces_healthy by exact Hscan. run.
  rewrite elem_of_app. left.
  eapply updateRemoteRecordLastSeen_loop_puts; eassumption.
Qed.

(** The two paths of the handler, in terms of the events of the final trace. *)
Lemma handleCIDProviderNotification_membership (r : routing.routeRemote)
    (notif : routing.handlerSync) (w : World) :
  let cid := ref_Cid (routing.hs_Ref notif) in
  let peerIDStr := ID_String (routing.ai_ID (routing.hs_Peer notif)) in
  let learned :=
    snd (routing.learnPeerAddrs O peerIDStr (routing.ai_Addrs (routing.hs_Peer notif)) w) in
  let final := snd (routing.handleCIDProviderNotification O r notif w) in
  peerIDStr ≠ ID_String (routing.r_host_ID r) →
  (scan_healthy O →
   (∃ key value, cached_entry (w_store learned) cid peerIDStr key value) →
   (∀ e, e ∈ w_trace final → is_Pull e → e ∈ w_trace w) ∧
   (∃ n, ∀ key value m b,
       cached_entry (w_store learned) cid peerIDStr key value →
       json_Unmarshal_meta value = Ok m →
       json_Marshal_meta (mkLabelMetadata (md_Timestamp m) (o_now O n)) = Ok b →
       EvPut (datastore_NewKey key) b ∈ w_trace final ∧
       (put_healthy O → keys_clean (w_store learned) →
        w_store final !! key = Some b))) ∧
  ((¬ ∃ key value, cached_entry (w_store learned) cid peerIDStr key value) ∨
   is_Ok (fst (routing.QueryAllNamespaces O learned)) = false →
   EvPull (routing.ai_ID (routing.hs_Peer notif)) (routing.hs_Ref notif) ∈ w_trace final ∧
   (∀ record,
       (∀ n, o_pull O n (routing.ai_ID (routing.hs_Peer notif)) (routing.hs_Ref notif)
             = Ok record) →
       ∃ n, ∀ label b,
           label ∈ GetLabelsFromRecord record →
           json_Marshal_meta (mkLabelMetadata (o_now O n) (o_now O n)) = Ok b →
           EvPut (datastore_NewKey (BuildEnhancedLabelKey label cid peerIDStr)) b
             ∈ w_trace final ∧
           (put_healthy O →
            w_store final !! datastore_NewKey (BuildEnhancedLabelKey label cid peerIDStr)
              = Some b))).
Proof.
  intros cid peerIDStr learned final Hremote.
  subst final. unfold routing.handleCIDProviderNotification.
  fold cid peerIDStr. rewrite bool_decide_eq_false_2 by exact Hremote.
  rewrite bind_run. fold learned. rewrite bind_run.
  split.
  - intros Hscan Hcached.
    rewrite hasRemoteRecordCached_healthy by exact Hscan. cbn [fst snd].
    apply existsb_key_matches in Hcached. rewrite Hcached.
    rewrite bind_run, log_run. cbn [fst snd].
    set (w2 := mkWorld _ _ _). split.
    + intros e He Hpull.
      apply (emits_new_events _ _ _ _ (no_pull_updateRemoteRecordLastSeen cid peerIDStr))
        in He as [He|He]; [|contradiction].
      subst w2. cbn [w_trace] in He. apply elem_of_app in He as [He|He].
      * apply (emits_new_events _ _ _ _ (no_pull_learnPeerAddrs peerIDStr _))
          in He as [He|He]; [exact He|contradiction].
      * apply list_elem_of_singleton in He. subst e. contradiction.
    + exists (w_tick w2). intros key value m b Hc Hdec Henc. split.
      * apply (updateRemoteRecordLastSeen_puts cid peerIDStr w2 key value m); assumption.
      * intros Hput Hclean.
        apply (updateRemoteRecordLastSeen_refreshes cid peerIDStr w2 key value m b);
          assumption.
  - intros Hnone.
    assert (Hmiss : fst (routing.hasRemoteRecordCached O cid peerIDStr learned) = false).
    { destruct Hnone as [Hnone|Hfailed].
      - apply not_true_is_false. intros H. apply Hnone.
        apply hasRemoteRecordCached_sound in H. exact H.
      - rewrite hasRemoteRecordCached_run.
        destruct (fst (routing.QueryAllNamespaces O learned)); [discriminate|reflexivity]. }
    rewrite Hmiss. run.
    set (w3 := mkWorld _ _ _).
    assert (Hpulled : EvPull (routing.ai_ID (routing.hs_Peer notif)) (routing.hs_Ref notif)
                        ∈ w_trace w3).
    { subst w3. cbn [w_trace]. rewrite !elem_of_app, !list_elem_of_singleton. auto. }
    split.
    + destruct (o_pull O _ _ _) as [record|err]; run;
        [|rewrite !elem_of_app; auto].
      destruct (Z.of_nat (length (GetLabelsFromRecord record)) =? 0); run;
        [rewrite !elem_of_app; auto|].
      rewrite !elem_of_app. left.
      apply (emits_trace_grows _ _ _ _ (emits_cachePulledLabels_loop _ _ _ _ _)).
      exact Hpulled.
    + intros record Hrecord. rewrite Hrecord. run.
      destruct (Z.of_nat (length (GetLabelsFromRecord record)) =? 0) eqn:Hlen.
      { exists 0%nat. intros label b Hlabel.
        destruct (GetLabelsFromRecord record); [inversion Hlabel|].
        simpl length in Hlen. apply Z.eqb_eq in Hlen. lia. }
      run. exists (w_tick w3). intros label b Hlabel Henc.
      match goal with
      | |- context [routing.cachePulledLabels_loop O ?c ?p ?now ?ls ?cnt ?w4] =>
          destruct (cachePulledLabels_loop_puts c p now b ls Henc cnt w4)
            as (_ & Hputs & _ & Hstore)
      end.
      split; [rewrite elem_of_app; left; apply Hputs, Hlabel|].
      intros Hput. apply Hstore; assumption.
Qed.

(** *** The handler uses the trace as a log *)

Lemma framed_QueryAllNamespaces_loop (nss : list string) :
  ∀ entries, framed (routing.QueryAllNamespaces_loop O nss entries).
Proof. induction nss as [|ns nss IH]; intros entries; simpl; framed_auto. Qed.

Lemma framed_updateRemoteRecordLastSeen_loop (cid peerID : string) (now : Time)
    (entries : list NamespaceEntry) :
  ∀ updatedCount,
    framed (routing.updateRemoteRecordLastSeen_loop O cid peerID now entries updatedCount).
Proof.
  induction entries as [|entry rest IH]; intros updatedCount; simpl; [apply framed_ret|].
  destruct (ParseEnhancedLabelKey (ne_Key entry)) as [[[label keyCID] keyPeerID]|e];
    [|apply IH].
  destruct (bool_decide (keyCID = cid) && bool_decide (keyPeerID = peerID)); [|apply IH].
  apply framed_bind; [unfold routing.updateLabelMetadataTimestamp|intros uerr];
    framed_auto.
Qed.

Lemma framed_cachePulledLabels_loop (cid peerIDStr : string) (now : Time)
    (labelList : list Label) :
  ∀ cachedCount,
    framed (routing.cachePulledLabels_loop O cid peerIDStr now labelList cachedCount).
Proof.
  induction labelList as [|label rest IH]; intros cachedCount; simpl; framed_auto.
Qed.

Lemma framed_learnPeerAddrs (peerIDStr : string) (addrs : list ma_Multiaddr) :
  framed (routing.learnPeerAddrs O peerIDStr addrs).
Proof. unfold routing.learnPeerAddrs. framed_auto. Qed.

Lemma framed_handleCIDProviderNotification (r : routing.routeRemote)
    (notif : routing.handlerSync) :
  framed (routing.handleCIDProviderNotification O r notif).
Proof.
  unfold routing.handleCIDProviderNotification. cbv zeta.
  destruct (bool_decide _); [apply framed_log|].
  apply framed_bind; [apply framed_learnPeerAddrs|intros _].
  apply framed_bind.
  { unfold routing.hasRemoteRecordCached.
    apply framed_bind; [apply framed_QueryAllNamespaces_loop|intros q]. framed_auto. }
  intros cached. destruct cached.
  - apply framed_bind; [apply framed_log|intros _].
    unfold routing.updateRemoteRecordLastSeen.
    apply framed_bind; [apply framed_time_Now|intros now].
    apply framed_bind; [apply framed_QueryAllNamespaces_loop|intros q].
    destruct q; [|apply framed_log].
    apply framed_bind; [apply framed_updateRemoteRecordLastSeen_loop|intros _].
    apply framed_log.
  - apply framed_bind; [apply framed_log|intros _].
    apply framed_bind; [apply framed_service_Pull|intros pulled].
    destruct pulled as [record|err]; [|apply framed_log].
    destruct (Z.of_nat (length (GetLabelsFromRecord record)) =? 0); [apply framed_log|].
    apply framed_bind; [apply framed_time_Now|intros now].
    apply framed_bind; [apply framed_cachePulledLabels_loop|intros _].
    apply framed_log.
Qed.

(** C1, with the condition under which the cache check sees the store. For a
    provider notification about a remote pair
    (cid C, peer P): if the store holds an enhanced key for (C, P) when the
    cache is checked and the namespace scans succeed (the context is live and
    the datastore answers the queries), the handler issues no pull and, with
    one instant [now] read from the clock, writes for every entry of (C, P)
    whose value decodes the encoding of its metadata with [last_seen = now] and
    [timestamp] unchanged, which the store then holds when it takes the writes
    and its keys are clean; if the store holds no such key, or the scan of
    the cache check fails, the handler pulls the record from P, and when the
    pull returns a record it writes, for every label of the record, the key
    built from (label, C, P) with [timestamp = last_seen = now], which the
    store then holds when it takes the writes. *)
Theorem handleCIDProviderNotification_paths (r : routing.routeRemote)
    (notif : routing.handlerSync) (w : World) :
  let cid := ref_Cid (routing.hs_Ref notif) in
  let peerIDStr := ID_String (routing.ai_ID (routing.hs_Peer notif)) in
  let learned :=
    snd (routing.learnPeerAddrs O peerIDStr (routing.ai_Addrs (routing.hs_Peer notif)) w) in
  let final := snd (routing.handleCIDProviderNotification O r notif w) in
  peerIDStr ≠ ID_String (routing.r_host_ID r) →
  ∃ evs,
  w_trace final = w_trace w ++ evs ∧
  (scan_healthy O →
   (∃ key value, cached_entry (w_store learned) cid peerIDStr key value) →
   Forall (fun e => ¬ is_Pull e) evs ∧
   (∃ n, ∀ key value m b,
       cached_entry (w_store learned) cid peerIDStr key value →
       json_Unmarshal_meta value = Ok m →
       json_Marshal_meta (mkLabelMetadata (md_Timestamp m) (o_now O n)) = Ok b →
       EvPut (datastore_NewKey key) b ∈ evs ∧
       (put_healthy O → keys_clean (w_store learned) →
        w_store final !! key = Some b))) ∧
  ((¬ ∃ key value, cached_entry (w_store learned) cid peerIDStr key value) ∨
   is_Ok (fst (routing.QueryAllNamespaces O learned)) = false →
   EvPull (routing.ai_ID (routing.hs_Peer notif)) (routing.hs_Ref notif) ∈ evs ∧
   (∀ record,
       (∀ n, o_pull O n (routing.ai_ID (routing.hs_Peer notif)) (routing.hs_Ref notif)
             = Ok record) →
       ∃ n, ∀ label b,
           label ∈ GetLabelsFromRecord record →
           json_Marshal_meta (mkLabelMetadata (o_now O n) (o_now O n)) = Ok b →
           EvPut (datastore_NewKey (BuildEnhancedLabelKey label cid peerIDStr)) b ∈ evs ∧
           (put_healthy O →
            w_store final !! datastore_NewKey (BuildEnhancedLabelKey label cid peerIDStr)
              = Some b))).
Proof.
  intros cid peerIDStr learned final Hremote.
  set (w0 := with_trace [] w).
  set (learned0 :=
         snd (routing.learnPeerAddrs O peerIDStr (routing.ai_Addrs (routing.hs_Peer notif))
                w0)).
  set (final0 := snd (routing.handleCIDProviderNotification O r notif w0)).
  exists (w_trace final0).
  split; [apply framed_trace, framed_handleCIDProviderNotification|].
  destruct (framed_state _ w [] (framed_learnPeerAddrs peerIDStr
                                     (routing.ai_Addrs (routing.hs_Peer notif))))
    as [_ Hlearned].
  fold w0 learned0 learned in Hlearned.
  destruct (framed_state _ w [] (framed_handleCIDProviderNotification r notif))
    as [_ Hfinal].
  fold w0 final0 final in Hfinal.
  assert (Hscan0 : fst (routing.QueryAllNamespaces O learned0)
                   = fst (routing.QueryAllNamespaces O learned)).
  { apply blind_QueryAllNamespaces.
    destruct (framed_learnPeerAddrs peerIDStr (routing.ai_Addrs (routing.hs_Peer notif)) w)
      as (evs & H). destruct (H []) as (_ & Hs & _). exact Hs. }
  destruct (handleCIDProviderNotification_membership r notif w0 Hremote) as [Hfast Hslow].
  fold cid peerIDStr learned0 final0 in Hfast, Hslow.
  rewrite Hlearned in Hfast, Hslow. rewrite Hscan0 in Hslow. rewrite Hfinal in Hfast, Hslow.
  split.
  - intros Hscan Hcached. destruct (Hfast Hscan Hcached) as [Hnopull Hrefresh].
    split; [|exact Hrefresh].
    apply Forall_forall. intros e He Hpull.
    specialize (Hnopull e He Hpull). inversion Hnopull.
  - exact Hslow.
Qed.

End Reconciler.

(** ** Computations that leave the datastore alone *)

Section KeepsStore.
Context `{ext : Externals}.
Variable O : Oracle.

Lemma keeps_ret {A} (a : A) : keeps_store (ret a).
Proof. intros w. reflexivity. Qed.

Lemma keeps_bind {A B} (m : M A) (k : A -> M B) :
  keeps_store m → (∀ a, keeps_store (k a)) → keeps_store (bind m k).
Proof. intros Hm Hk w. rewrite bind_run, Hk. apply Hm. Qed.

Lemma keeps_log (lg : string) (lvl : Level) (msg : string) : keeps_store (log lg lvl msg).
Proof. intros w. reflexivity. Qed.

Lemma keeps_ctx_Err : keeps_store (ctx_Err O).
Proof. intros w. reflexivity. Qed.

Lemma keeps_time_Now : keeps_store (time_Now O).
Proof. intros w. reflexivity. Qed.

Lemma keeps_dstore_Get (key : string) : keeps_store (dstore_Get O key).
Proof. intros w. rewrite dstore_Get_run. reflexivity. Qed.

Lemma keeps_dstore_Query (prefix : string) : keeps_store (dstore_Query O prefix).
Proof. intros w. rewrite dstore_Query_run. reflexivity. Qed.

Lemma keeps_service_Pull (p : peer_ID) (ref : RecordRef) : keeps_store (service_Pull O p ref).
Proof. intros w. reflexivity. Qed.

Lemma keeps_DHT_Provide (c : cid_Cid) : keeps_store (DHT_Provide O c).
Proof. intros w. reflexivity. Qed.

Lemma keeps_topic_Publish (data : bytes) : keeps_store (topic_Publish O data).
Proof. intros w. reflexivity. Qed.

Lemma emits_DHT_Provide (P : Event → Prop) (c : cid_Cid) :
  P (EvProvide c) → emits P (DHT_Provide O c).
Proof.
  intros He w. exists [EvProvide c]. split; [reflexivity|].
  constructor; [exact He|constructor].
Qed.

Lemma emits_topic_Publish (P : Event → Prop) (data : bytes) :
  P (EvTopicPublish data) → emits P (topic_Publish O data).
Proof.
  intros He w. exists [EvTopicPublish data]. split; [reflexivity|].
  constructor; [exact He|constructor].
Qed.

End KeepsStore.

Ltac keeps_step :=
  match goal with
  | |- keeps_store (ret _) => apply keeps_ret
  | |- keeps_store (bind _ _) => apply keeps_bind; [|intros ?]
  | |- keeps_store (log _ _ _) => apply keeps_log
  | |- keeps_store (ctx_Err _) => apply keeps_ctx_Err
  | |- keeps_store (time_Now _) => apply keeps_time_Now
  | |- keeps_store (dstore_Get _ _) => apply keeps_dstore_Get
  | |- keeps_store (dstore_Query _ _) => apply keeps_dstore_Query
  | |- keeps_store (service_Pull _ _ _) => apply keeps_service_Pull
  | |- keeps_store (DHT_Provide _ _) => apply keeps_DHT_Provide
  | |- keeps_store (topic_Publish _ _) => apply keeps_topic_Publish
  | H : context [keeps_store _] |- keeps_store _ => apply H
  | |- keeps_store (match ?x with _ => _ end) => destruct x
  end.

Ltac keeps_auto := cbv zeta; repeat keeps_step.

(** ** Search, continued *)

Section SearchFurther.
Context `{ext : Externals}.
Variable O : Oracle.

(** *** Search only reads *)

Lemma keeps_QueryAllNamespaces_loop (nss : list string) :
  ∀ entries, keeps_store (routing.QueryAllNamespaces_loop O nss entries).
Proof. induction nss as [|ns nss IH]; intros entries; simpl; keeps_auto. Qed.

Lemma keeps_calculateMatchScore (cid : string) (queries : list RecordQuery) (peerID : string) :
  keeps_store (routing.calculateMatchScore O cid queries peerID).
Proof.
  unfold routing.calculateMatchScore, routing.getRemoteRecordLabels,
    routing.QueryAllNamespaces.
  destruct (Z.of_nat (length queries) =? 0); [apply keeps_ret|].
  apply keeps_bind; [|intros labels; keeps_auto].
  apply keeps_bind; [apply keeps_QueryAllNamespaces_loop|intros q]. keeps_auto.
Qed.

Lemma keeps_dirValue_protocols (addr : ma_Multiaddr) (protocols : list Z) :
  keeps_store (routing.dirValue_protocols addr protocols).
Proof. induction protocols as [|code rest IH]; simpl; keeps_auto. Qed.

Lemma keeps_dirValue_addrs (multiaddrs : list ma_Multiaddr) :
  keeps_store (routing.dirValue_addrs multiaddrs).
Proof.
  induction multiaddrs as [|addr rest IH]; simpl; [apply keeps_ret|].
  apply keeps_bind; [apply keeps_dirValue_protocols|intros v]. keeps_auto.
Qed.

Lemma keeps_createPeerInfo (peerID : string) : keeps_store (routing.createPeerInfo O peerID).
Proof.
  unfold routing.createPeerInfo, routing.getDirectoryAPIAddress. cbv zeta.
  apply keeps_bind; [|intros; apply keeps_ret].
  apply keeps_bind; [apply keeps_dstore_Get|intros g].
  destruct g; [|keeps_auto].
  destruct (json_Unmarshal_addrs a); [|keeps_auto].
  apply keeps_bind; [apply keeps_log|intros _]. apply keeps_dirValue_addrs.
Qed.

Lemma keeps_searchRemoteRecords_loop (localPeerID : string) (queries : list RecordQuery)
    (limitInt minMatchScore : Z) (entries : list NamespaceEntry) :
  ∀ st, keeps_store (routing.searchRemoteRecords_loop O localPeerID queries limitInt
                       minMatchScore entries st).
Proof.
  induction entries as [|entry rest IH]; intros st; simpl; [apply keeps_ret|].
  destruct ((0 <? limitInt) && (limitInt <=? routing.processedCount st)); [apply keeps_ret|].
  destruct (ParseEnhancedLabelKey (ne_Key entry)) as [[[label keyCID] keyPeerID]|e];
    [|keeps_auto].
  destruct (bool_decide (keyPeerID = localPeerID)); [apply IH|].
  destruct (bool_decide (keyCID ∈ routing.processedCIDs st)); [apply IH|].
  apply keeps_bind; [apply keeps_calculateMatchScore|intros ms]. cbv zeta.
  apply keeps_bind; [apply keeps_log|intros _].
  destruct (minMatchScore <=? snd ms); [|keeps_auto].
  apply keeps_bind; [apply keeps_createPeerInfo|intros peer]. keeps_auto.
Qed.

Lemma keeps_Search (r : routing.routeRemote) (req : SearchRequest) :
  keeps_store (routing.Search O r req).
Proof.
  unfold routing.Search, routing.searchRemoteRecords, routing.QueryAllNamespaces. cbv zeta.
  apply keeps_bind; [apply keeps_log|intros _].
  apply keeps_bind; [destruct (bool_decide _); keeps_auto|intros _].
  apply keeps_bind; [destruct (_ <? _); keeps_auto|intros minMatchScore].
  apply keeps_bind; [|intros; apply keeps_ret].
  apply keeps_bind; [apply keeps_log|intros _].
  apply keeps_bind; [apply keeps_QueryAllNamespaces_loop|intros q].
  destruct q; [|keeps_auto].
  apply keeps_bind; [apply keeps_searchRemoteRecords_loop|intros st]. keeps_auto.
Qed.

Lemma logs_QueryAllNamespaces_loop (nss : list string) :
  ∀ entries, emits is_Log (routing.QueryAllNamespaces_loop O nss entries).
Proof. induction nss as [|ns nss IH]; intros entries; simpl; emits_auto; exact I. Qed.

Lemma logs_calculateMatchScore (cid : string) (queries : list RecordQuery) (peerID : string) :
  emits is_Log (routing.calculateMatchScore O cid queries peerID).
Proof.
  unfold routing.calculateMatchScore, routing.getRemoteRecordLabels,
    routing.QueryAllNamespaces.
  destruct (Z.of_nat (length queries) =? 0); [apply emits_ret|].
  apply emits_bind; [|intros labels; emits_auto; exact I].
  apply emits_bind; [apply logs_QueryAllNamespaces_loop|intros q]. emits_auto. exact I.
Qed.

Lemma logs_dirValue_protocols (addr : ma_Multiaddr) (protocols : list Z) :
  emits is_Log (routing.dirValue_protocols addr protocols).
Proof. induction protocols as [|code rest IH]; simpl; emits_auto; exact I. Qed.

Lemma logs_dirValue_addrs (multiaddrs : list ma_Multiaddr) :
  emits is_Log (routing.dirValue_addrs multiaddrs).
Proof.
  induction multiaddrs as [|addr rest IH]; simpl; [apply emits_ret|].
  apply emits_bind; [apply logs_dirValue_protocols|intros v]. emits_auto.
Qed.

Lemma logs_createPeerInfo (peerID : string) : emits is_Log (routing.createPeerInfo O peerID).
Proof.
  unfold routing.createPeerInfo, routing.getDirectoryAPIAddress. cbv zeta.
  apply emits_bind; [|intros; apply emits_ret].
  apply emits_bind; [apply emits_dstore_Get|intros g].
  destruct g; [|emits_auto; exact I].
  destruct (json_Unmarshal_addrs a); [|emits_auto; exact I].
  apply emits_bind; [apply emits_log; exact I|intros _]. apply logs_dirValue_addrs.
Qed.

Lemma logs_searchRemoteRecords_loop (localPeerID : string) (queries : list RecordQuery)
    (limitInt minMatchScore : Z) (entries : list NamespaceEntry) :
  ∀ st, emits is_Log (routing.searchRemoteRecords_loop O localPeerID queries limitInt
                        minMatchScore entries st).
Proof.
  induction entries as [|entry rest IH]; intros st; simpl; [apply emits_ret|].
  destruct ((0 <? limitInt) && (limitInt <=? routing.processedCount st)); [apply emits_ret|].
  destruct (ParseEnhancedLabelKey (ne_Key entry)) as [[[label keyCID] keyPeerID]|e];
    [|emits_auto; exact I].
  destruct (bool_decide (keyPeerID = localPeerID)); [apply IH|].
  destruct (bool_decide (keyCID ∈ routing.processedCIDs st)); [apply IH|].
  apply emits_bind; [apply logs_calculateMatchScore|intros ms]. cbv zeta.
  apply emits_bind; [apply emits_log; exact I|intros _].
  destruct (minMatchScore <=? snd ms); [|emits_auto; exact I].
  apply emits_bind; [apply logs_createPeerInfo|intros peer]. emits_auto; exact I.
Qed.

Lemma logs_Search (r : routing.routeRemote) (req : SearchRequest) :
  emits is_Log (routing.Search O r req).
Proof.
  unfold routing.Search, routing.searchRemoteRecords, routing.QueryAllNamespaces. cbv zeta.
  apply emits_bind; [apply emits_log; exact I|intros _].
  apply emits_bind; [destruct (bool_decide _); emits_auto; exact I|intros _].
  apply emits_bind; [destruct (_ <? _); emits_auto; exact I|intros minMatchScore].
  apply emits_bind; [|intros; apply emits_ret].
  apply emits_bind; [apply emits_log; exact I|intros _].
  apply emits_bind; [apply logs_QueryAllNamespaces_loop|intros q].
  destruct q; [|emits_auto; exact I].
  apply emits_bind; [apply logs_searchRemoteRecords_loop|intros st]. emits_auto; exact I.
Qed.

(** X1. [Search] only reads: whatever the request and whatever fails, it
    leaves the datastore as it was, and all it leaves behind are log lines: no
    write, no pull, no DHT or gossip announcement. *)
Theorem Search_read_only (r : routing.routeRemote) (req : SearchRequest) (w : World) :
  w_store (snd (routing.Search O r req w)) = w_store w ∧
  ∃ evs, w_trace (snd (routing.Search O r req w)) = w_trace w ++ evs ∧ Forall is_Log evs.
Proof. split; [apply keeps_Search|apply logs_Search]. Qed.

(** *** The limit *)

Lemma searchRemoteRecords_loop_count (localPeerID : string) (queries : list RecordQuery)
    (limitInt minMatchScore : Z) (entries : list NamespaceEntry) :
  ∀ st w,
    within_limit limitInt st →
    within_limit limitInt
      (fst (routing.searchRemoteRecords_loop O localPeerID queries limitInt minMatchScore
              entries st w)).
Proof.
  induction entries as [|entry rest IH]; intros st w Hin; simpl; [exact Hin|].
  destruct ((0 <? limitInt) && (limitInt <=? routing.processedCount st)) eqn:Hroom;
    [exact Hin|].
  destruct (ParseEnhancedLabelKey (ne_Key entry)) as [[[label keyCID] keyPeerID]|e];
    [|run; apply IH, Hin].
  destruct (bool_decide (keyPeerID = localPeerID)); [apply IH, Hin|].
  destruct (bool_decide (keyCID ∈ routing.processedCIDs st)); [apply IH, Hin|].
  run.
  destruct (minMatchScore <=? _); run; [|apply IH, Hin].
  match goal with
  | |- context [routing.mkSearchState ?cids ?count ?out] =>
      assert (Hsent : within_limit limitInt (routing.mkSearchState cids count out))
  end.
  { destruct Hin as [Hcount Hbound]. split; cbn [routing.processedCount routing.outCh].
    - rewrite length_app. simpl. lia.
    - intros Hpos. specialize (Hbound Hpos).
      apply andb_false_iff in Hroom as [H|H];
        [apply Z.ltb_ge in H|apply Z.leb_gt in H]; lia. }
  match goal with
  | |- context [if ?b then _ else _] => destruct b
  end; run; [exact Hsent|apply IH, Hsent].
Qed.

(** X2. A positive limit bounds the answer: [Search] with [limit > 0] returns
    at most [limit] responses. *)
Theorem Search_respects_limit (r : routing.routeRemote) (req : SearchRequest) (w : World) :
  0 < req_Limit req →
  Z.of_nat (length (fst (fst (routing.Search O r req w)))) ≤ req_Limit req.
Proof.
  intros Hlimit. destruct (Search_run O r req w) as (w' & _ & Hrun). rewrite Hrun. simpl.
  unfold routing.searchRemoteRecords. run.
  match goal with
  | |- context [routing.QueryAllNamespaces O ?w1] =>
      destruct (fst (routing.QueryAllNamespaces O w1)) as [entries|e]
  end; run; [|simpl; lia].
  match goal with
  | |- context [routing.searchRemoteRecords_loop O ?l ?q ?li ?m ?es ?st ?w1] =>
      destruct (searchRemoteRecords_loop_count l q li m es st w1) as [Hcount Hbound]
  end; [split; [reflexivity|simpl; lia]|].
  rewrite <- Hcount. apply Hbound, Hlimit.
Qed.

End SearchFurther.

Section SearchResults.
Context `{ext : Externals}.
Variable O : Oracle.

(** *** What is sent comes from the entries *)

(** A property of responses that holds of whatever the loop builds from an
    entry holds of all it sends. The worlds in which the score and the peer
    information are computed hold the store the loop started with. *)
Lemma searchRemoteRecords_loop_Forall (Q : SearchResponse → Prop) (store : gmap string bytes)
    (localPeerID : string) (queries : list RecordQuery) (limitInt minMatchScore : Z)
    (entries : list NamespaceEntry) :
  (∀ entry label keyCID keyPeerID w1 w2,
      entry ∈ entries →
      ParseEnhancedLabelKey (ne_Key entry) = Ok (label, keyCID, keyPeerID) →
      keyPeerID ≠ localPeerID →
      w_store w1 = store →
      minMatchScore ≤ snd (fst (routing.calculateMatchScore O keyCID queries keyPeerID w1)) →
      Q (mkSearchResponse (mkRecordRef keyCID)
           (fst (routing.createPeerInfo O keyPeerID w2))
           (fst (fst (routing.calculateMatchScore O keyCID queries keyPeerID w1)))
           (snd (fst (routing.calculateMatchScore O keyCID queries keyPeerID w1))))) →
  ∀ st w,
    w_store w = store →
    Forall Q (routing.outCh st) →
    Forall Q (routing.outCh
                (fst (routing.searchRemoteRecords_loop O localPeerID queries limitInt
                        minMatchScore entries st w))).
Proof.
  induction entries as [|entry rest IH]; intros Hbuild st w Hstore Hout; simpl; [exact Hout|].
  assert (Hrest : ∀ entry' label keyCID keyPeerID w1 w2,
             entry' ∈ rest →
             ParseEnhancedLabelKey (ne_Key entry') = Ok (label, keyCID, keyPeerID) →
             keyPeerID ≠ localPeerID →
             w_store w1 = store →
             minMatchScore
             ≤ snd (fst (routing.calculateMatchScore O keyCID queries keyPeerID w1)) →
             Q (mkSearchResponse (mkRecordRef keyCID)
                  (fst (routing.createPeerInfo O keyPeerID w2))
                  (fst (fst (routing.calculateMatchScore O keyCID queries keyPeerID w1)))
                  (snd (fst (routing.calculateMatchScore O keyCID queries keyPeerID w1))))).
  { intros entry' label keyCID keyPeerID w1 w2 Hin. apply Hbuild. right. exact Hin. }
  specialize (IH Hrest).
  destruct ((0 <? limitInt) && (limitInt <=? routing.processedCount st)); [exact Hout|].
  destruct (ParseEnhancedLabelKey (ne_Key entry)) as [[[label keyCID] keyPeerID]|e] eqn:Hparse;
    [|run; apply IH; assumption].
  destruct (bool_decide_reflect (keyPeerID = localPeerID)) as [|Hremote];
    [apply IH; assumption|].
  destruct (bool_decide (keyCID ∈ routing.processedCIDs st)); [apply IH; assumption|].
  run.
  pose proof (keeps_calculateMatchScore O keyCID queries keyPeerID w) as Hkeep.
  rewrite Hstore in Hkeep.
  destruct (Z.leb_spec minMatchScore
              (snd (fst (routing.calculateMatchScore O keyCID queries keyPeerID w))))
    as [Hmin|Hmin]; run; [|apply IH; [exact Hkeep|exact Hout]].
  match goal with
  | |- context [routing.createPeerInfo O keyPeerID ?w2] =>
      assert (Hnew := λ Hin, Hbuild entry label keyCID keyPeerID w w2 Hin Hparse Hremote
                            Hstore Hmin);
      specialize (Hnew ltac:(left));
      assert (Hkeep2 : w_store (snd (routing.createPeerInfo O keyPeerID w2)) = store)
        by (rewrite keeps_createPeerInfo; exact Hkeep)
  end.
  match goal with
  | |- context [routing.mkSearchState ?cids ?count ?out] =>
      assert (Hsent : Forall Q (routing.outCh (routing.mkSearchState cids count out)))
  end.
  { cbn [routing.outCh]. apply Forall_app. split; [exact Hout|].
    constructor; [exact Hnew|constructor]. }
  match goal with
  | |- context [if ?b then _ else _] => destruct b
  end; run; [exact Hsent|apply IH; [exact Hkeep2|exact Hsent]].
Qed.

Lemma searchRemoteRecords_Forall (Q : SearchResponse → Prop) (r : routing.routeRemote)
    (queries : list RecordQuery) (limit minMatchScore : Z) (w : World) :
  (∀ entries entry label keyCID keyPeerID w0 w1 w2,
      fst (routing.QueryAllNamespaces O w0) = Ok entries →
      w_store w0 = w_store w → w_tick w0 = w_tick w →
      entry ∈ entries →
      ParseEnhancedLabelKey (ne_Key entry) = Ok (label, keyCID, keyPeerID) →
      keyPeerID ≠ ID_String (routing.r_host_ID r) →
      w_store w1 = w_store w →
      minMatchScore ≤ snd (fst (routing.calculateMatchScore O keyCID queries keyPeerID w1)) →
      Q (mkSearchResponse (mkRecordRef keyCID)
           (fst (routing.createPeerInfo O keyPeerID w2))
           (fst (fst (routing.calculateMatchScore O keyCID queries keyPeerID w1)))
           (snd (fst (routing.calculateMatchScore O keyCID queries keyPeerID w1))))) →
  Forall Q (fst (routing.searchRemoteRecords O r queries limit minMatchScore w)).
Proof.
  intros Hbuild. unfold routing.searchRemoteRecords. run.
  match goal with
  | |- context [routing.QueryAllNamespaces O ?w'] => set (w0 := w')
  end.
  pose proof (keeps_QueryAllNamespaces_loop O routing.namespaces [] w0) as Hkeep.
  fold (routing.QueryAllNamespaces O) in Hkeep.
  destruct (fst (routing.QueryAllNamespaces O w0)) as [entries|e] eqn:Hscan; run;
    [|constructor].
  apply (searchRemoteRecords_loop_Forall Q (w_store w)); [|exact Hkeep|constructor].
  intros entry label keyCID keyPeerID w1 w2. apply (Hbuild entries entry _ _ _ w0); auto.
Qed.

Lemma calculateMatchScore_sublist (cid : string) (queries : list RecordQuery)
    (peerID : string) (w : World) :
  fst (fst (routing.calculateMatchScore O cid queries peerID w)) `sublist_of` queries.
Proof.
  unfold routing.calculateMatchScore.
  destruct (Z.of_nat (length queries) =? 0); run; [apply sublist_nil_l|].
  destruct (Z.of_nat (length (fst (routing.getRemoteRecordLabels O cid peerID w))) =? 0); run;
    [apply sublist_nil_l|].
  apply sublist_filter.
Qed.

(** X3. [Search] invents nothing. Whatever the request and whatever fails,
    every response is about a pair (record CID, peer) for which the datastore
    holds an enhanced key in one of the label namespaces, and its matching
    queries are queries of the request after deduplication, in their order. *)
Theorem Search_results_from_cache (r : routing.routeRemote) (req : SearchRequest)
    (w : World) :
  Forall (fun resp =>
            (∃ key value,
                cached_entry (w_store w) (resp_cid resp) (peer_Id (resp_Peer resp))
                             key value) ∧
            resp_MatchQueries resp `sublist_of` deduplicateQueries (req_Queries req))
         (fst (fst (routing.Search O r req w))).
Proof.
  destruct (Search_run O r req w) as (w' & [Hstore _] & Hrun). rewrite Hrun. simpl.
  apply searchRemoteRecords_Forall.
  intros entries entry label keyCID keyPeerID w0 w1 w2 Hscan Hw0 _ Hin Hparse _ _ _.
  split; [|apply calculateMatchScore_sublist].
  apply QueryAllNamespaces_sound in Hscan. rewrite Forall_forall in Hscan.
  specialize (Hscan entry Hin). rewrite Hw0, <- Hstore in Hscan.
  exists (ne_Key entry), (ne_Value entry). apply cached_entry_scan.
  exists entry. rewrite elem_of_scan, key_matches_true.
  unfold resp_cid. simpl. rewrite createPeerInfo_Id. eauto 10.
Qed.

(** X4. A search without queries finds nothing: when no query is left after
    deduplication, the answer is empty, whatever the store holds. *)
Theorem Search_without_queries (r : routing.routeRemote) (req : SearchRequest) (w : World) :
  deduplicateQueries (req_Queries req) = [] →
  fst (fst (routing.Search O r req w)) = [].
Proof.
  intros Hnone. destruct (Search_run O r req w) as (w' & _ & Hrun). rewrite Hrun. simpl.
  rewrite Hnone.
  assert (Hall : Forall (fun _ => False)
                   (fst (routing.searchRemoteRecords O r [] (req_Limit req)
                           (Z.max DefaultMinMatchScore (req_MinMatchScore req)) w'))).
  { apply searchRemoteRecords_Forall.
    intros entries entry label keyCID keyPeerID w0 w1 w2 _ _ _ _ _ _ _ Hmin.
    unfold routing.calculateMatchScore, DefaultMinMatchScore in Hmin. simpl in Hmin. lia. }
  destruct (fst (routing.searchRemoteRecords O r [] _ _ w')) as [|resp rest];
    [reflexivity|].
  inversion Hall as [|? ? Hfalse]. contradiction.
Qed.

(** *** When the scan does not fail *)

Lemma getRemoteRecordLabels_healthy (cid peerID : string) (w : World) :
  scan_healthy O →
  fst (routing.getRemoteRecordLabels O cid peerID w) = cached_labels (w_store w) cid peerID.
Proof.
  intros H. unfold routing.getRemoteRecordLabels. rewrite bind_run.
  rewrite QueryAllNamespaces_healthy by exact H. reflexivity.
Qed.

Lemma calculateMatchScore_healthy (cid : string) (queries : list RecordQuery)
    (peerID : string) (w : World) :
  scan_healthy O →
  fst (routing.calculateMatchScore O cid queries peerID w) =
  if Z.of_nat (length queries) =? 0 then ([], 0)
  else if Z.of_nat (length (cached_labels (w_store w) cid peerID)) =? 0 then ([], 0)
  else (cached_matches (w_store w) queries cid peerID,
        safeIntToUint32 (Z.of_nat (length (cached_matches (w_store w) queries cid peerID)))).
Proof.
  intros H. unfold routing.calculateMatchScore.
  destruct (Z.of_nat (length queries) =? 0); [reflexivity|].
  rewrite bind_run, getRemoteRecordLabels_healthy by exact H.
  destruct (Z.of_nat (length (cached_labels (w_store w) cid peerID)) =? 0); [reflexivity|].
  run. reflexivity.
Qed.

(** X5. When the namespace scans do not fail, the matching queries of every
    response of [Search] are exactly the queries of the request, after
    deduplication, that match the labels the datastore caches for the record
    and the peer of the response. *)
Theorem Search_match_queries_cached (r : routing.routeRemote) (req : SearchRequest)
    (w : World) :
  scan_healthy O →
  Forall (fun resp =>
            resp_MatchQueries resp =
            cached_matches (w_store w) (deduplicateQueries (req_Queries req))
                           (resp_cid resp) (peer_Id (resp_Peer resp)))
         (fst (fst (routing.Search O r req w))).
Proof.
  intros Hscan. destruct (Search_run O r req w) as (w' & [Hstore _] & Hrun).
  rewrite Hrun. simpl. apply searchRemoteRecords_Forall.
  intros entries entry label keyCID keyPeerID w0 w1 w2 _ _ _ _ _ _ Hw1 Hmin.
  unfold resp_cid. cbn [resp_MatchQueries resp_RecordRef ref_Cid resp_Peer].
  rewrite createPeerInfo_Id. revert Hmin.
  rewrite calculateMatchScore_healthy by exact Hscan. rewrite Hw1, <- Hstore.
  destruct (Z.eqb_spec (Z.of_nat (length (deduplicateQueries (req_Queries req)))) 0)
    as [Hnone|_].
  { intros _. destruct (deduplicateQueries (req_Queries req)); [reflexivity|].
    simpl length in Hnone. lia. }
  destruct (Z.of_nat (length (cached_labels _ _ _)) =? 0); [|reflexivity].
  unfold DefaultMinMatchScore. simpl. lia.
Qed.

(** *** Nothing that matches is missed *)

Lemma searchRemoteRecords_loop_marks (localPeerID : string) (queries : list RecordQuery)
    (limitInt minMatchScore : Z) (entries : list NamespaceEntry) :
  ∀ st w,
    (∀ c, c ∈ routing.processedCIDs st →
          ∃ resp, resp ∈ routing.outCh st ∧ resp_cid resp = c) →
    ∀ c, c ∈ routing.processedCIDs
               (fst (routing.searchRemoteRecords_loop O localPeerID queries limitInt
                       minMatchScore entries st w)) →
         ∃ resp,
           resp ∈ routing.outCh
                    (fst (routing.searchRemoteRecords_loop O localPeerID queries limitInt
                            minMatchScore entries st w)) ∧
           resp_cid resp = c.
Proof.
  induction entries as [|entry rest IH]; intros st w Hin; simpl; [exact Hin|].
  destruct ((0 <? limitInt) && (limitInt <=? routing.processedCount st)); [exact Hin|].
  destruct (ParseEnhancedLabelKey (ne_Key entry)) as [[[label keyCID] keyPeerID]|e];
    [|run; apply IH, Hin].
  destruct (bool_decide (keyPeerID = localPeerID)); [apply IH, Hin|].
  destruct (bool_decide (keyCID ∈ routing.processedCIDs st)); [apply IH, Hin|].
  run.
  destruct (minMatchScore <=? _); run; [|apply IH, Hin].
  match goal with
  | |- context [routing.mkSearchState ?cids ?count ?out] =>
      assert (Hsent : ∀ c, c ∈ routing.processedCIDs (routing.mkSearchState cids count out) →
                           ∃ resp, resp ∈ routing.outCh (routing.mkSearchState cids count out)
                                   ∧ resp_cid resp = c)
  end.
  { cbn [routing.processedCIDs routing.outCh]. intros c Hc.
    apply elem_of_union in Hc as [Hc|Hc].
    - apply elem_of_singleton in Hc as ->.
      match goal with
      | |- ∃ _, _ ∈ _ ++ [?resp] ∧ _ => exists resp
      end.
      split; [|reflexivity].
      apply elem_of_app. right. apply list_elem_of_singleton. reflexivity.
    - destruct (Hin c Hc) as (resp & Hresp & Hcid). exists resp. split; [|exact Hcid].
      apply elem_of_app. left. exact Hresp. }
  match goal with
  | |- context [if ?b then _ else _] => destruct b
  end; run; [exact Hsent|apply IH, Hsent].
Qed.

Lemma elem_of_cached_labels (store : gmap string bytes) (entry : NamespaceEntry)
    (label cid peerID : string) :
  entry ∈ scan store →
  ParseEnhancedLabelKey (ne_Key entry) = Ok (label, cid, peerID) →
  label ∈ cached_labels store cid peerID.
Proof.
  intros Hin Hparse. unfold cached_labels. apply list_elem_of_omap.
  exists entry. split; [exact Hin|]. rewrite Hparse.
  rewrite !bool_decide_eq_true_2 by reflexivity. reflexivity.
Qed.

(** Without a limit and with scans that do not fail, the loop marks the CID
    of every entry of another peer whose cached labels match enough queries. *)
Lemma searchRemoteRecords_loop_complete (store : gmap string bytes) (localPeerID : string)
    (queries : list RecordQuery) (limitInt minMatchScore : Z)
    (entries : list NamespaceEntry) :
  scan_healthy O →
  limitInt ≤ 0 →
  1 ≤ minMatchScore →
  (∀ entry, entry ∈ entries → entry ∈ scan store) →
  ∀ st w,
    w_store w = store →
    let st' := fst (routing.searchRemoteRecords_loop O localPeerID queries limitInt
                      minMatchScore entries st w) in
    (∀ c, c ∈ routing.processedCIDs st → c ∈ routing.processedCIDs st') ∧
    (∀ entry label c p,
        entry ∈ entries →
        ParseEnhancedLabelKey (ne_Key entry) = Ok (label, c, p) →
        p ≠ localPeerID →
        minMatchScore
        ≤ safeIntToUint32 (Z.of_nat (length (cached_matches store queries c p))) →
        c ∈ routing.processedCIDs st').
Proof.
  intros Hscan Hlimit Hmin.
  assert (Hnolimit : ∀ n, (0 <? limitInt) && (limitInt <=? n) = false).
  { intros n. destruct (Z.ltb_spec 0 limitInt); [lia|reflexivity]. }
  induction entries as [|entry rest IH]; intros Hentries st w Hstore; cbv zeta.
  { simpl. split; [auto|]. intros entry label c p H. inversion H. }
  assert (Hrest : ∀ entry', entry' ∈ rest → entry' ∈ scan store).
  { intros entry' H. apply Hentries. right. exact H. }
  specialize (IH Hrest).
  assert (Hskip : ∀ w',
             w_store w' = store →
             (∀ label c p,
                 ParseEnhancedLabelKey (ne_Key entry) = Ok (label, c, p) →
                 p ≠ localPeerID →
                 minMatchScore
                 ≤ safeIntToUint32 (Z.of_nat (length (cached_matches store queries c p))) →
                 c ∈ routing.processedCIDs st) →
             let st' := fst (routing.searchRemoteRecords_loop O localPeerID queries limitInt
                               minMatchScore rest st w') in
             (∀ c, c ∈ routing.processedCIDs st → c ∈ routing.processedCIDs st') ∧
             (∀ entry' label c p,
                 entry' ∈ entry :: rest →
                 ParseEnhancedLabelKey (ne_Key entry') = Ok (label, c, p) →
                 p ≠ localPeerID →
                 minMatchScore
                 ≤ safeIntToUint32 (Z.of_nat (length (cached_matches store queries c p))) →
                 c ∈ routing.processedCIDs st')).
  { intros w' Hw' Hthis. destruct (IH st w' Hw') as [Hmono Hmarks]. cbv zeta.
    split; [exact Hmono|].
    intros entry' label c p Hin Hparse Hremote Hscore.
    apply elem_of_cons in Hin as [->|Hin]; [|eapply Hmarks; eassumption].
    eapply Hmono, Hthis; eassumption. }
  simpl. rewrite Hnolimit.
  destruct (ParseEnhancedLabelKey (ne_Key entry)) as [[[label keyCID] keyPeerID]|e] eqn:Hparse.
  2: { run. apply Hskip; [exact Hstore|]. intros label c p [=]. }
  destruct (bool_decide_reflect (keyPeerID = localPeerID)) as [Hlocal|Hremote].
  { apply Hskip; [exact Hstore|]. intros label' c p [= _ _ <-] Hp. contradiction. }
  destruct (bool_decide_reflect (keyCID ∈ routing.processedCIDs st)) as [Hseen|Hfresh].
  { apply Hskip; [exact Hstore|]. intros label' c p [= _ <- _] _ _. exact Hseen. }
  run.
  pose proof (keeps_calculateMatchScore O keyCID queries keyPeerID w) as Hkeep.
  rewrite Hstore in Hkeep.
  rewrite (calculateMatchScore_healthy keyCID queries keyPeerID w Hscan), Hstore.
  assert (Hlabels : (Z.of_nat (length (cached_labels store keyCID keyPeerID)) =? 0) = false).
  { apply Z.eqb_neq.
    assert (Hl : label ∈ cached_labels store keyCID keyPeerID).
    { apply (elem_of_cached_labels store entry); [apply Hentries; left|exact Hparse]. }
    destruct (cached_labels store keyCID keyPeerID); [inversion Hl|simpl length; lia]. }
  destruct (Z.eqb_spec (Z.of_nat (length queries)) 0) as [Hnone|Hsome].
  { cbn [fst snd]. destruct (Z.leb_spec minMatchScore 0); [lia|]. run.
    apply Hskip; [exact Hkeep|].
    intros label' c p [= _ <- <-] _ Hscore.
    destruct queries; [|simpl length in Hnone; lia].
    unfold cached_matches in Hscore. simpl in Hscore.
    unfold safeIntToUint32 in Hscore. simpl in Hscore. lia. }
  rewrite Hlabels. cbn [fst snd].
  destruct (Z.leb_spec minMatchScore
              (safeIntToUint32 (Z.of_nat (length (cached_matches store queries keyCID
                                                    keyPeerID))))) as [Hscore|Hscore]; run.
  2: { apply Hskip; [exact Hkeep|]. intros label' c p [= _ <- <-] _ Hscore'. lia. }
  rewrite Hnolimit.
  match goal with
  | |- context [routing.createPeerInfo O keyPeerID ?w2] =>
      assert (Hkeep2 : w_store (snd (routing.createPeerInfo O keyPeerID w2)) = store)
        by (rewrite keeps_createPeerInfo; exact Hkeep)
  end.
  match goal with
  | |- context [routing.searchRemoteRecords_loop O _ _ _ _ rest ?st1 ?w3] =>
      destruct (IH st1 w3 Hkeep2) as [Hmono Hmarks]
  end.
  cbn [routing.processedCIDs] in Hmono.
  split.
  - intros c Hc. apply Hmono. apply elem_of_union_r. exact Hc.
  - intros entry' label' c p Hin Hparse' Hremote' Hscore'.
    apply elem_of_cons in Hin as [->|Hin]; [|eapply Hmarks; eassumption].
    rewrite Hparse in Hparse'. injection Hparse' as _ <- <-.
    apply Hmono. apply elem_of_union_l. apply elem_of_singleton. reflexivity.
Qed.

(** X6. Without a limit, and when the namespace scans do not fail, [Search]
    misses nothing: for every enhanced key the datastore holds for a record
    CID and a peer other than the local one, if the labels cached for that
    pair match at least [max(1, min_match_score)] of the deduplicated queries
    (counted as a 32-bit unsigned number), some response carries that CID. *)
Theorem Search_finds_cached_matches (r : routing.routeRemote) (req : SearchRequest)
    (w : World) (key : string) (value : bytes) (c p : string) :
  scan_healthy O →
  req_Limit req = 0 →
  cached_entry (w_store w) c p key value →
  p ≠ ID_String (routing.r_host_ID r) →
  Z.max 1 (req_MinMatchScore req)
  ≤ safeIntToUint32
      (Z.of_nat (length (cached_matches (w_store w) (deduplicateQueries (req_Queries req))
                                        c p))) →
  ∃ resp, resp ∈ fst (fst (routing.Search O r req w)) ∧ resp_cid resp = c.
Proof.
  intros Hscan Hlimit Hcached Hremote Hscore.
  destruct (Search_run O r req w) as (w' & [Hstore _] & Hrun). rewrite Hrun. simpl.
  unfold routing.searchRemoteRecords. run.
  rewrite QueryAllNamespaces_healthy by exact Hscan. run. rewrite <- Hstore.
  apply cached_entry_scan in Hcached as (entry & Hin & Hkey & _ & Hmatch).
  rewrite <- Hkey in Hmatch. apply key_matches_true in Hmatch as (label & Hparse).
  match goal with
  | |- context [routing.searchRemoteRecords_loop O ?l ?q ?li ?m ?es ?st ?w1] =>
      pose proof (λ H1 H2 H3, searchRemoteRecords_loop_complete (w_store w) l q li m es
                                Hscan H1 H2 H3 st w1) as Hcomplete;
      destruct Hcomplete as [_ Hmarks];
      [lia|unfold DefaultMinMatchScore; lia|auto|reflexivity|];
      apply (searchRemoteRecords_loop_marks l q li m es st w1)
  end.
  - intros c' Hc'. cbn [routing.processedCIDs] in Hc'. apply elem_of_empty in Hc'.
    contradiction.
  - eapply Hmarks; eauto.
Qed.

End SearchResults.

(** ** The namespace scan, continued *)

Section ScanFurther.
Context `{ext : Externals}.
Variable O : Oracle.

Lemma QueryAllNamespaces_loop_fails (nss : list string) :
  ∀ entries w,
    is_Ok (fst (routing.QueryAllNamespaces_loop O nss entries w)) = false ↔
    ∃ k, (k < length nss)%nat ∧ o_ctx_err O (w_tick w + 2 * k) ≠ None.
Proof.
  induction nss as [|ns nss IH]; intros entries w; simpl.
  - split; [discriminate|]. intros (k & Hk & _). lia.
  - run. destruct (o_ctx_err O (w_tick w)) as [e|] eqn:Hctx; run.
    + split; [intros _|reflexivity]. exists 0%nat. split; [lia|].
      replace (w_tick w + _)%nat with (w_tick w) by lia. rewrite Hctx. discriminate.
    + rewrite dstore_Query_run. run.
      assert (Hshift : (∃ k, (k < length nss)%nat ∧
                             o_ctx_err O (S (S (w_tick w)) + 2 * k) ≠ None) ↔
                       (∃ k, (k < S (length nss))%nat ∧
                             o_ctx_err O (w_tick w + 2 * k) ≠ None)).
      { split.
        - intros (k & Hk & Herr). exists (S k). split; [lia|].
          replace (w_tick w + 2 * S k)%nat with (S (S (w_tick w)) + 2 * k)%nat by lia.
          exact Herr.
        - intros ([|k] & Hk & Herr).
          + replace (w_tick w + _)%nat with (w_tick w) in Herr by lia.
            rewrite Hctx in Herr. contradiction.
          + exists k. split; [lia|].
            replace (S (S (w_tick w)) + 2 * k)%nat with (w_tick w + 2 * S k)%nat by lia.
            exact Herr. }
      rewrite <- Hshift.
      destruct (o_query_err O (S (w_tick w)) ns); run; apply IH.
Qed.

(** X7. [QueryAllNamespaces] fails only on cancellation: it returns an error
    exactly when the context is found cancelled at one of its four checks,
    one before the query of each namespace; a datastore query that fails is
    logged and skipped, and never fails the scan. *)
Theorem QueryAllNamespaces_fails_iff_cancelled (w : World) :
  is_Ok (fst (routing.QueryAllNamespaces O w)) = false ↔
  ∃ k, (k < 4)%nat ∧ o_ctx_err O (w_tick w + 2 * k) ≠ None.
Proof. apply QueryAllNamespaces_loop_fails. Qed.

(** X8. What [QueryAllNamespaces] lists. Whatever fails, every entry returned
    is held by the datastore, under a key that starts with the label
    namespace recorded in the entry; keys outside the four label namespaces
    are never listed. When nothing fails, the entries returned are exactly
    those of the datastore under the four namespaces, and the store is left
    as it was. *)
Theorem QueryAllNamespaces_lists_entries (w : World) :
  (∀ entries entry,
      fst (routing.QueryAllNamespaces O w) = Ok entries →
      entry ∈ entries →
      ne_Namespace entry ∈ routing.namespaces ∧
      String.prefix (ne_Namespace entry) (ne_Key entry) = true ∧
      w_store w !! ne_Key entry = Some (ne_Value entry)) ∧
  (scan_healthy O →
   ∃ entries,
     fst (routing.QueryAllNamespaces O w) = Ok entries ∧
     w_store (snd (routing.QueryAllNamespaces O w)) = w_store w ∧
     ∀ namespace key value,
       namespace ∈ routing.namespaces →
       String.prefix namespace key = true →
       w_store w !! key = Some value →
       mkNamespaceEntry namespace key value ∈ entries).
Proof.
  split.
  - intros entries entry Hscan Hin. apply QueryAllNamespaces_sound in Hscan.
    rewrite Forall_forall in Hscan. apply Hscan, Hin.
  - intros Hscan. exists (scan (w_store w)).
    rewrite QueryAllNamespaces_healthy by exact Hscan.
    split; [reflexivity|]. split; [reflexivity|].
    intros namespace key value Hns Hpre Hlook. apply elem_of_scan.
    split; [exact Hns|]. split; assumption.
Qed.

End ScanFurther.

(** ** Publishing, continued *)

Section PublishFurther.
Context `{ext : Externals}.
Variable O : Oracle.

Lemma Marshal_Ok (a : LabelAnnouncement) (data : bytes) :
  pubsub.Marshal a = Ok data ↔
  json_Marshal_ann a = Ok data ∧ Z.of_nat (length data) ≤ MaxMessageSize.
Proof.
  unfold pubsub.Marshal. destruct (json_Marshal_ann a) as [d|e].
  - destruct (Z.gtb_spec (Z.of_nat (length d)) MaxMessageSize) as [Hbig|Hfit].
    + split; [discriminate|]. intros [[= ->] Hle]. lia.
    + split; [intros [= ->]; auto|]. intros [[= ->] _]. reflexivity.
  - split; [discriminate|]. intros [[=] _].
Qed.

(** X9. [PublishLabels] publishes only what a receiver accepts, and once.
    With the announcement it builds (the given CID, the manager's peer
    identity, the given labels, the instant read from the clock): when the
    announcement is not well-formed (empty CID or peer identity, no label,
    more than [MaxLabelsPerAnnouncement] labels, zero instant), an error is
    returned and nothing is published; when something is published, it is the
    encoding of that announcement, well-formed and of at most
    [MaxMessageSize] bytes, and all the call leaves is that one publication,
    followed by the log line of success when one is written; and no error is
    returned only if the call left exactly that publication and that log
    line. The datastore is never touched. *)
Theorem PublishLabels_publishes_valid (m : pubsub.Manager) (cid : string)
    (labelList : list Label) (w : World) :
  let out := pubsub.PublishLabels O m cid labelList w in
  let ann := mkLabelAnnouncement cid (pubsub.m_localPeerID m) labelList
               (o_now O (w_tick w)) in
  let published := EvLog pubsub.logger LvlInfo "Published label announcement" in
  w_store (snd out) = w_store w ∧
  ∃ evs,
    w_trace (snd out) = w_trace w ++ evs ∧
    (¬ spec_well_formed ann → evs = [] ∧ fst out ≠ None) ∧
    (∀ data,
        EvTopicPublish data ∈ evs →
        spec_well_formed ann ∧
        json_Marshal_ann ann = Ok data ∧
        Z.of_nat (length data) ≤ MaxMessageSize ∧
        (evs = [EvTopicPublish data] ∨ evs = [EvTopicPublish data; published])) ∧
    (fst out = None → ∃ data, evs = [EvTopicPublish data; published]).
Proof.
  cbv zeta. unfold pubsub.PublishLabels. rewrite map_id. run.
  set (ann := mkLabelAnnouncement cid (pubsub.m_localPeerID m) labelList (o_now O (w_tick w))).
  destruct (pubsub.Validate ann) as [err|] eqn:Hvalid; run.
  { split; [reflexivity|]. exists []. rewrite app_nil_r. split; [reflexivity|].
    split; [intros _; split; [reflexivity|discriminate]|].
    split; [intros data H; inversion H|discriminate]. }
  apply Validate_None_iff in Hvalid.
  destruct (pubsub.Marshal ann) as [data|err] eqn:Hmarshal; run.
  2: { split; [reflexivity|]. exists []. rewrite app_nil_r. split; [reflexivity|].
       split; [intros H; contradiction|].
       split; [intros data H; inversion H|discriminate]. }
  apply Marshal_Ok in Hmarshal as [Hjson Hsize].
  destruct (o_topic_publish O (S (w_tick w)) data) as [err|]; run.
  - split; [reflexivity|]. exists [EvTopicPublish data]. split; [reflexivity|].
    split; [intros H; contradiction|]. split; [|discriminate].
    intros data' Hin. apply list_elem_of_singleton in Hin. injection Hin as ->.
    split; [assumption|]. split; [assumption|]. split; [assumption|].
    left. reflexivity.
  - split; [reflexivity|].
    exists [EvTopicPublish data;
            EvLog pubsub.logger LvlInfo "Published label announcement"].
    split; [rewrite <- app_assoc; reflexivity|].
    split; [intros H; contradiction|]. split.
    + intros data' Hin. apply elem_of_cons in Hin as [Hin|Hin].
      2: { apply list_elem_of_singleton in Hin. discriminate Hin. }
      injection Hin as ->. split; [assumption|]. split; [assumption|]. split; [assumption|].
      right. reflexivity.
    + intros _. exists data. reflexivity.
Qed.

Lemma keeps_PublishLabels (m : pubsub.Manager) (cid : string) (labelList : list Label) :
  keeps_store (pubsub.PublishLabels O m cid labelList).
Proof. unfold pubsub.PublishLabels. keeps_auto. Qed.

Lemma emits_PublishLabels (P : Event → Prop) (m : pubsub.Manager) (cid : string)
    (labelList : list Label) :
  (∀ lg lvl msg, P (EvLog lg lvl msg)) →
  (∀ data, P (EvTopicPublish data)) →
  emits P (pubsub.PublishLabels O m cid labelList).
Proof.
  intros Hlog Hpub. unfold pubsub.PublishLabels. cbv zeta.
  apply emits_bind; [apply emits_time_Now|intros now].
  destruct (pubsub.Validate _); [apply emits_ret|].
  destruct (pubsub.Marshal _) as [data|err]; [|apply emits_ret].
  apply emits_bind; [apply emits_topic_Publish, Hpub|intros res].
  destruct res; [apply emits_ret|].
  apply emits_bind; [apply emits_log, Hlog|intros _]. apply emits_ret.
Qed.

(** X10. [Publish] announces in order and writes nothing. It never touches
    the datastore. It asks the DHT to provide only the CID decoded from the
    reference, and gossips the labels only after the DHT accepted that
    request, only when a gossip manager is set up, and only for a record that
    has labels: when the CID does not decode nothing is announced at all, and
    when the DHT refuses nothing is gossiped. *)
Theorem Publish_announces_in_order (r : routing.routeRemote) (ref : RecordRef)
    (record : corev1_Record) (w : World) :
  let out := routing.Publish O r ref record w in
  w_store (snd out) = w_store w ∧
  ∃ evs,
    w_trace (snd out) = w_trace w ++ evs ∧
    Forall (fun e =>
              match e with
              | EvLog _ _ _ => True
              | EvProvide c => cid_Decode (ref_Cid ref) = Ok c
              | EvTopicPublish _ =>
                  ∃ c mgr,
                    cid_Decode (ref_Cid ref) = Ok c ∧
                    o_provide O (w_tick w) c = None ∧
                    routing.r_pubsubManager r = Some mgr ∧
                    GetLabelsFromRecord record ≠ []
              | _ => False
              end) evs.
Proof.
  cbv zeta. split.
  { apply (keeps_bind (log _ _ _)); [apply keeps_log|intros _].
    unfold routing.publishToNetwork.
    apply keeps_bind; [|intros e; keeps_auto].
    destruct (cid_Decode (ref_Cid ref)); [|apply keeps_ret].
    apply keeps_bind; [apply keeps_DHT_Provide|intros perr].
    destruct perr; [apply keeps_ret|].
    destruct (routing.r_pubsubManager r); [|apply keeps_ret].
    destruct (0 <? _); [|apply keeps_ret].
    apply keeps_bind; [apply keeps_PublishLabels|intros gerr]. keeps_auto. }
  unfold routing.Publish, routing.publishToNetwork. run.
  destruct (cid_Decode (ref_Cid ref)) as [c|e] eqn:Hd; run.
  2: { eexists. split; [reflexivity|]. repeat constructor. }
  destruct (o_provide O (w_tick w) c) as [pe|] eqn:Hp; run.
  { eexists. split; [rewrite <- app_assoc; reflexivity|]. repeat constructor. }
  destruct (routing.r_pubsubManager r) as [mgr|] eqn:Hmgr; run.
  2: { eexists. split; [rewrite <- !app_assoc; reflexivity|]. repeat constructor. }
  destruct (GetLabelsFromRecord record) as [|label labels] eqn:Hlabels.
  { simpl. run. eexists. split; [rewrite <- !app_assoc; reflexivity|]. repeat constructor. }
  replace (0 <? Z.of_nat (length (label :: labels))) with true
    by (symmetry; apply Z.ltb_lt; simpl length; lia).
  run.
  match goal with
  | |- context [pubsub.PublishLabels O mgr ?cid ?ls ?w1] =>
      destruct (emits_PublishLabels
                  (fun e => match e with
                            | EvLog _ _ _ | EvTopicPublish _ => True
                            | _ => False
                            end) mgr cid ls ltac:(intros; exact I) ltac:(intros; exact I) w1)
        as (evs & Htrace & Hevs);
      destruct (fst (pubsub.PublishLabels O mgr cid ls w1))
  end; run; rewrite Htrace; cbn [w_trace];
    (eexists; split; [rewrite <- !app_assoc; reflexivity|]);
    (constructor; [exact I|]); (constructor; [reflexivity|]);
    (apply Forall_app; split; [|repeat constructor]);
    (eapply Forall_impl; [exact Hevs|]);
    (intros [| | | |data] He; try contradiction; try exact I; exists c, mgr;
     repeat split; try assumption; discriminate).
Qed.

End PublishFurther.

(** ** The gossip path, from publisher to cache *)

Section GossipCache.
Context `{ext : Externals}.
Variable O : Oracle.

(** The loop of [handleLabelAnnouncement]: what it appends, and what the
    store holds afterwards. *)
Lemma cacheAnnouncedLabels_loop_puts (ann : LabelAnnouncement) (now : Time) (b : bytes)
    (labelStrs : list string) :
  json_Marshal_meta (mkLabelMetadata (ann_Timestamp ann) now) = Ok b →
  ∀ cachedCount w,
    let w' := snd (routing.cacheAnnouncedLabels_loop O ann now labelStrs cachedCount w) in
    let key := fun label =>
                 datastore_NewKey (BuildEnhancedLabelKey label (ann_CID ann)
                                                         (ann_PeerID ann)) in
    (∃ evs,
        w_trace w' = w_trace w ++ evs ∧
        (∀ label, label ∈ labelStrs → EvPut (key label) b ∈ evs) ∧
        (∀ e, e ∈ evs → is_Log e ∨ ∃ label, label ∈ labelStrs ∧ e = EvPut (key label) b)) ∧
    (∀ k, w_store w !! k = Some b → w_store w' !! k = Some b) ∧
    (∀ k, (∀ label, label ∈ labelStrs → k ≠ key label) → w_store w' !! k = w_store w !! k) ∧
    (put_healthy O → ∀ label, label ∈ labelStrs → w_store w' !! key label = Some b).
Proof.
  intros Henc. induction labelStrs as [|label rest IH]; intros cachedCount w; cbv zeta.
  - simpl. split.
    { exists []. rewrite app_nil_r. split; [reflexivity|].
      split; [intros l H; inversion H|intros e H; inversion H]. }
    split; [auto|]. split; [auto|]. intros _ l H. inversion H.
  - simpl. rewrite Henc. run.
    set (key := datastore_NewKey
                  (BuildEnhancedLabelKey label (ann_CID ann) (ann_PeerID ann))).
    destruct (o_put_err O (w_tick w) key) as [err|] eqn:Hput; run.
    + match goal with
      | |- context [routing.cacheAnnouncedLabels_loop O _ _ _ ?c ?w1] =>
          destruct (IH c w1) as ((evs & Htrace & Hputs & Honly) & Hkeep & Hframe & Hstore)
      end.
      cbn [w_store w_trace] in *.
      split; [|split; [|split]].
      * eexists. split; [rewrite Htrace, <- !app_assoc; reflexivity|]. split.
        -- intros l Hl. apply elem_of_cons in Hl as [->|Hl]; [left|].
           right. right. apply Hputs, Hl.
        -- intros e He. apply elem_of_cons in He as [->|He].
           { right. exists label. split; [left|reflexivity]. }
           apply elem_of_cons in He as [->|He]; [left; exact I|].
           destruct (Honly e He) as [Hlog|(l & Hl & ->)]; [left; exact Hlog|].
           right. exists l. split; [right; exact Hl|reflexivity].
      * exact Hkeep.
      * intros k Hk. apply Hframe. intros l Hl. apply Hk. right. exact Hl.
      * intros Hhealthy. rewrite Hhealthy in Hput. discriminate.
    + match goal with
      | |- context [routing.cacheAnnouncedLabels_loop O _ _ _ ?c ?w1] =>
          destruct (IH c w1) as ((evs & Htrace & Hputs & Honly) & Hkeep & Hframe & Hstore)
      end.
      cbn [w_store w_trace] in *.
      split; [|split; [|split]].
      * eexists. split; [rewrite Htrace, <- !app_assoc; reflexivity|]. split.
        -- intros l Hl. apply elem_of_cons in Hl as [->|Hl]; [left|].
           right. apply Hputs, Hl.
        -- intros e He. apply elem_of_cons in He as [->|He].
           { right. exists label. split; [left|reflexivity]. }
           destruct (Honly e He) as [Hlog|(l & Hl & ->)]; [left; exact Hlog|].
           right. exists l. split; [right; exact Hl|reflexivity].
      * intros k Hk. apply Hkeep.
        destruct (decide (key = k)) as [<-|Hne];
          [apply lookup_insert_eq|rewrite lookup_insert_ne by exact Hne; exact Hk].
      * intros k Hk. rewrite Hframe by (intros l Hl; apply Hk; right; exact Hl).
        apply lookup_insert_ne. intros Heq. apply (Hk label); [left|]. symmetry. exact Heq.
      * intros Hhealthy l Hl. apply elem_of_cons in Hl as [->|Hl]; [|apply Hstore; assumption].
        apply Hkeep. apply lookup_insert_eq.
Qed.

(** X11. What the gossip callback caches. For an announcement of another
    peer, [handleLabelAnnouncement] reads the clock once and writes, for every
    announced label, the enhanced key built from the label, the announced CID
    and the announcing peer, with the metadata
    [{timestamp: announced timestamp, last_seen: now}]; it writes nothing
    else, and leaves every other key of the datastore as it was. When the
    datastore takes the writes, it then holds that metadata under each of
    these keys. *)
Theorem handleLabelAnnouncement_caches (r : routing.routeRemote) (ann : LabelAnnouncement)
    (w : World) (b : bytes) :
  let final := snd (routing.handleLabelAnnouncement O r ann w) in
  let key := fun label =>
               datastore_NewKey (BuildEnhancedLabelKey label (ann_CID ann)
                                                       (ann_PeerID ann)) in
  ann_PeerID ann ≠ ID_String (routing.r_host_ID r) →
  json_Marshal_meta (mkLabelMetadata (ann_Timestamp ann) (o_now O (w_tick w))) = Ok b →
  (∃ evs,
      w_trace final = w_trace w ++ evs ∧
      (∀ label, label ∈ ann_Labels ann → EvPut (key label) b ∈ evs) ∧
      (∀ e, e ∈ evs → is_Log e ∨ ∃ label, label ∈ ann_Labels ann ∧ e = EvPut (key label) b)) ∧
  (∀ k, (∀ label, label ∈ ann_Labels ann → k ≠ key label) →
        w_store final !! k = w_store w !! k) ∧
  (put_healthy O → ∀ label, label ∈ ann_Labels ann → w_store final !! key label = Some b).
Proof.
  cbv zeta. intros Hremote Henc. unfold routing.handleLabelAnnouncement.
  rewrite bool_decide_eq_false_2 by exact Hremote. run.
  match goal with
  | |- context [routing.cacheAnnouncedLabels_loop O ann ?now ?ls ?c ?w1] =>
      destruct (cacheAnnouncedLabels_loop_puts ann now b ls Henc c w1)
        as ((evs & Htrace & Hputs & Honly) & _ & Hframe & Hstore)
  end.
  cbn [w_store w_trace] in *.
  split; [|split; assumption].
  eexists. split; [rewrite Htrace, <- !app_assoc; reflexivity|]. split.
  - intros label Hl. right. apply elem_of_app. left. apply Hputs, Hl.
  - intros e He. apply elem_of_cons in He as [->|He]; [left; exact I|].
    apply elem_of_app in He as [He|He]; [apply Honly, He|].
    apply list_elem_of_singleton in He as ->. left. exact I.
Qed.

End GossipCache.

Section GossipEndToEnd.
Context `{ext : Externals}.
Variables OA OB : Oracle.

(** X12. From publisher to cache. When node A publishes the labels of a
    record without error, what it put on the topic, delivered to any other
    node B by any peer other than B itself, is accepted by B and cached: B
    writes, for every published label, the enhanced key built from the label,
    the CID and A's identity, with A's publication instant as [timestamp] and
    B's clock reading as [last_seen], and holds it when its datastore takes
    the writes. The encoding library is assumed to decode what it encoded. *)
Theorem gossip_publish_then_receive (A B from : peer_ID) (cid : string)
    (labelList : list Label) (wA wB : World) (b : bytes) :
  let ann := mkLabelAnnouncement cid (ID_String A) labelList (o_now OA (w_tick wA)) in
  fst (pubsub.PublishLabels OA (pubsub.New A) cid labelList wA) = None →
  json_roundtrips ann →
  A ≠ B → from ≠ B →
  json_Marshal_meta (mkLabelMetadata (o_now OA (w_tick wA)) (o_now OB (w_tick wB))) = Ok b →
  ∃ data evsA,
    w_trace (snd (pubsub.PublishLabels OA (pubsub.New A) cid labelList wA))
    = w_trace wA ++ evsA ∧
    EvTopicPublish data ∈ evsA ∧
    let final := snd (pubsub.handleMessage (routing.newRemote_manager OB B)
                        (mkMessage from data) wB) in
    ∃ evsB,
      w_trace final = w_trace wB ++ evsB ∧
      ∀ label, label ∈ labelList →
        EvPut (datastore_NewKey (BuildEnhancedLabelKey label cid (ID_String A))) b ∈ evsB ∧
        (put_healthy OB →
         w_store final !! datastore_NewKey (BuildEnhancedLabelKey label cid (ID_String A))
         = Some b).
Proof.
  cbv zeta. intros Hok Hrt HAB Hfrom Henc.
  set (ann := mkLabelAnnouncement cid (ID_String A) labelList (o_now OA (w_tick wA))).
  assert (Hpublished : ∃ data,
             pubsub.Marshal ann = Ok data ∧
             spec_well_formed ann ∧
             w_trace (snd (pubsub.PublishLabels OA (pubsub.New A) cid labelList wA))
             = w_trace wA ++ [EvTopicPublish data;
                              EvLog pubsub.logger LvlInfo "Published label announcement"]).
  { revert Hok. unfold pubsub.PublishLabels. rewrite map_id. run.
    change (pubsub.m_localPeerID (pubsub.New A)) with (ID_String A). fold ann.
    destruct (pubsub.Validate ann) eqn:Hvalid; run; [discriminate|].
    apply Validate_None_iff in Hvalid.
    destruct (pubsub.Marshal ann) as [data|err]; run; [|discriminate].
    destruct (o_topic_publish OA _ data); run; [discriminate|].
    intros _. exists data. split; [reflexivity|]. split; [exact Hvalid|].
    rewrite <- app_assoc. reflexivity. }
  destruct Hpublished as (data & Hmarshal & Hwf & HtraceA).
  exists data. eexists. split; [exact HtraceA|]. split; [left|].
  apply Marshal_Ok in Hmarshal as [Hjson Hsize].
  assert (Hdecode : pubsub.UnmarshalLabelAnnouncement data = Ok ann).
  { apply UnmarshalLabelAnnouncement_Ok_iff. auto. }
  unfold pubsub.handleMessage. cbn [pubsub.m_host_ID routing.newRemote_manager
    pubsub.SetOnLabelAnnouncement pubsub.New pubsub.m_onLabelAnnouncement
    msg_ReceivedFrom msg_Data].
  rewrite bool_decide_eq_false_2 by exact Hfrom. rewrite Hdecode. run.
  unfold routing.handleLabelAnnouncement.
  cbn [routing.r_host_ID ann_PeerID ann].
  rewrite bool_decide_eq_false_2 by exact HAB. run.
  match goal with
  | |- context [routing.cacheAnnouncedLabels_loop OB ann ?now ?ls ?c ?w1] =>
      destruct (cacheAnnouncedLabels_loop_puts OB ann now b ls Henc c w1)
        as ((evs & Htrace & Hputs & _) & _ & _ & Hstore)
  end.
  cbn [w_store w_trace ann_CID ann_PeerID ann ann_Labels] in *.
  eexists. split; [rewrite Htrace, <- !app_assoc; reflexivity|].
  intros label Hl. split.
  - right. right. apply elem_of_app. left. apply Hputs, Hl.
  - intros Hput. apply Hstore; assumption.
Qed.

End GossipEndToEnd.

(** ** The reconciler, continued *)

Section KeepsKeys.
Context `{ext : Externals}.
Variable O : Oracle.

Lemma keeps_keys_of_store {A} (m : M A) : keeps_store m → keeps_keys m.
Proof. intros Hm w k Hk. rewrite Hm. exact Hk. Qed.

Lemma keeps_keys_bind {A B} (m : M A) (k : A -> M B) :
  keeps_keys m → (∀ a, keeps_keys (k a)) → keeps_keys (bind m k).
Proof. intros Hm Hk w key Hkey. rewrite bind_run. apply Hk, Hm, Hkey. Qed.

Lemma keeps_keys_dstore_Put (key : string) (value : bytes) :
  keeps_keys (dstore_Put O key value).
Proof.
  intros w k Hk. rewrite dstore_Put_run.
  destruct (o_put_err O (w_tick w) key); cbn [snd w_store]; [exact Hk|].
  destruct (decide (key = k)) as [->|Hne];
    [rewrite lookup_insert_eq; eauto|rewrite lookup_insert_ne by exact Hne; exact Hk].
Qed.

End KeepsKeys.

Ltac keeps_keys_step :=
  match goal with
  | |- keeps_keys (bind _ _) => apply keeps_keys_bind; [|intros ?]
  | |- keeps_keys (dstore_Put _ _ _) => apply keeps_keys_dstore_Put
  | |- keeps_keys (ret _) => apply keeps_keys_of_store, keeps_ret
  | |- keeps_keys (log _ _ _) => apply keeps_keys_of_store, keeps_log
  | |- keeps_keys (ctx_Err _) => apply keeps_keys_of_store, keeps_ctx_Err
  | |- keeps_keys (time_Now _) => apply keeps_keys_of_store, keeps_time_Now
  | |- keeps_keys (dstore_Get _ _) => apply keeps_keys_of_store, keeps_dstore_Get
  | |- keeps_keys (dstore_Query _ _) => apply keeps_keys_of_store, keeps_dstore_Query
  | |- keeps_keys (service_Pull _ _ _) => apply keeps_keys_of_store, keeps_service_Pull
  | H : context [keeps_keys _] |- keeps_keys _ => apply H
  | |- keeps_keys (match ?x with _ => _ end) => destruct x
  end.

Ltac keeps_keys_auto := cbv zeta; repeat keeps_keys_step.

Section ReconcilerFurther.
Context `{ext : Externals}.
Variable O : Oracle.

(** *** Peer addresses *)

Lemma dirValue_protocols_result (addr : ma_Multiaddr) (protocols : list Z) (w : World) :
  fst (routing.dirValue_protocols addr protocols w) =
  if bool_decide (p2p_DirProtocolCode ∈ protocols) then
    match ma_ValueForProtocol addr p2p_DirProtocolCode with
    | Ok value => Some value
    | Err _ => None
    end
  else None.
Proof.
  revert w. induction protocols as [|code rest IH]; intros w; simpl; [reflexivity|].
  destruct (Z.eqb_spec code p2p_DirProtocolCode) as [->|Hne].
  - rewrite bool_decide_eq_true_2 by left.
    destruct (ma_ValueForProtocol addr p2p_DirProtocolCode); run; [reflexivity|].
    rewrite IH. destruct (bool_decide _); reflexivity.
  - rewrite IH.
    rewrite (bool_decide_ext (p2p_DirProtocolCode ∈ rest)
               (p2p_DirProtocolCode ∈ code :: rest)); [reflexivity|].
    split; [intros H; right; exact H|].
    intros H. apply elem_of_cons in H as [H|H]; [congruence|exact H].
Qed.

Lemma dirValue_addrs_result (multiaddrs : list ma_Multiaddr) (w : World) :
  fst (routing.dirValue_addrs multiaddrs w) = first_dir_value multiaddrs.
Proof.
  revert w. induction multiaddrs as [|addr rest IH]; intros w; simpl; [reflexivity|].
  run. rewrite dirValue_protocols_result.
  destruct (bool_decide _); [|apply IH].
  destruct (ma_ValueForProtocol addr p2p_DirProtocolCode); run; [reflexivity|apply IH].
Qed.

(** X13. Addresses learned from a notification are the ones served. When a
    provider notification brings addresses for a peer that has none stored,
    and the datastore answers reads and takes the write, [createPeerInfo]
    afterwards returns, for that peer, the [dir] protocol value of the first
    of these addresses that has one (the empty string when none has), as its
    single address; and addresses brought by later notifications do not
    replace the stored ones. The encoding library is assumed to decode what
    it encoded. *)
Theorem learned_address_is_served (peerIDStr : string) (addrs : list ma_Multiaddr)
    (encoded : bytes) (w : World) :
  let key := datastore_NewKey ("peer_addrs/" +:+ peerIDStr) in
  let learned := snd (routing.learnPeerAddrs O peerIDStr addrs w) in
  addrs ≠ [] →
  (∀ n k, o_get_err O n k = None) →
  o_put_err O (S (w_tick w)) key = None →
  w_store w !! key = None →
  json_Marshal_addrs addrs = Ok encoded →
  json_Unmarshal_addrs encoded = Ok addrs →
  fst (routing.createPeerInfo O peerIDStr learned)
  = mkPeer peerIDStr [first_dir_value addrs] ∧
  ∀ addrs',
    w_store (snd (routing.learnPeerAddrs O peerIDStr addrs' learned)) = w_store learned.
Proof.
  cbv zeta. intros Hsome Hget Hput Hnone Henc Hdec.
  set (key := datastore_NewKey ("peer_addrs/" +:+ peerIDStr)) in *.
  assert (Hlearned : w_store (snd (routing.learnPeerAddrs O peerIDStr addrs w)) !! key
                     = Some encoded).
  { unfold routing.learnPeerAddrs.
    destruct addrs as [|addr rest]; [contradiction|].
    replace (0 <? Z.of_nat (length (addr :: rest))) with true
      by (symmetry; apply Z.ltb_lt; simpl length; lia).
    fold key. run. rewrite Hget, Hnone, Henc. run. rewrite Hput. run.
    apply lookup_insert_eq. }
  split.
  - unfold routing.createPeerInfo, routing.getDirectoryAPIAddress. fold key. run.
    rewrite Hget, Hlearned, Hdec. run. rewrite dirValue_addrs_result. reflexivity.
  - intros addrs'. unfold routing.learnPeerAddrs at 1.
    destruct (0 <? Z.of_nat (length addrs')); [|reflexivity].
    fold key. run. rewrite Hget, Hlearned. run. reflexivity.
Qed.

(** *** The refresh touches nothing else *)

Lemma updateLabelMetadataTimestamp_store_cases (key : string) (value : bytes) (now : Time)
    (w : World) :
  let store' := w_store (snd (routing.updateLabelMetadataTimestamp O key value now w)) in
  store' = w_store w ∨ ∃ b, store' = <[datastore_NewKey key := b]> (w_store w).
Proof.
  cbv zeta. unfold routing.updateLabelMetadataTimestamp.
  destruct (json_Unmarshal_meta value) as [m|e]; run; [|left; reflexivity].
  destruct (json_Marshal_meta _) as [b|e]; run; [|left; reflexivity].
  destruct (o_put_err O (w_tick w) (datastore_NewKey key)); run;
    [left; reflexivity|right; eauto].
Qed.

Lemma updateRemoteRecordLastSeen_loop_frame (cid peerID : string) (now : Time)
    (snapshot : gmap string bytes) (entries : list NamespaceEntry) :
  keys_clean snapshot →
  Forall (entry_of snapshot) entries →
  ∀ updatedCount w,
    dom (w_store w) = dom snapshot →
    let store' :=
      w_store (snd (routing.updateRemoteRecordLastSeen_loop O cid peerID now entries
                      updatedCount w)) in
    dom store' = dom snapshot ∧
    ∀ key, key_matches cid peerID key = false → store' !! key = w_store w !! key.
Proof.
  intros Hclean Hentries.
  induction Hentries as [|entry rest (_ & _ & Hentry) _ IH]; intros updatedCount w Hdom;
    cbv zeta; simpl; [auto|].
  pose proof (eq_refl (key_matches cid peerID (ne_Key entry))) as Hmatch.
  unfold key_matches at 1 in Hmatch.
  destruct (ParseEnhancedLabelKey (ne_Key entry)) as [[[label keyCID] keyPeerID]|e];
    [|apply IH, Hdom].
  destruct (bool_decide (keyCID = cid) && bool_decide (keyPeerID = peerID));
    [|apply IH, Hdom].
  rewrite bind_run.
  pose proof (updateLabelMetadataTimestamp_store_cases (ne_Key entry) (ne_Value entry) now w)
    as Hcases.
  cbv zeta in Hcases. rewrite (Hclean _ _ Hentry) in Hcases.
  assert (Hstep : dom (w_store (snd (routing.updateLabelMetadataTimestamp O (ne_Key entry)
                                       (ne_Value entry) now w))) = dom snapshot ∧
                  ∀ key, key_matches cid peerID key = false →
                         w_store (snd (routing.updateLabelMetadataTimestamp O (ne_Key entry)
                                         (ne_Value entry) now w)) !! key
                         = w_store w !! key).
  { destruct Hcases as [->|(b & ->)]; [auto|]. split.
    - rewrite dom_insert_lookup_L; [exact Hdom|].
      apply elem_of_dom. rewrite Hdom. apply elem_of_dom. eauto.
    - intros key Hkey. apply lookup_insert_ne. intros <-. congruence. }
  destruct Hstep as [Hdom1 Hframe1].
  destruct (fst (routing.updateLabelMetadataTimestamp O _ _ _ _)); rewrite bind_run;
    rewrite log_run; cbn [fst snd];
    match goal with
    | |- context [routing.updateRemoteRecordLastSeen_loop O _ _ _ rest ?c ?w1] =>
        destruct (IH c w1) as [Hdom2 Hframe2]; [exact Hdom1|]
    end;
    (split; [exact Hdom2|]); intros key Hkey; rewrite Hframe2 by exact Hkey;
    apply Hframe1, Hkey.
Qed.

(** X14. The refresh of [last_seen] touches nothing else. Whatever fails,
    [updateRemoteRecordLastSeen] for a pair (CID, peer), run on a datastore
    whose keys are in the form [datastore.NewKey] gives, neither adds nor
    removes a key, and leaves the value of every key that is not an enhanced
    key of that pair as it was. *)
Theorem updateRemoteRecordLastSeen_frame (cid peerID : string) (w : World) :
  let final := snd (routing.updateRemoteRecordLastSeen O cid peerID w) in
  keys_clean (w_store w) →
  dom (w_store final) = dom (w_store w) ∧
  ∀ key, key_matches cid peerID key = false → w_store final !! key = w_store w !! key.
Proof.
  cbv zeta. intros Hclean. unfold routing.updateRemoteRecordLastSeen. run.
  match goal with
  | |- context [routing.QueryAllNamespaces O ?w1] =>
      pose proof (keeps_QueryAllNamespaces_loop O routing.namespaces [] w1) as Hkeep;
      pose proof (QueryAllNamespaces_sound O w1) as Hsound;
      fold (routing.QueryAllNamespaces O) in Hkeep;
      destruct (fst (routing.QueryAllNamespaces O w1)) as [entries|e]
  end; cbn [w_store] in *; run; rewrite ?Hkeep; [|auto].
  match goal with
  | |- context [routing.updateRemoteRecordLastSeen_loop O ?c ?p ?now ?es ?cnt ?w2] =>
      destruct (updateRemoteRecordLastSeen_loop_frame c p now (w_store w) es Hclean
                  (Hsound es eq_refl) cnt w2) as [Hdom Hframe]; [exact (f_equal dom Hkeep)|]
  end.
  rewrite Hkeep in Hframe. auto.
Qed.

(** *** What the notification handler may do *)

Lemma writes_of_logs {A} (m : M A) : emits is_Log m → emits is_Write m.
Proof. apply emits_weaken. intros [] H; try contradiction; exact I. Qed.

Lemma writes_updateRemoteRecordLastSeen_loop (cid peerID : string) (now : Time)
    (entries : list NamespaceEntry) :
  ∀ updatedCount,
    emits is_Write
          (routing.updateRemoteRecordLastSeen_loop O cid peerID now entries updatedCount).
Proof.
  induction entries as [|entry rest IH]; intros updatedCount; simpl; [apply emits_ret|].
  destruct (ParseEnhancedLabelKey (ne_Key entry)) as [[[label keyCID] keyPeerID]|e];
    [|apply IH].
  destruct (bool_decide (keyCID = cid) && bool_decide (keyPeerID = peerID)); [|apply IH].
  unfold routing.updateLabelMetadataTimestamp. emits_auto; exact I.
Qed.

Lemma writes_updateRemoteRecordLastSeen (cid peerID : string) :
  emits is_Write (routing.updateRemoteRecordLastSeen O cid peerID).
Proof.
  unfold routing.updateRemoteRecordLastSeen.
  apply emits_bind; [apply emits_time_Now|intros now].
  apply emits_bind; [apply writes_of_logs, logs_QueryAllNamespaces_loop|intros q].
  destruct q; [|apply emits_log; exact I].
  apply emits_bind; [apply writes_updateRemoteRecordLastSeen_loop|intros _].
  apply emits_log. exact I.
Qed.

Lemma writes_learnPeerAddrs (peerIDStr : string) (addrs : list ma_Multiaddr) :
  emits is_Write (routing.learnPeerAddrs O peerIDStr addrs).
Proof. unfold routing.learnPeerAddrs. emits_auto; exact I. Qed.

Lemma writes_hasRemoteRecordCached (cid peerID : string) :
  emits is_Write (routing.hasRemoteRecordCached O cid peerID).
Proof.
  unfold routing.hasRemoteRecordCached.
  apply emits_bind; [apply writes_of_logs, logs_QueryAllNamespaces_loop|intros q].
  emits_auto. exact I.
Qed.

Lemma writes_cachePulledLabels_loop (cid peerIDStr : string) (now : Time)
    (labelList : list Label) :
  ∀ cachedCount,
    emits is_Write (routing.cachePulledLabels_loop O cid peerIDStr now labelList cachedCount).
Proof.
  induction labelList as [|label rest IH]; intros cachedCount; simpl; emits_auto; exact I.
Qed.

Lemma keeps_hasRemoteRecordCached (cid peerID : string) :
  keeps_store (routing.hasRemoteRecordCached O cid peerID).
Proof.
  unfold routing.hasRemoteRecordCached.
  apply keeps_bind; [apply keeps_QueryAllNamespaces_loop|intros q]. keeps_auto.
Qed.

(** X15. What the notification handler may do. Whatever the notification and
    whatever fails, [handleCIDProviderNotification] leaves only log lines,
    datastore writes and pulls; it never announces anything. It pulls nothing
    but the notified record, from the notifying peer, and never from the
    local node; and a notification about the local node itself writes
    nothing and leaves the datastore as it was. *)
Theorem handleCIDProviderNotification_events (r : routing.routeRemote)
    (notif : routing.handlerSync) (w : World) :
  let peerIDStr := ID_String (routing.ai_ID (routing.hs_Peer notif)) in
  let final := snd (routing.handleCIDProviderNotification O r notif w) in
  (∃ evs,
      w_trace final = w_trace w ++ evs ∧
      Forall (fun e =>
                match e with
                | EvLog _ _ _ => True
                | EvPut _ _ => peerIDStr ≠ ID_String (routing.r_host_ID r)
                | EvPull p ref =>
                    p = routing.ai_ID (routing.hs_Peer notif) ∧
                    ref = routing.hs_Ref notif ∧
                    peerIDStr ≠ ID_String (routing.r_host_ID r)
                | _ => False
                end) evs) ∧
  (peerIDStr = ID_String (routing.r_host_ID r) → w_store final = w_store w).
Proof.
  cbv zeta. split.
  - revert w. unfold routing.handleCIDProviderNotification. cbv zeta.
    destruct (bool_decide_reflect (ID_String (routing.ai_ID (routing.hs_Peer notif))
                                   = ID_String (routing.r_host_ID r))) as [|Hremote];
      [apply emits_log; exact I|].
    assert (Hwrite : ∀ A (m : M A),
               emits is_Write m →
               emits (fun e =>
                        match e with
                        | EvLog _ _ _ => True
                        | EvPut _ _ =>
                            ID_String (routing.ai_ID (routing.hs_Peer notif))
                            ≠ ID_String (routing.r_host_ID r)
                        | EvPull p ref =>
                            p = routing.ai_ID (routing.hs_Peer notif) ∧
                            ref = routing.hs_Ref notif ∧
                            ID_String (routing.ai_ID (routing.hs_Peer notif))
                            ≠ ID_String (routing.r_host_ID r)
                        | _ => False
                        end) m).
    { intros A m. apply emits_weaken. intros [] H; try contradiction; auto. }
    apply emits_bind; [apply Hwrite, writes_learnPeerAddrs|intros _].
    apply emits_bind; [apply Hwrite, writes_hasRemoteRecordCached|intros cached].
    destruct cached.
    + apply emits_bind; [apply emits_log; exact I|intros _].
      apply Hwrite, writes_updateRemoteRecordLastSeen.
    + apply emits_bind; [apply emits_log; exact I|intros _].
      apply emits_bind; [apply emits_service_Pull; auto|intros pulled].
      destruct pulled as [record|err]; [|apply emits_log; exact I].
      destruct (Z.of_nat (length (GetLabelsFromRecord record)) =? 0);
        [apply emits_log; exact I|].
      apply emits_bind; [apply emits_time_Now|intros now].
      apply emits_bind; [apply Hwrite, writes_cachePulledLabels_loop|intros _].
      apply emits_log. exact I.
  - intros Hself. unfold routing.handleCIDProviderNotification. cbv zeta.
    rewrite bool_decide_eq_true_2 by exact Hself. reflexivity.
Qed.

(** X16. A pull that brings no labels caches nothing. For a notification
    about a remote pair for which the datastore holds no enhanced key, when
    the pull fails or returns a record without labels, the handler leaves the
    datastore as it was once the addresses of the peer were recorded: no
    label is cached for the pair. *)
Theorem failed_pull_caches_nothing (r : routing.routeRemote) (notif : routing.handlerSync)
    (w : World) :
  let cid := ref_Cid (routing.hs_Ref notif) in
  let peerIDStr := ID_String (routing.ai_ID (routing.hs_Peer notif)) in
  let learned :=
    snd (routing.learnPeerAddrs O peerIDStr (routing.ai_Addrs (routing.hs_Peer notif)) w) in
  let final := snd (routing.handleCIDProviderNotification O r notif w) in
  peerIDStr ≠ ID_String (routing.r_host_ID r) →
  (¬ ∃ key value, cached_entry (w_store learned) cid peerIDStr key value) →
  (∀ n, match o_pull O n (routing.ai_ID (routing.hs_Peer notif)) (routing.hs_Ref notif) with
        | Ok record => GetLabelsFromRecord record = []
        | Err _ => True
        end) →
  w_store final = w_store learned.
Proof.
  cbv zeta. intros Hremote Hnone Hpull.
  unfold routing.handleCIDProviderNotification. cbv zeta.
  rewrite bool_decide_eq_false_2 by exact Hremote.
  rewrite bind_run.
  set (learned := snd (routing.learnPeerAddrs O _ _ w)) in *.
  rewrite bind_run.
  pose proof (keeps_hasRemoteRecordCached (ref_Cid (routing.hs_Ref notif))
                (ID_String (routing.ai_ID (routing.hs_Peer notif))) learned) as Hkeep.
  destruct (fst (routing.hasRemoteRecordCached O _ _ learned)) eqn:Hcached.
  { exfalso. apply Hnone. eapply hasRemoteRecordCached_sound. exact Hcached. }
  run.
  match goal with
  | |- context [o_pull O ?n ?p ?ref] => specialize (Hpull n); destruct (o_pull O n p ref)
  end; run; [|exact Hkeep].
  rewrite Hpull. simpl. run. exact Hkeep.
Qed.

(** *** Once cached, no more pulls *)

Lemma keeps_keys_learnPeerAddrs (peerIDStr : string) (addrs : list ma_Multiaddr) :
  keeps_keys (routing.learnPeerAddrs O peerIDStr addrs).
Proof. unfold routing.learnPeerAddrs. keeps_keys_auto. Qed.

Lemma keeps_keys_updateRemoteRecordLastSeen_loop (cid peerID : string) (now : Time)
    (entries : list NamespaceEntry) :
  ∀ updatedCount,
    keeps_keys (routing.updateRemoteRecordLastSeen_loop O cid peerID now entries
                  updatedCount).
Proof.
  induction entries as [|entry rest IH]; intros updatedCount; simpl;
    [apply keeps_keys_of_store, keeps_ret|].
  destruct (ParseEnhancedLabelKey (ne_Key entry)) as [[[label keyCID] keyPeerID]|e];
    [|apply IH].
  destruct (bool_decide (keyCID = cid) && bool_decide (keyPeerID = peerID)); [|apply IH].
  unfold routing.updateLabelMetadataTimestamp. keeps_keys_auto.
Qed.

Lemma keeps_keys_updateRemoteRecordLastSeen (cid peerID : string) :
  keeps_keys (routing.updateRemoteRecordLastSeen O cid peerID).
Proof.
  unfold routing.updateRemoteRecordLastSeen.
  apply keeps_keys_bind; [apply keeps_keys_of_store, keeps_time_Now|intros now].
  apply keeps_keys_bind;
    [apply keeps_keys_of_store, keeps_QueryAllNamespaces_loop|intros q].
  destruct q; [|apply keeps_keys_of_store, keeps_log].
  apply keeps_keys_bind; [apply keeps_keys_updateRemoteRecordLastSeen_loop|intros _].
  apply keeps_keys_of_store, keeps_log.
Qed.

Lemma cached_entry_keeps (store store' : gmap string bytes) (cid peerID key : string)
    (value : bytes) :
  cached_entry store cid peerID key value →
  is_Some (store' !! key) →
  ∃ value', cached_entry store' cid peerID key value'.
Proof.
  intros (_ & Hns & Hparse) [value' Hlook]. exists value'. split; [exact Hlook|]. auto.
Qed.

(** The fast path: with the pair cached when the handler checks and scans
    that do not fail, the handler appends no pull. *)
Lemma handleCIDProviderNotification_fast (r : routing.routeRemote)
    (notif : routing.handlerSync) (w : World) (key : string) (value : bytes) :
  let cid := ref_Cid (routing.hs_Ref notif) in
  let peerIDStr := ID_String (routing.ai_ID (routing.hs_Peer notif)) in
  scan_healthy O →
  cached_entry (w_store w) cid peerIDStr key value →
  ∃ evs,
    w_trace (snd (routing.handleCIDProviderNotification O r notif w)) = w_trace w ++ evs ∧
    Forall (fun e => ¬ is_Pull e) evs.
Proof.
  cbv zeta. intros Hscan Hcached.
  assert (Hnopull : ∀ A (m : M A), emits is_Write m → emits (fun e => ¬ is_Pull e) m).
  { intros A m. apply emits_weaken. intros [] H; try contradiction; simpl; tauto. }
  revert w Hcached. unfold routing.handleCIDProviderNotification. cbv zeta.
  destruct (bool_decide _); [intros w _; apply emits_log; simpl; tauto|].
  intros w Hcached. rewrite bind_run.
  destruct (Hnopull _ _ (writes_learnPeerAddrs (ID_String (routing.ai_ID (routing.hs_Peer notif)))
                           (routing.ai_Addrs (routing.hs_Peer notif))) w)
    as (evs1 & Htrace1 & Hevs1).
  set (learned := snd (routing.learnPeerAddrs O _ _ w)) in *.
  assert (Hlearned : ∃ value', cached_entry (w_store learned)
                                 (ref_Cid (routing.hs_Ref notif))
                                 (ID_String (routing.ai_ID (routing.hs_Peer notif)))
                                 key value').
  { eapply cached_entry_keeps; [exact Hcached|].
    apply keeps_keys_learnPeerAddrs. destruct Hcached as [Hlook _]. eauto. }
  destruct Hlearned as (value' & Hlearned).
  rewrite bind_run, hasRemoteRecordCached_healthy by exact Hscan. cbn [fst snd].
  replace (existsb _ _) with true
    by (symmetry; apply existsb_key_matches; eauto).
  rewrite bind_run, log_run. cbn [fst snd].
  match goal with
  | |- context [routing.updateRemoteRecordLastSeen O ?c ?p ?w2] =>
      destruct (Hnopull _ _ (writes_updateRemoteRecordLastSeen c p) w2)
        as (evs3 & Htrace3 & Hevs3)
  end.
  rewrite Htrace3. cbn [w_trace]. rewrite Htrace1.
  eexists. split; [rewrite <- !app_assoc; reflexivity|].
  apply Forall_app. split; [exact Hevs1|]. constructor; [simpl; tauto|exact Hevs3].
Qed.

(** X17. Gossip first, DHT second. Once the gossip callback has cached a label
    of an announcement from another peer, a provider notification for the
    same record and peer pulls nothing: with scans that do not fail and a
    datastore that takes the writes, the handler appends no pull. The key
    under which the label is cached is assumed to be an enhanced key that
    parses back to the pair, and the metadata to encode. *)
Theorem gossip_then_notification_no_pull (r : routing.routeRemote) (ann : LabelAnnouncement)
    (notif : routing.handlerSync) (label : Label) (b : bytes) (w : World) :
  let cached := snd (routing.handleLabelAnnouncement O r ann w) in
  let final := snd (routing.handleCIDProviderNotification O r notif cached) in
  scan_healthy O → put_healthy O →
  ann_PeerID ann ≠ ID_String (routing.r_host_ID r) →
  ref_Cid (routing.hs_Ref notif) = ann_CID ann →
  ID_String (routing.ai_ID (routing.hs_Peer notif)) = ann_PeerID ann →
  label ∈ ann_Labels ann →
  cache_key_ok label (ann_CID ann) (ann_PeerID ann) →
  json_Marshal_meta (mkLabelMetadata (ann_Timestamp ann) (o_now O (w_tick w))) = Ok b →
  ∃ evs, w_trace final = w_trace cached ++ evs ∧ Forall (fun e => ¬ is_Pull e) evs.
Proof.
  cbv zeta. intros Hscan Hput Hremote Hcid Hpeer Hlabel [Hns Hparse] Henc.
  apply (handleCIDProviderNotification_fast r notif _
           (datastore_NewKey (BuildEnhancedLabelKey label (ann_CID ann) (ann_PeerID ann))) b);
    [exact Hscan|].
  rewrite Hcid, Hpeer. split; [|split; assumption].
  unfold routing.handleLabelAnnouncement.
  rewrite bool_decide_eq_false_2 by exact Hremote. run.
  match goal with
  | |- context [routing.cacheAnnouncedLabels_loop O ann ?now ?ls ?c ?w1] =>
      destruct (cacheAnnouncedLabels_loop_puts O ann now b ls Henc c w1)
        as (_ & _ & _ & Hstore)
  end.
  apply Hstore; assumption.
Qed.

(** X18. A repeated notification is served from the cache. When the pulls of
    a record from a remote peer return a record that carries a label, then of
    two consecutive notifications for that record and peer handled by
    [handleNotify], the second one pulls nothing: with scans that do not fail
    and a datastore that takes the writes, all the second handling appends
    are log lines and refresh writes. The key under which the label is cached
    is assumed to be an enhanced key that parses back to the pair, and the
    metadata to encode. *)
Theorem handleNotify_repeat_no_pull (r : routing.routeRemote) (notif : routing.handlerSync)
    (record : corev1_Record) (label : Label) (w : World) :
  let cid := ref_Cid (routing.hs_Ref notif) in
  let peerIDStr := ID_String (routing.ai_ID (routing.hs_Peer notif)) in
  let first := snd (routing.handleCIDProviderNotification O r notif w) in
  let final := snd (routing.handleNotify O r [Some notif; Some notif] w) in
  scan_healthy O → put_healthy O →
  peerIDStr ≠ ID_String (routing.r_host_ID r) →
  (∀ n, o_pull O n (routing.ai_ID (routing.hs_Peer notif)) (routing.hs_Ref notif)
        = Ok record) →
  label ∈ GetLabelsFromRecord record →
  cache_key_ok label cid peerIDStr →
  (∀ n, is_Ok (json_Marshal_meta (mkLabelMetadata (o_now O n) (o_now O n))) = true) →
  ∃ evs, w_trace final = w_trace first ++ evs ∧ Forall (fun e => ¬ is_Pull e) evs.
Proof.
  cbv zeta. intros Hscan Hput Hremote Hpull Hlabel [Hns Hparse] Henc.
  simpl routing.handleNotify. rewrite !bind_run. rewrite ret_run. cbn [fst snd].
  assert (Hcached : ∃ key value,
             cached_entry (w_store (snd (routing.handleCIDProviderNotification O r notif w)))
                          (ref_Cid (routing.hs_Ref notif))
                          (ID_String (routing.ai_ID (routing.hs_Peer notif))) key value).
  { unfold routing.handleCIDProviderNotification. cbv zeta.
    rewrite bool_decide_eq_false_2 by exact Hremote.
    rewrite bind_run.
    set (learned := snd (routing.learnPeerAddrs O _ _ w)).
    rewrite bind_run, hasRemoteRecordCached_healthy by exact Hscan. cbn [fst snd].
    destruct (existsb _ (scan (w_store learned))) eqn:Hex.
    - apply existsb_key_matches in Hex as (k & v & Hc).
      rewrite bind_run, log_run. cbn [fst snd]. exists k.
      eapply cached_entry_keeps; [exact Hc|].
      apply keeps_keys_updateRemoteRecordLastSeen. cbn [w_store].
      destruct Hc as [Hlook _]. eauto.
    - run. rewrite Hpull. run.
      destruct (GetLabelsFromRecord record) as [|l ls] eqn:Hlabels; [inversion Hlabel|].
      replace (Z.of_nat (length (l :: ls)) =? 0) with false
        by (symmetry; apply Z.eqb_neq; simpl length; lia).
      run.
      match goal with
      | |- context [routing.cachePulledLabels_loop O ?c ?p (o_now O ?n) ?labels ?cnt ?w4] =>
          specialize (Henc n);
          destruct (json_Marshal_meta (mkLabelMetadata (o_now O n) (o_now O n)))
            as [b|] eqn:Hb; [|discriminate];
          destruct (cachePulledLabels_loop_puts O c p (o_now O n) b labels Hb cnt w4)
            as (_ & _ & _ & Hstore)
      end.
      eexists. exists b. split; [|split; eassumption].
      apply Hstore; assumption. }
  destruct Hcached as (key & value & Hcached).
  apply (handleCIDProviderNotification_fast r notif _ key value); assumption.
Qed.

End ReconcilerFurther.

(** ** The subscription handler drops what it cannot use *)

Section GossipDrops.
Context `{ext : Externals}.
Variable O : Oracle.

Lemma framed_cacheAnnouncedLabels_loop (ann : LabelAnnouncement) (now : Time)
    (labelStrs : list string) :
  ∀ cachedCount, framed (routing.cacheAnnouncedLabels_loop O ann now labelStrs cachedCount).
Proof.
  induction labelStrs as [|labelStr rest IH]; intros cachedCount; simpl; framed_auto.
Qed.

Lemma framed_handleLabelAnnouncement (r : routing.routeRemote) (ann : LabelAnnouncement) :
  framed (routing.handleLabelAnnouncement O r ann).
Proof.
  unfold routing.handleLabelAnnouncement.
  destruct (bool_decide _); [apply framed_ret|].
  apply framed_bind; [apply framed_log|intros _].
  apply framed_bind; [apply framed_time_Now|intros now].
  apply framed_bind; [apply framed_cacheAnnouncedLabels_loop|intros _].
  apply framed_log.
Qed.

Lemma framed_handleMessage (host : peer_ID) (msg : Message) :
  framed (pubsub.handleMessage (routing.newRemote_manager O host) msg).
Proof.
  unfold pubsub.handleMessage. simpl.
  destruct (bool_decide _); [apply framed_ret|].
  destruct (pubsub.UnmarshalLabelAnnouncement (msg_Data msg)); [|apply framed_log].
  apply framed_bind; [apply framed_log|intros _]. apply framed_handleLabelAnnouncement.
Qed.

Lemma framed_handleMessages (host : peer_ID) (deliveries : list (result Message)) :
  framed (pubsub.handleMessages O (routing.newRemote_manager O host) deliveries).
Proof.
  induction deliveries as [|[msg|err] rest IH]; simpl.
  - apply framed_ret.
  - apply framed_bind; [apply framed_handleMessage|intros _]. exact IH.
  - apply framed_bind; [apply framed_ctx_Err|intros cerr].
    destruct cerr; [apply framed_log|].
    apply framed_bind; [apply framed_log|intros _]. exact IH.
Qed.

(** A message from the host itself, or one that does not decode into a valid
    announcement, leaves the world as it was but for log lines appended to
    the trace. *)
Lemma handleMessage_dropped (host : peer_ID) (bad : Message) (w : World) :
  msg_ReceivedFrom bad = host ∨
  is_Ok (pubsub.UnmarshalLabelAnnouncement (msg_Data bad)) = false →
  ∃ logs,
    snd (pubsub.handleMessage (routing.newRemote_manager O host) bad w)
    = with_trace (w_trace w ++ logs) w ∧
    Forall is_Log logs.
Proof.
  intros Hbad. unfold pubsub.handleMessage. simpl.
  destruct (bool_decide_reflect (msg_ReceivedFrom bad = host)) as [|Hother].
  { exists []. rewrite app_nil_r, with_trace_self. split; [reflexivity|constructor]. }
  destruct Hbad as [Hself|Hinvalid]; [contradiction|].
  destruct (pubsub.UnmarshalLabelAnnouncement (msg_Data bad)); [discriminate|].
  eexists. split; [reflexivity|]. constructor; [exact I|constructor].
Qed.

(** X19. The subscription handler drops what it cannot use, and goes on. A
    delivered message that comes from the host itself, or whose payload is
    not a valid announcement (too large, not decodable, a required field
    missing, too many labels), has no effect but log lines: the handling of
    the deliveries ends in the datastore and at the interaction count of the
    same deliveries without that message, and its trace is the trace of the
    deliveries without that message with log lines inserted at one place; no
    write, pull or announcement is added, dropped or moved. *)
Theorem handleMessages_drops_invalid (host : peer_ID) (bad : Message)
    (before after : list (result Message)) (w : World) :
  let mgr := routing.newRemote_manager O host in
  let with_bad := snd (pubsub.handleMessages O mgr (before ++ Ok bad :: after) w) in
  let without := snd (pubsub.handleMessages O mgr (before ++ after) w) in
  msg_ReceivedFrom bad = host ∨
  is_Ok (pubsub.UnmarshalLabelAnnouncement (msg_Data bad)) = false →
  same_state with_bad without ∧
  ∃ pre logs post,
    w_trace with_bad = pre ++ logs ++ post ∧
    w_trace without = pre ++ post ∧
    Forall is_Log logs.
Proof.
  cbv zeta. intros Hbad. revert w.
  induction before as [|[msg|err] rest IH]; intros w; simpl.
  - rewrite bind_run.
    destruct (handleMessage_dropped host bad w Hbad) as (logs & -> & Hlogs).
    destruct (framed_handleMessages host after w) as (evs & Hrun).
    destruct (Hrun (w_trace w ++ logs)) as (_ & Hstate1 & Htrace1).
    destruct (Hrun (w_trace w)) as (_ & _ & Htrace2).
    rewrite with_trace_self in Htrace2.
    split; [exact Hstate1|].
    exists (w_trace w), logs, evs. rewrite Htrace1, Htrace2, <- app_assoc. auto.
  - rewrite !bind_run. apply IH.
  - rewrite !bind_run, ctx_Err_run. cbn [fst snd].
    destruct (o_ctx_err O (w_tick w)).
    + split; [split; reflexivity|].
      eexists. exists [], []. rewrite !app_nil_r. split; [reflexivity|].
      split; [reflexivity|constructor].
    + rewrite !bind_run, !log_run. cbn [fst snd]. apply IH.
Qed.

End GossipDrops.

(** * The properties on the sample node *)

Section Examples.
#[local] Existing Instance sample.ext.

(** The sample announcement is valid, and its encoding is 97 bytes long. *)
Example sample_Validate : pubsub.Validate sample.ann1 = None.
Proof. reflexivity. Qed.

Example sample_wire_length : length (sample.wire sample.ann1) = 97%nat.
Proof. vm_compute. reflexivity. Qed.

(** The search of the sample request: the repeated query counts once, the
    record of the local node is left out, and [bafy1], cached under two labels,
    comes once, with both queries matching. *)
Example sample_Search :
  map (fun resp => (resp_cid resp, peer_Id (resp_Peer resp), resp_MatchScore resp))
      (fst (fst (routing.Search (sample.calm 100 []) sample.node sample.request1
                   (sample.world0 sample.store1))))
  = [("bafy1", "12D3A", 2); ("bafy2", "12D3B", 1)].
Proof. vm_compute. reflexivity. Qed.

Example sample_Search_threshold :
  map resp_cid
      (fst (fst (routing.Search (sample.calm 100 []) sample.node
                   (mkSearchRequest (req_Queries sample.request1) 0 2)
                   (sample.world0 sample.store1))))
  = ["bafy1"].
Proof. vm_compute. reflexivity. Qed.

(** A gossip announcement of [bafy1] by peer [12D3A], received from a third
    peer, is cached under both labels with the announced timestamp. *)
Example sample_gossip :
  w_store (snd (pubsub.handleMessages (sample.calm 100 [])
                  (routing.newRemote_manager (sample.calm 100 []) sample.local)
                  [Ok (mkMessage "12D3B" (sample.wire sample.ann1))]
                  (sample.world0 ∅)))
  = <["/skills/AI/ML/bafy1/12D3A" := sample.meta 1700 100]>
      (<["/domains/research/bafy1/12D3A" := sample.meta 1700 100]> ∅).
Proof. vm_compute. reflexivity. Qed.

Lemma calm_scan_healthy (now : Time) (record : list Label) :
  scan_healthy (sample.calm now record).
Proof. repeat split. Qed.

Lemma calm_put_healthy (now : Time) (record : list Label) :
  put_healthy (sample.calm now record).
Proof. intros n key. reflexivity. Qed.

Lemma store1_keys_clean : keys_clean sample.store1.
Proof.
  change (map_Forall (fun key _ => datastore_NewKey key = key) sample.store1).
  apply (bool_decide_unpack _). vm_compute. exact I.
Qed.

Lemma store1_caches_bafy1 :
  cached_entry sample.store1 "bafy1" "12D3A" "/skills/AI/ML/bafy1/12D3A" (sample.meta 5 7).
Proof.
  split; [vm_compute; reflexivity|]. split.
  - exists "/skills/". split; [left|reflexivity].
  - exists "/skills/AI/ML". reflexivity.
Qed.

(** C1 on the sample node. A notification for the cached record [bafy1]: no
    pull, and the entry under [/skills/AI/ML] keeps its timestamp 5 and gets
    [last_seen] 100. A notification for the unknown record [bafy9], whose pull
    returns a record with two labels: the pull is issued and the store holds
    both keys with timestamp and [last_seen] 100. *)
Lemma handleCIDProviderNotification_paths_witness :
  ((EvPull "12D3A" (mkRecordRef "bafy1")
      ∉ w_trace (snd (routing.handleCIDProviderNotification (sample.calm 100 [])
                        sample.node (sample.notification "bafy1")
                        (sample.world0 sample.store1)))) ∧
   w_store (snd (routing.handleCIDProviderNotification (sample.calm 100 [])
                   sample.node (sample.notification "bafy1")
                   (sample.world0 sample.store1)))
     !! "/skills/AI/ML/bafy1/12D3A" = Some (sample.meta 5 100)) ∧
  ((EvPull "12D3A" (mkRecordRef "bafy9")
      ∈ w_trace (snd (routing.handleCIDProviderNotification
                        (sample.calm 100 ["/skills/X"; "/modules/Y"])
                        sample.node (sample.notification "bafy9")
                        (sample.world0 sample.store1)))) ∧
   w_store (snd (routing.handleCIDProviderNotification
                   (sample.calm 100 ["/skills/X"; "/modules/Y"])
                   sample.node (sample.notification "bafy9")
                   (sample.world0 sample.store1)))
     !! "/modules/Y/bafy9/12D3A" = Some (sample.meta 100 100)).
Proof.
  split.
  - destruct (handleCIDProviderNotification_paths (sample.calm 100 []) sample.node
                (sample.notification "bafy1") (sample.world0 sample.store1))
      as (evs & Htrace & Hfast & _); [discriminate|].
    destruct (Hfast (calm_scan_healthy _ _)
                (ex_intro _ _ (ex_intro _ _ store1_caches_bafy1)))
      as [Hnopull [n Hrefresh]].
    split.
    + rewrite Htrace. intros Hpull. rewrite Forall_forall in Hnopull.
      apply (Hnopull _ Hpull). exact I.
    + destruct (Hrefresh _ _ (mkLabelMetadata 5 7) (sample.meta 5 100) store1_caches_bafy1)
        as [_ Hstore]; [reflexivity|reflexivity|].
      apply Hstore; [apply calm_put_healthy|exact store1_keys_clean].
  - destruct (handleCIDProviderNotification_paths
                (sample.calm 100 ["/skills/X"; "/modules/Y"]) sample.node
                (sample.notification "bafy9") (sample.world0 sample.store1))
      as (evs & Htrace & _ & Hslow); [discriminate|].
    destruct Hslow as [Hpull Hwrites].
    + left. intros Hcached. apply existsb_key_matches in Hcached.
      vm_compute in Hcached. discriminate Hcached.
    + split; [rewrite Htrace; exact Hpull|].
      destruct (Hwrites ["/skills/X"; "/modules/Y"] (fun _ => eq_refl)) as [n Hlabels].
      destruct (Hlabels "/modules/Y" (sample.meta 100 100)) as [_ Hstore];
        [right; left|reflexivity|].
      apply Hstore, calm_put_healthy.
Defined.

(** C1 as stated fails when the namespace scan fails: with the context
    cancelled, the cache check of the handler reports nothing although the
    store holds two enhanced keys for (bafy1, 12D3A), and the handler pulls. *)
Lemma handleCIDProviderNotification_pulls_despite_cache :
  cached_entry (w_store (sample.world0 sample.store1)) "bafy1" "12D3A"
               "/skills/AI/ML/bafy1/12D3A" (sample.meta 5 7) ∧
  (EvPull "12D3A" (mkRecordRef "bafy1")
     ∈ w_trace (snd (routing.handleCIDProviderNotification (sample.cancelled 100 [])
                       sample.node (sample.notification "bafy1")
                       (sample.world0 sample.store1)))).
Proof.
  split; [exact store1_caches_bafy1|]. vm_compute. repeat constructor.
Qed.

(** C3 on the sample announcement: its encoding is accepted. *)
Lemma UnmarshalLabelAnnouncement_accepts_iff_witness :
  1 ≤ MaxLabelsPerAnnouncement ∧
  pubsub.UnmarshalLabelAnnouncement (sample.wire sample.ann1) = Ok sample.ann1.
Proof.
  assert (Hmax : 1 ≤ MaxLabelsPerAnnouncement) by (vm_compute; discriminate).
  split; [exact Hmax|].
  apply (proj1 (UnmarshalLabelAnnouncement_accepts_iff Hmax)).
  split; [vm_compute; discriminate|]. split; [vm_compute; reflexivity|].
  repeat split; vm_compute; discriminate.
Defined.

(** The round trip on the sample announcement, with the codec of the sample
    node. *)
Lemma Marshal_Unmarshal_roundtrip_witness :
  pubsub.Marshal sample.ann1 = Ok (sample.wire sample.ann1) ∧
  pubsub.UnmarshalLabelAnnouncement (sample.wire sample.ann1) = Ok sample.ann1.
Proof.
  apply Marshal_Unmarshal_roundtrip.
  - repeat split; vm_compute; discriminate.
  - intros data Hdata. vm_compute in Hdata. injection Hdata as <-. vm_compute. reflexivity.
  - vm_compute. reflexivity.
  - vm_compute. discriminate.
Defined.

(** C5 on the sample node: a reference whose CID does not parse. *)
Lemma Publish_error_iff_witness :
  fst (routing.Publish (sample.calm 100 []) sample.node (mkRecordRef EmptyString)
         ["/skills/AI"] (sample.world0 sample.store1)) ≠ None.
Proof.
  apply (proj1 (Publish_error_iff (sample.calm 100 []) sample.node (mkRecordRef EmptyString)
                  ["/skills/AI"] (sample.world0 sample.store1))).
  left. eexists. reflexivity.
Defined.

(** C9 on the sample node: a value that is not an encoded metadata. *)
Lemma updateLabelMetadataTimestamp_spec_witness :
  snd (routing.updateLabelMetadataTimestamp (sample.calm 100 [])
         "/skills/AI/bafy2/12D3B" [] 100 (sample.world0 sample.store1))
  = sample.world0 sample.store1.
Proof.
  eapply (proj2 (updateLabelMetadataTimestamp_spec (sample.calm 100 [])
                   "/skills/AI/bafy2/12D3B" [] 100 (sample.world0 sample.store1))).
  reflexivity.
Defined.

(** C10 on the sample node: a search whose context is already cancelled. *)
Lemma Search_returns_no_error_witness :
  snd (fst (routing.Search (sample.cancelled 100 []) sample.node sample.request1
              (sample.world0 sample.store1))) = None ∧
  fst (fst (routing.Search (sample.cancelled 100 []) sample.node sample.request1
              (sample.world0 sample.store1))) = [].
Proof.
  destruct (Search_returns_no_error (sample.cancelled 100 []) sample.node sample.request1
              (sample.world0 sample.store1)) as [Hnil Hclosed].
  split; [exact Hnil|]. apply Hclosed. reflexivity.
Defined.

(** C4 on the sample node. *)
Lemma Search_no_duplicate_cid_witness :
  NoDup (map resp_cid
             (fst (fst (routing.Search (sample.calm 100 []) sample.node sample.request1
                          (sample.world0 sample.store1))))).
Proof. apply Search_no_duplicate_cid. Defined.

(** C8 on the sample node. *)
Lemma Search_excludes_local_peer_witness :
  Forall (fun resp => peer_Id (resp_Peer resp) ≠ sample.local)
         (fst (fst (routing.Search (sample.calm 100 []) sample.node sample.request1
                      (sample.world0 sample.store1)))).
Proof.
  exact (Search_excludes_local_peer (sample.calm 100 []) sample.node sample.request1
           (sample.world0 sample.store1)).
Defined.

(** C2 on the sample node: three queries, two of them the same. *)
Lemma Search_match_score_witness :
  Z.of_nat (length (deduplicateQueries (req_Queries sample.request1))) ≤ MaxUint32 ∧
  Forall (fun resp => resp_MatchScore resp = Z.of_nat (length (resp_MatchQueries resp)))
         (fst (fst (routing.Search (sample.calm 100 []) sample.node sample.request1
                      (sample.world0 sample.store1)))) ∧
  fst (fst (routing.Search (sample.calm 100 []) sample.node sample.request1
              (sample.world0 sample.store1))) =
  fst (fst (routing.Search (sample.calm 100 []) sample.node
              (mkSearchRequest (req_Queries sample.request1) (req_Limit sample.request1) 1)
              (sample.world0 sample.store1))).
Proof.
  assert (Hfit : Z.of_nat (length (deduplicateQueries (req_Queries sample.request1)))
                 ≤ MaxUint32) by (vm_compute; discriminate).
  destruct (Search_match_score (sample.calm 100 []) sample.node sample.request1
              (sample.world0 sample.store1)) as (_ & Hcount & Hzero).
  split; [exact Hfit|]. split; [exact (Hcount Hfit)|]. apply Hzero. reflexivity.
Defined.

(** C6 on the sample node: its own announcement, delivered back by gossip,
    is dropped. *)
Lemma gossip_receive_drops_own_witness :
  pubsub.handleMessage (routing.newRemote_manager (sample.calm 100 []) sample.local)
    (mkMessage sample.local (sample.wire sample.ann1)) (sample.world0 sample.store1)
  = (tt, sample.world0 sample.store1).
Proof.
  apply (proj1 (proj2 (gossip_receive_drops_own (sample.calm 100 []) sample.local))).
  reflexivity.
Defined.

(** C6 as stated fails on the sample node: a message received from peer
    [12D3B] carries an announcement that declares the peer_id [12D3L/.], which
    is not the local one; it is not dropped, and its label is written under
    the key that the datastore cleans into [/skills/AI/bafy3/12D3L], the
    entry of the local node for that label and CID, which it overwrites. *)
Lemma gossip_receive_overwrites_local_entry :
  msg_ReceivedFrom (mkMessage "12D3B" (sample.wire sample.forged)) ≠ sample.local ∧
  pubsub.UnmarshalLabelAnnouncement (sample.wire sample.forged) = Ok sample.forged ∧
  ann_PeerID sample.forged ≠ ID_String sample.local ∧
  ParseEnhancedLabelKey "/skills/AI/bafy3/12D3L" = Ok ("/skills/AI", "bafy3", sample.local) ∧
  sample.store1 !! "/skills/AI/bafy3/12D3L" = Some (sample.meta 1 1) ∧
  EvPut "/skills/AI/bafy3/12D3L" (sample.meta 1700 100)
    ∈ w_trace (snd (pubsub.handleMessages (sample.calm 100 [])
                      (routing.newRemote_manager (sample.calm 100 []) sample.local)
                      [Ok (mkMessage "12D3B" (sample.wire sample.forged))]
                      (sample.world0 sample.store1))) ∧
  w_store (snd (pubsub.handleMessages (sample.calm 100 [])
                  (routing.newRemote_manager (sample.calm 100 []) sample.local)
                  [Ok (mkMessage "12D3B" (sample.wire sample.forged))]
                  (sample.world0 sample.store1)))
    !! "/skills/AI/bafy3/12D3L" = Some (sample.meta 1700 100).
Proof.
  split; [discriminate|]. split; [vm_compute; reflexivity|]. split; [discriminate|].
  split; [vm_compute; reflexivity|]. split; [vm_compute; reflexivity|].
  split; [vm_compute; repeat constructor|vm_compute; reflexivity].
Qed.

(** C7 as stated fails on a label that is not valid UTF-8: the announcement
    is well-formed, [Marshal] succeeds within the size limit, and
    [UnmarshalLabelAnnouncement] succeeds on its output, with the replacement
    character U+FFFD (bytes EF BF BD) in place of the byte 0xFF. *)
Lemma Marshal_Unmarshal_replaces_invalid_bytes :
  @spec_well_formed (gojson.externals sample.ext) gojson.raw_ann ∧
  ∃ data decoded,
    @pubsub.Marshal (gojson.externals sample.ext) gojson.raw_ann = Ok data ∧
    Z.of_nat (length data) ≤ @MaxMessageSize (gojson.externals sample.ext) ∧
    @pubsub.UnmarshalLabelAnnouncement (gojson.externals sample.ext) data = Ok decoded ∧
    ann_Labels gojson.raw_ann = ["/skills/" +:+ gojson.text [255]] ∧
    ann_Labels decoded = ["/skills/" +:+ gojson.text [239; 191; 189]] ∧
    decoded ≠ gojson.raw_ann.
Proof.
  split.
  { repeat split; try discriminate; vm_compute; discriminate. }
  eexists. eexists.
  split; [vm_compute; reflexivity|].
  split; [vm_compute; discriminate|].
  split; [vm_compute; reflexivity|].
  split; [reflexivity|]. split; [vm_compute; reflexivity|].
  vm_compute. discriminate.
Qed.

(** C7 on the sample announcement. *)
Lemma json_Marshal_Unmarshal_roundtrip_witness :
  @pubsub.Marshal (gojson.externals sample.ext) gojson.sample_ann = Ok gojson.sample_data ∧
  @pubsub.UnmarshalLabelAnnouncement (gojson.externals sample.ext) gojson.sample_data
  = Ok gojson.sample_ann.
Proof.
  apply (@json_Marshal_Unmarshal_roundtrip sample.ext).
  - repeat split; try discriminate; vm_compute; discriminate.
  - vm_compute. repeat constructor.
  - vm_compute. reflexivity.
  - vm_compute. discriminate.
Defined.

End Examples.

(** * Further properties on the sample node *)

Section FurtherExamples.
#[local] Existing Instance sample.ext.

Lemma ann1_cache_key_ok : cache_key_ok "/skills/AI/ML" "bafy1" "12D3A".
Proof.
  split.
  - exists "/skills/". split; [left|reflexivity].
  - exists "/skills/AI/ML". reflexivity.
Qed.

(** X2 on the sample node: a search limited to one response. *)
Lemma Search_respects_limit_witness :
  Z.of_nat (length (fst (fst (routing.Search (sample.calm 100 []) sample.node
                                (mkSearchRequest (req_Queries sample.request1) 1 0)
                                (sample.world0 sample.store1))))) ≤ 1.
Proof.
  apply (Search_respects_limit (sample.calm 100 []) sample.node
           (mkSearchRequest (req_Queries sample.request1) 1 0)
           (sample.world0 sample.store1)).
  reflexivity.
Defined.

(** X4 on the sample node: a request without queries. *)
Lemma Search_without_queries_witness :
  fst (fst (routing.Search (sample.calm 100 []) sample.node (mkSearchRequest [] 0 0)
              (sample.world0 sample.store1))) = [].
Proof. apply Search_without_queries. reflexivity. Defined.

(** X5 on the sample node. *)
Lemma Search_match_queries_cached_witness :
  Forall (fun resp =>
            resp_MatchQueries resp =
            cached_matches sample.store1 (deduplicateQueries (req_Queries sample.request1))
                           (resp_cid resp) (peer_Id (resp_Peer resp)))
         (fst (fst (routing.Search (sample.calm 100 []) sample.node sample.request1
                      (sample.world0 sample.store1)))).
Proof.
  apply (Search_match_queries_cached (sample.calm 100 []) sample.node sample.request1
           (sample.world0 sample.store1)).
  apply calm_scan_healthy.
Defined.

(** X6 on the sample node: the record [bafy1] of peer [12D3A], cached under
    two labels that match the two distinct queries, is found. *)
Lemma Search_finds_cached_matches_witness :
  ∃ resp,
    resp ∈ fst (fst (routing.Search (sample.calm 100 []) sample.node sample.request1
                       (sample.world0 sample.store1))) ∧
    resp_cid resp = "bafy1".
Proof.
  apply (Search_finds_cached_matches (sample.calm 100 []) sample.node sample.request1
           (sample.world0 sample.store1) "/skills/AI/ML/bafy1/12D3A" (sample.meta 5 7)
           "bafy1" "12D3A").
  - apply calm_scan_healthy.
  - reflexivity.
  - exact store1_caches_bafy1.
  - discriminate.
  - vm_compute. discriminate.
Defined.

(** X11 on the sample node: the announcement of [bafy1] by peer [12D3A],
    made at instant 1700 and handled at instant 100. *)
Lemma handleLabelAnnouncement_caches_witness :
  w_store (snd (routing.handleLabelAnnouncement (sample.calm 100 []) sample.node sample.ann1
                  (sample.world0 ∅)))
    !! datastore_NewKey (BuildEnhancedLabelKey "/skills/AI/ML" "bafy1" "12D3A")
  = Some (sample.meta 1700 100).
Proof.
  destruct (handleLabelAnnouncement_caches (sample.calm 100 []) sample.node sample.ann1
              (sample.world0 ∅) (sample.meta 1700 100)) as (_ & _ & Hstore);
    [discriminate|reflexivity|].
  apply Hstore; [apply calm_put_healthy|left].
Defined.

(** X12 on two sample nodes: peer [12D3A] publishes at instant 1700, the
    local node receives the message from peer [12D3B] at instant 100. *)
Lemma gossip_publish_then_receive_witness :
  ∃ data evsA,
    w_trace (snd (pubsub.PublishLabels (sample.calm 1700 []) (pubsub.New "12D3A") "bafy1"
                    ["/skills/AI/ML"; "/domains/research"] (sample.world0 ∅)))
    = w_trace (sample.world0 ∅) ++ evsA ∧
    EvTopicPublish data ∈ evsA ∧
    let final := snd (pubsub.handleMessage
                        (routing.newRemote_manager (sample.calm 100 []) sample.local)
                        (mkMessage "12D3B" data) (sample.world0 ∅)) in
    ∃ evsB,
      w_trace final = w_trace (sample.world0 ∅) ++ evsB ∧
      ∀ label, label ∈ ["/skills/AI/ML"; "/domains/research"] →
        EvPut (datastore_NewKey (BuildEnhancedLabelKey label "bafy1" (ID_String "12D3A")))
              (sample.meta 1700 100) ∈ evsB ∧
        (put_healthy (sample.calm 100 []) →
         w_store final
           !! datastore_NewKey (BuildEnhancedLabelKey label "bafy1" (ID_String "12D3A"))
         = Some (sample.meta 1700 100)).
Proof.
  apply (gossip_publish_then_receive (sample.calm 1700 []) (sample.calm 100 [])
           "12D3A" sample.local "12D3B" "bafy1" ["/skills/AI/ML"; "/domains/research"]
           (sample.world0 ∅) (sample.world0 ∅) (sample.meta 1700 100)).
  - vm_compute. reflexivity.
  - intros data Hdata. vm_compute in Hdata. injection Hdata as <-. vm_compute. reflexivity.
  - discriminate.
  - discriminate.
  - reflexivity.
Defined.

(** X13 on the sample node: the address brought by a notification from peer
    [12D3A] is the one later searches serve. *)
Lemma learned_address_is_served_witness :
  fst (routing.createPeerInfo (sample.calm 100 []) "12D3A"
         (snd (routing.learnPeerAddrs (sample.calm 100 []) "12D3A" sample.addrs1
                 (sample.world0 sample.store1))))
  = mkPeer "12D3A" ["dir-a.example:8888"].
Proof.
  refine (proj1 (learned_address_is_served (sample.calm 100 []) "12D3A" sample.addrs1
                   sample.encoded_addrs1 (sample.world0 sample.store1) _ _ _ _ _ _)).
  - discriminate.
  - reflexivity.
  - reflexivity.
  - vm_compute. reflexivity.
  - vm_compute. reflexivity.
  - vm_compute. reflexivity.
Defined.

(** X14 on the sample node: refreshing [bafy1] of peer [12D3A] leaves the
    entry of [bafy2] as it was. *)
Lemma updateRemoteRecordLastSeen_frame_witness :
  w_store (snd (routing.updateRemoteRecordLastSeen (sample.calm 100 []) "bafy1" "12D3A"
                  (sample.world0 sample.store1)))
    !! "/skills/AI/bafy2/12D3B"
  = Some (sample.meta 6 8).
Proof.
  destruct (updateRemoteRecordLastSeen_frame (sample.calm 100 []) "bafy1" "12D3A"
              (sample.world0 sample.store1) store1_keys_clean) as [_ Hframe].
  rewrite Hframe; [vm_compute; reflexivity|reflexivity].
Defined.

(** X16 on the sample node: the pull of the unknown record [bafy9] returns a
    record without labels. *)
Lemma failed_pull_caches_nothing_witness :
  w_store (snd (routing.handleCIDProviderNotification (sample.calm 100 []) sample.node
                  (sample.notification "bafy9") (sample.world0 sample.store1)))
  = sample.store1.
Proof.
  rewrite (failed_pull_caches_nothing (sample.calm 100 []) sample.node
             (sample.notification "bafy9") (sample.world0 sample.store1)).
  - reflexivity.
  - discriminate.
  - intros Hcached. apply existsb_key_matches in Hcached.
    vm_compute in Hcached. discriminate Hcached.
  - intros n. reflexivity.
Defined.

(** X17 on the sample node: the announcement of [bafy1] by peer [12D3A],
    then the provider notification for the same record and peer. *)
Lemma gossip_then_notification_no_pull_witness :
  ∃ evs,
    w_trace (snd (routing.handleCIDProviderNotification (sample.calm 100 []) sample.node
                    (sample.notification "bafy1")
                    (snd (routing.handleLabelAnnouncement (sample.calm 100 []) sample.node
                            sample.ann1 (sample.world0 ∅)))))
    = w_trace (snd (routing.handleLabelAnnouncement (sample.calm 100 []) sample.node
                      sample.ann1 (sample.world0 ∅))) ++ evs ∧
    Forall (fun e => ¬ is_Pull e) evs.
Proof.
  apply (gossip_then_notification_no_pull (sample.calm 100 []) sample.node sample.ann1
           (sample.notification "bafy1") "/skills/AI/ML" (sample.meta 1700 100)
           (sample.world0 ∅)).
  - apply calm_scan_healthy.
  - apply calm_put_healthy.
  - discriminate.
  - reflexivity.
  - reflexivity.
  - left.
  - exact ann1_cache_key_ok.
  - reflexivity.
Defined.

(** X18 on the sample node: two notifications for the unknown record
    [bafy9], whose pull returns a record with two labels. *)
Lemma handleNotify_repeat_no_pull_witness :
  ∃ evs,
    w_trace (snd (routing.handleNotify (sample.calm 100 ["/skills/X"; "/modules/Y"])
                    sample.node
                    [Some (sample.notification "bafy9"); Some (sample.notification "bafy9")]
                    (sample.world0 sample.store1)))
    = w_trace (snd (routing.handleCIDProviderNotification
                      (sample.calm 100 ["/skills/X"; "/modules/Y"]) sample.node
                      (sample.notification "bafy9") (sample.world0 sample.store1))) ++ evs ∧
    Forall (fun e => ¬ is_Pull e) evs.
Proof.
  apply (handleNotify_repeat_no_pull (sample.calm 100 ["/skills/X"; "/modules/Y"])
           sample.node (sample.notification "bafy9") ["/skills/X"; "/modules/Y"]
           "/skills/X" (sample.world0 sample.store1)).
  - apply calm_scan_healthy.
  - apply calm_put_healthy.
  - discriminate.
  - intros n. reflexivity.
  - left.
  - split.
    + exists "/skills/". split; [left|reflexivity].
    + exists "/skills/X". reflexivity.
  - intros n. reflexivity.
Defined.

(** X19 on the sample node: a message whose payload is empty, between two
    deliveries of the sample announcement. *)
Lemma handleMessages_drops_invalid_witness :
  let mgr := routing.newRemote_manager (sample.calm 100 []) sample.local in
  let with_bad :=
    snd (pubsub.handleMessages (sample.calm 100 []) mgr
           ([Ok (mkMessage "12D3B" (sample.wire sample.ann1))]
              ++ Ok (mkMessage "12D3B" []) :: [Ok (mkMessage "12D3A" (sample.wire sample.ann1))])
           (sample.world0 ∅)) in
  let without :=
    snd (pubsub.handleMessages (sample.calm 100 []) mgr
           ([Ok (mkMessage "12D3B" (sample.wire sample.ann1))]
              ++ [Ok (mkMessage "12D3A" (sample.wire sample.ann1))])
           (sample.world0 ∅)) in
  same_state with_bad without ∧
  ∃ pre logs post,
    w_trace with_bad = pre ++ logs ++ post ∧
    w_trace without = pre ++ post ∧
    Forall is_Log logs.
Proof.
  apply (handleMessages_drops_invalid (sample.calm 100 []) sample.local
           (mkMessage "12D3B" [])).
  right. reflexivity.
Defined.

End FurtherExamples.
